(** * Web eID browser extension: origin coercion, the trust-checked fetch
      broker and the signing flow

    A shallow embedding of
    - [shared/utils/coerceOrigin.ts]   ([coerceOrigin]),
    - [background/services/WebServerService.ts] (the class [WebServerService]),
    - [background/actions/sign.ts]     ([sign]),
    - [shared/utils/headersToObject.ts] ([headersToObject]),
    together with the properties of these functions that the design
    document of the extension states (C1 to C10), and further properties
    that the code shows (X1, X2, ...).

    Strings are byte strings (UTF-8).  Asynchronous browser and native
    application calls are answered by an environment record, so every run
    of the code is a function of its arguments and of that environment. *)

From Stdlib Require Import String Ascii List Bool Arith NArith ZArith Lia.
From Stdlib Require Import DecimalString DecimalN DecimalPos.
Import ListNotations.

Local Open Scope string_scope.
Local Open Scope nat_scope.
Local Open Scope list_scope.

(* ================================================================== *)
(** * Characters and character lists *)
(* ================================================================== *)

Definition chars := list ascii.

Notation "$ s" := (list_ascii_of_string s) (at level 1, s at level 0, format "$ s").

Definition code (c : ascii) : nat := nat_of_ascii c.

(** The double quote, U+0022. *)
Definition dquote : ascii := "034"%char.

Definition chars_eqb (a b : chars) : bool :=
  if list_eq_dec ascii_dec a b then true else false.

Definition is_c0_control_or_space (c : ascii) : bool := code c <=? 32.
Definition is_tab_or_newline (c : ascii) : bool :=
  (code c =? 9) || (code c =? 10) || (code c =? 13).
Definition is_ascii_upper (c : ascii) : bool := (65 <=? code c) && (code c <=? 90).
Definition is_ascii_lower (c : ascii) : bool := (97 <=? code c) && (code c <=? 122).
Definition is_ascii_alpha (c : ascii) : bool := is_ascii_upper c || is_ascii_lower c.
Definition is_ascii_digit (c : ascii) : bool := (48 <=? code c) && (code c <=? 57).
Definition is_ascii_hex_digit (c : ascii) : bool :=
  is_ascii_digit c || ((65 <=? code c) && (code c <=? 70))
                   || ((97 <=? code c) && (code c <=? 102)).

(** ASCII lower-casing, byte by byte. *)
Definition to_lower (c : ascii) : ascii :=
  if is_ascii_upper c then ascii_of_nat (code c + 32) else c.

Definition lower (s : chars) : chars := map to_lower s.

Definition char_in (l : string) (c : ascii) : bool :=
  existsb (Ascii.eqb c) $l.

Fixpoint drop_while (p : ascii -> bool) (s : chars) : chars :=
  match s with
  | [] => []
  | c :: r => if p c then drop_while p r else s
  end.

(** [break p s] cuts [s] in front of the first character satisfying [p]. *)
Fixpoint break (p : ascii -> bool) (s : chars) : chars * chars :=
  match s with
  | [] => ([], [])
  | c :: r => if p c then ([], s) else let (a, b) := break p r in (c :: a, b)
  end.

(** [split_on p s] cuts [s] at every character satisfying [p]; the result
    is never empty. *)
Fixpoint split_on (p : ascii -> bool) (s : chars) : list chars :=
  match s with
  | [] => [[]]
  | c :: r =>
      if p c then [] :: split_on p r
      else match split_on p r with
           | seg :: segs => (c :: seg) :: segs
           | [] => [[c]]
           end
  end.

Fixpoint starts_with (pre s : chars) : bool :=
  match pre, s with
  | [], _ => true
  | a :: pre', b :: s' => Ascii.eqb a b && starts_with pre' s'
  | _ :: _, [] => false
  end.

(* ================================================================== *)
(** * The platform's [URL] class

    [coerceOrigin] and [WebServerService] use the [URL] class of the
    browser: [new URL(url, base)], [.origin] and [.href].  The class is
    not part of the extension; it is modelled here after the URL
    Standard (basic URL parser, URL serializer, origin serialization),
    for URLs of the special schemes http, https, ws, wss and ftp whose
    host is an ASCII domain name.  The constructor of the model throws
    (returns [None]) where the Standard's parser fails, and also on the
    inputs the model leaves out: other schemes, credentials in the
    authority, hosts that need percent-decoding, IDNA processing or an
    IP-address parser.  Whenever the model yields a URL, it is the URL
    record the Standard yields.

    The model serves to run the code on concrete inputs.  What is to
    hold on the platform is proved without looking into the model (for
    whatever the constructor answers), with the property of the class
    that is used as a hypothesis, or for an arbitrary URL class
    ([AnyUrl]). *)
(* ================================================================== *)

Module Url.

Record URL := mkURL {
  scheme   : chars;
  host     : chars;
  port     : option N;
  path     : list chars;
  query    : option chars;
  fragment : option chars
}.

(** Special schemes and their default ports. *)
Definition default_port (sch : chars) : option N :=
  if chars_eqb sch $"http" then Some 80%N
  else if chars_eqb sch $"https" then Some 443%N
  else if chars_eqb sch $"ws" then Some 80%N
  else if chars_eqb sch $"wss" then Some 443%N
  else if chars_eqb sch $"ftp" then Some 21%N
  else None.

(** ** Percent-encode sets *)

Definition c0_control_set (c : ascii) : bool := (code c <=? 31) || (126 <? code c).
Definition fragment_set (c : ascii) : bool :=
  c0_control_set c || Ascii.eqb c dquote || char_in " <>`" c.
Definition query_set (c : ascii) : bool :=
  c0_control_set c || Ascii.eqb c dquote || char_in " #<>" c.
Definition special_query_set (c : ascii) : bool :=
  query_set c || char_in "'" c.
(** The Standard has [^] in the path percent-encode set; runtimes that
    follow an earlier version of it leave [^] in a path as it is. *)
Definition path_set (c : ascii) : bool :=
  query_set c || char_in "?^`{}" c.

Definition hex_digit (n : nat) : ascii :=
  nth n $"0123456789ABCDEF" "0"%char.

Definition percent_encode_byte (c : ascii) : chars :=
  ["%"%char; hex_digit (code c / 16); hex_digit (code c mod 16)].

Definition percent_encode (set : ascii -> bool) (s : chars) : chars :=
  flat_map (fun c => if set c then percent_encode_byte c else [c]) s.

(** ** Input clean-up: strip leading and trailing C0 controls and spaces,
    then remove every tab and newline. *)

Definition trim (s : chars) : chars :=
  rev (drop_while is_c0_control_or_space
         (rev (drop_while is_c0_control_or_space s))).

Definition preprocess (s : chars) : chars :=
  filter (fun c => negb (is_tab_or_newline c)) (trim s).

(** ** Scheme *)

Definition is_scheme_char (c : ascii) : bool :=
  is_ascii_alpha c || is_ascii_digit c || char_in "+-." c.

Fixpoint scheme_tail (s : chars) : option (chars * chars) :=
  match s with
  | [] => None
  | c :: r =>
      if Ascii.eqb c ":" then Some ([], r)
      else if is_scheme_char c then
        match scheme_tail r with
        | Some (sch, rest) => Some (to_lower c :: sch, rest)
        | None => None
        end
      else None
  end.

(** [split_scheme s = Some (scheme, rest)] when [s] is [scheme ":" rest]. *)
Definition split_scheme (s : chars) : option (chars * chars) :=
  match s with
  | c :: r =>
      if is_ascii_alpha c then
        match scheme_tail r with
        | Some (sch, rest) => Some (to_lower c :: sch, rest)
        | None => None
        end
      else None
  | [] => None
  end.

(** ** Host *)

Definition forbidden_host_code_point (c : ascii) : bool :=
  (code c =? 0) || is_tab_or_newline c || char_in " #/:<>?@[\]^|" c.

Definition forbidden_domain_code_point (c : ascii) : bool :=
  forbidden_host_code_point c || (code c <=? 31) || char_in "%" c || (code c =? 127).

Definition domain_char (c : ascii) : bool :=
  (code c <? 128) && negb (forbidden_domain_code_point c).

(** The Standard's "ends in a number" checker. *)
Definition is_ipv4_number (label : chars) : bool :=
  match label with
  | [] => false
  | _ =>
      forallb is_ascii_digit label
      || match label with
         | z :: x :: r =>
             Ascii.eqb z "0" && Ascii.eqb (to_lower x) "x" && forallb is_ascii_hex_digit r
         | _ => false
         end
  end.

Definition ends_in_number (h : chars) : bool :=
  match rev (split_on (Ascii.eqb ".") h) with
  | [] :: l :: _ => is_ipv4_number l
  | [] :: [] => false
  | l :: _ => is_ipv4_number l
  | [] => false
  end.

Definition has_punycode_label (h : chars) : bool :=
  existsb (starts_with $"xn--") (split_on (Ascii.eqb ".") h).

(** Host parser on a non-empty authority host, for ASCII domains: the
    domain is lower-cased and must contain no forbidden domain code
    point.  Hosts with an [xn--] label or ending in a number are outside
    the model. *)
Definition parse_host (raw : chars) : option chars :=
  let h := lower raw in
  if forallb domain_char h && negb (ends_in_number h) && negb (has_punycode_label h)
  then Some h else None.

(** ** Port *)

Definition port_chars_of (n : N) : chars :=
  $(NilEmpty.string_of_uint (N.to_uint n)).

(** [parse_port dp s]: [s] is what follows the colon of the authority.
    [None] is failure (a character that is not a digit, or a port above
    65535); [Some None] is the null port. *)
Definition parse_port (dp : N) (s : chars) : option (option N) :=
  match s with
  | [] => Some None
  | _ =>
      match NilEmpty.uint_of_string (string_of_list_ascii s) with
      | Some d =>
          let n := N.of_uint d in
          if (65535 <? n)%N then None
          else if (n =? dp)%N then Some None else Some (Some n)
      | None => None
      end
  end.

(** ** Path, query and fragment *)

Definition is_slash (c : ascii) : bool := char_in "/\" c.
Definition is_authority_end (c : ascii) : bool := char_in "/\?#" c.
Definition is_path_end (c : ascii) : bool := char_in "?#" c.

Definition is_single_dot (seg : chars) : bool :=
  let l := lower seg in chars_eqb l $"." || chars_eqb l $"%2e".

Definition is_double_dot (seg : chars) : bool :=
  let l := lower seg in
  chars_eqb l $".." || chars_eqb l $".%2e" || chars_eqb l $"%2e." || chars_eqb l $"%2e%2e".

(** "Shorten a path": drop the last segment, if any. *)
Definition shorten (p : list chars) : list chars := removelast p.

(** The path state, one raw segment at a time; the last raw segment is
    the one ended by the end of input, [?] or [#]. *)
Fixpoint path_steps (p : list chars) (segs : list chars) : list chars :=
  match segs with
  | [] => p
  | [s] =>
      let b := percent_encode path_set s in
      if is_double_dot b then (shorten p ++ [[]])%list
      else if is_single_dot b then (p ++ [[]])%list
      else (p ++ [b])%list
  | s :: rest =>
      let b := percent_encode path_set s in
      path_steps (if is_double_dot b then shorten p
                  else if is_single_dot b then p
                  else (p ++ [b])%list) rest
  end.

(** The fragment state, entered after a [#]. *)
Definition parse_fragment (s : chars) : option chars :=
  match s with
  | [] => None
  | _ :: f => Some (percent_encode fragment_set f)
  end.

(** The query and fragment states; [s] is empty or starts with [?] or [#]. *)
Definition parse_query_fragment (s : chars) : option chars * option chars :=
  match s with
  | c :: r =>
      if Ascii.eqb c "?" then
        let (q, f) := break (Ascii.eqb "#") r in
        (Some (percent_encode special_query_set q), parse_fragment f)
      else (None, parse_fragment s)
  | [] => (None, None)
  end.

(** The path state and what follows it, started with path [p0]. *)
Definition parse_path_onwards (sch h : chars) (pt : option N)
    (p0 : list chars) (s : chars) : URL :=
  let (pathstr, qf) := break is_path_end s in
  let (q, f) := parse_query_fragment qf in
  mkURL sch h pt (path_steps p0 (split_on is_slash pathstr)) q f.

(** The path start state of a special URL: one leading slash is skipped. *)
Definition path_start (s : chars) : chars :=
  match s with
  | c :: r => if is_slash c then r else s
  | [] => []
  end.

(** The states from "special authority ignore slashes" to the end. *)
Definition parse_authority (sch : chars) (dp : N) (s : chars) : option URL :=
  let (auth, rest) := break is_authority_end (drop_while is_slash s) in
  if existsb (Ascii.eqb "@") auth then None
  else
    let (hostraw, portpart) := break (Ascii.eqb ":") auth in
    match hostraw with
    | [] => None
    | _ =>
        match parse_host hostraw with
        | None => None
        | Some h =>
            match parse_port dp (tl portpart) with
            | None => None
            | Some pt => Some (parse_path_onwards sch h pt [] (path_start rest))
            end
        end
    end.

(** The relative state and the relative slash state, against base [b]. *)
Definition parse_relative (b : URL) (dp : N) (s : chars) : option URL :=
  match s with
  | [] => Some (mkURL (scheme b) (host b) (port b) (path b) (query b) None)
  | c :: r =>
      if is_slash c then
        match r with
        | c2 :: r2 =>
            if is_slash c2 then parse_authority (scheme b) dp r2
            else Some (parse_path_onwards (scheme b) (host b) (port b) [] r)
        | [] => Some (parse_path_onwards (scheme b) (host b) (port b) [] [])
        end
      else if Ascii.eqb c "?" then
        let (q, f) := parse_query_fragment s in
        Some (mkURL (scheme b) (host b) (port b) (path b) q f)
      else if Ascii.eqb c "#" then
        Some (mkURL (scheme b) (host b) (port b) (path b) (query b) (parse_fragment s))
      else
        Some (parse_path_onwards (scheme b) (host b) (port b) (shorten (path b)) s)
  end.

(** The basic URL parser. *)
Definition parse (input : chars) (base : option URL) : option URL :=
  let s := preprocess input in
  match split_scheme s with
  | Some (sch, rest) =>
      match default_port sch with
      | Some dp =>
          match base with
          | Some b =>
              if chars_eqb (scheme b) sch && negb (starts_with $"//" rest)
              then parse_relative b dp rest
              else parse_authority sch dp rest
          | None => parse_authority sch dp rest
          end
      | None => None
      end
  | None =>
      match base with
      | Some b =>
          match default_port (scheme b) with
          | Some dp => parse_relative b dp s
          | None => None
          end
      | None => None
      end
  end.

(** ** Serializers *)

Definition port_chars (pt : option N) : chars :=
  match pt with
  | Some n => ":"%char :: port_chars_of n
  | None => []
  end.

Definition path_chars (p : list chars) : chars :=
  flat_map (fun seg => "/"%char :: seg) p.

Definition opt_chars (mark : ascii) (o : option chars) : chars :=
  match o with
  | Some s => mark :: s
  | None => []
  end.

Definition origin_chars (u : URL) : chars :=
  (scheme u ++ $"://" ++ host u ++ port_chars (port u))%list.

Definition href_chars (u : URL) : chars :=
  (origin_chars u ++ path_chars (path u)
     ++ opt_chars "?" (query u) ++ opt_chars "#" (fragment u))%list.

(** ** The constructor and the two getters the extension reads *)

(** [new URL(url, base)]; [None] is the [TypeError] of the constructor. *)
Definition new_URL (url : string) (base : option string) : option URL :=
  match base with
  | None => parse $url None
  | Some b =>
      match parse $b None with
      | None => None
      | Some pb => parse $url (Some pb)
      end
  end.

Definition origin (u : URL) : string := string_of_list_ascii (origin_chars u).
Definition href (u : URL) : string := string_of_list_ascii (href_chars u).

(** ** Well-formed URL records: what the parser produces *)

(** A printable ASCII character other than the space. *)
Definition url_char (c : ascii) : bool := (33 <=? code c) && (code c <=? 126).

(** [r] is empty or starts with a character satisfying [p]. *)
Definition starts_at (p : ascii -> bool) (r : chars) : Prop :=
  match r with
  | [] => True
  | c :: _ => p c = true
  end.

Definition clean_segment (seg : chars) : bool :=
  forallb (fun c => negb (path_set c) && negb (is_slash c)) seg
  && negb (is_single_dot seg) && negb (is_double_dot seg).

Definition host_ok (h : chars) : Prop := h <> [] /\ parse_host h = Some h.

Definition port_ok (dp : N) (pt : option N) : Prop :=
  match pt with
  | None => True
  | Some n => (n <= 65535)%N /\ n <> dp
  end.

Definition path_ok (p : list chars) : Prop :=
  p <> [] /\ Forall (fun seg => clean_segment seg = true) p.

Definition query_ok (q : option chars) : Prop :=
  match q with
  | None => True
  | Some s => forallb (fun c => negb (special_query_set c)) s = true
  end.

Definition fragment_ok (f : option chars) : Prop :=
  match f with
  | None => True
  | Some s => forallb (fun c => negb (fragment_set c)) s = true
  end.

Definition WF (u : URL) : Prop :=
  exists dp, default_port (scheme u) = Some dp
    /\ host_ok (host u) /\ port_ok dp (port u) /\ path_ok (path u)
    /\ query_ok (query u) /\ fragment_ok (fragment u).

End Url.


(* ================================================================== *)
(** * JavaScript values

    The values that cross the extension's boundaries (JSON bodies,
    native-application messages).  Numbers are integers here. *)
(* ================================================================== *)

#[warnings="-register-all"] Inductive JsValue : Type :=
| JUndefined
| JNull
| JBool (b : bool)
| JNum (n : Z)
| JStr (s : string)
| JArr (items : list JsValue)
| JObj (props : list (string * JsValue)).

(** Truthiness, as tested by [if (v)] and [!v]. *)
Definition truthy (v : JsValue) : bool :=
  match v with
  | JUndefined | JNull => false
  | JBool b => b
  | JNum n => negb (n =? 0)%Z
  | JStr s => negb (String.eqb s EmptyString)
  | JArr _ | JObj _ => true
  end.

Definition truthy_string (s : option string) : bool :=
  match s with
  | Some s => negb (String.eqb s EmptyString)
  | None => false
  end.

(** [a || b] on an optional string and a string. *)
Definition or_else (a : option string) (b : string) : string :=
  match a with
  | Some s => if String.eqb s EmptyString then b else s
  | None => b
  end.

Fixpoint lookup {A : Type} (k : string) (props : list (string * A)) : option A :=
  match props with
  | [] => None
  | (k', v) :: r => if String.eqb k k' then Some v else lookup k r
  end.

(** [{...props, [k]: v}]: an existing key keeps its place. *)
Fixpoint obj_set {A : Type} (k : string) (v : A) (props : list (string * A))
  : list (string * A) :=
  match props with
  | [] => [(k, v)]
  | (k', v') :: r =>
      if String.eqb k k' then (k, v) :: r else (k', v') :: obj_set k v r
  end.

Definition nat_to_string (n : nat) : string := NilZero.string_of_uint (Nat.to_uint n).
Definition Z_to_string (n : Z) : string := NilZero.string_of_int (Z.to_int n).

(** [String(v)], the conversion applied by [new Error(v)], [new URL(v)]
    and template strings. *)
Fixpoint js_String (v : JsValue) : string :=
  match v with
  | JUndefined => "undefined"
  | JNull => "null"
  | JBool true => "true"
  | JBool false => "false"
  | JNum n => Z_to_string n
  | JStr s => s
  | JArr items =>
      (fix join (l : list JsValue) : string :=
         match l with
         | [] => EmptyString
         | x :: r =>
             let sx := match x with
                       | JUndefined | JNull => EmptyString
                       | _ => js_String x
                       end in
             match r with
             | [] => sx
             | _ => (sx ++ "," ++ join r)%string
             end
         end) items
  | JObj _ => "[object Object]"
  end.

(** [String(s)] of a value that is a string or [undefined]. *)
Definition string_or_undefined (s : option string) : string :=
  match s with
  | Some s => s
  | None => "undefined"
  end.

(** ** HTTP responses, as relayed by the content script
    ([models/HttpResponse]) *)

Record HttpResponse := mkHttpResponse {
  ok         : bool;
  redirected : bool;
  status     : Z;
  statusText : string;
  type       : string;
  url        : string;
  body       : JsValue;
  headers    : list (string * string)
}.

(** ** Errors and completions *)

Inductive ErrorClass :=
| TypeError
| Error
| OriginMismatchError
| ProtocolInsecureError
| ServerRejectedError
| MissingParameterError
| UserTimeoutError
| ServerTimeoutError
| CertificateChangedError
| TlsConnectionBrokenError
| TlsConnectionInsecureError
| TlsConnectionWeakError
| OtherError (name : string).

(** A thrown error: its class, the message given to the constructor
    ([None] when the constructor was called without one, or when the
    runtime threw) and the [response] property that [fetch] may assign. *)
Record JsError := mkError {
  err_class    : ErrorClass;
  err_message  : option string;
  err_response : option HttpResponse
}.

Definition new_Error (c : ErrorClass) (message : option string) : JsError :=
  mkError c message None.

Inductive Completion (A : Type) : Type :=
| Return (a : A)
| Throw (e : JsError).
Arguments Return {A} a.
Arguments Throw {A} e.

(** Reading property [k] of [v].  Reading a property of [undefined] or
    [null] throws; other values answer [undefined] for a property they
    do not have.  (No property name read by the extension is an array
    index.) *)
Definition get (v : JsValue) (k : string) : Completion JsValue :=
  match v with
  | JUndefined | JNull => Throw (new_Error TypeError None)
  | JObj props =>
      Return (match lookup k props with Some x => x | None => JUndefined end)
  | JStr s =>
      Return (if String.eqb k "length" then JNum (Z.of_nat (String.length s))
              else JUndefined)
  | JArr items =>
      Return (if String.eqb k "length" then JNum (Z.of_nat (List.length items))
              else JUndefined)
  | JBool _ | JNum _ => Return JUndefined
  end.

(** [v?.length] *)
Definition optional_length (v : JsValue) : JsValue :=
  match v with
  | JUndefined | JNull => JUndefined
  | _ => match get v "length" with Return x => x | Throw _ => JUndefined end
  end.

Fixpoint map_completion {A B : Type} (f : A -> Completion B) (l : list A)
  : Completion (list B) :=
  match l with
  | [] => Return []
  | x :: r =>
      match f x with
      | Throw e => Throw e
      | Return y =>
          match map_completion f r with
          | Throw e => Throw e
          | Return ys => Return (y :: ys)
          end
      end
  end.

(** [v.map(f)]: only arrays have a [map] method. *)
Definition js_map (v : JsValue) (f : JsValue -> Completion JsValue)
  : Completion JsValue :=
  match v with
  | JArr items =>
      match map_completion f items with
      | Return l => Return (JArr l)
      | Throw e => Throw e
      end
  | _ => Throw (new_Error TypeError None)
  end.

Fixpoint indexed {A : Type} (i : nat) (l : list A) : list (string * A) :=
  match l with
  | [] => []
  | x :: r => (nat_to_string i, x) :: indexed (S i) r
  end.

(** The own enumerable properties copied by [{...v}]. *)
Definition spread (v : JsValue) : list (string * JsValue) :=
  match v with
  | JObj props => props
  | JArr items => indexed 0 items
  | JStr s => indexed 0 (map (fun c => JStr (String c EmptyString)) $s)
  | _ => []
  end.

(** [s.toLocaleLowerCase()] on the ASCII letters (the locales with a
    special lower case for an ASCII letter are left out). *)
Definition toLocaleLowerCase (s : string) : string :=
  string_of_list_ascii (lower $s).

(** [s.startsWith(p)] *)
Definition startsWith (s p : string) : bool := String.prefix p s.

(* ================================================================== *)
(** * [shared/utils/coerceOrigin.ts] *)
(* ================================================================== *)

Definition coerceOrigin (trustedOrigin url : string) : Completion string :=
  match Url.new_URL url (Some trustedOrigin) with
  | None => Throw (new_Error TypeError None)
  | Some urlWithTrustedBase =>
      if negb (String.eqb trustedOrigin (Url.origin urlWithTrustedBase)) then
        Throw (new_Error OriginMismatchError
                 (Some ("expected origin " ++ trustedOrigin ++ " for URL "
                        ++ Url.href urlWithTrustedBase ++ ", "
                        ++ "see https://github.com/web-eid/web-eid.js#cors for secure CORS setup instructions")%string))
      else Return (Url.href urlWithTrustedBase)
  end.

(* ================================================================== *)
(** * The browser and the native application, as seen by the extension *)
(* ================================================================== *)

(** [models/Browser/WebRequest] *)
Record Fingerprint := mkFingerprint { sha1 : string; sha256 : string }.
Record CertificateInfo := mkCertificateInfo { fingerprint : Fingerprint }.
Record SecurityInfo := mkSecurityInfo {
  state        : string;
  certificates : list CertificateInfo
}.
Record HttpHeader := mkHttpHeader {
  header_name  : string;
  header_value : option string
}.
Record OnHeadersReceivedDetails := mkDetails {
  requestId       : string;
  responseHeaders : option (list HttpHeader)
}.

(** The body of a request: [JSON.stringify(v)]. *)
Inductive Body := JSON_stringify (v : JsValue).

Record RequestInit := mkRequestInit {
  init_method      : option string;
  init_headers     : option (list (string * string));
  init_body        : option Body;
  init_mode        : option string;
  init_credentials : option string
}.

Record FetchMessage := mkFetchMessage {
  msg_action   : string;
  msg_fetchUrl : string;
  msg_init     : RequestInit
}.

Record NativeMessage := mkNativeMessage {
  command   : string;
  arguments : list (string * JsValue)
}.

(** What the extension does to the outside, in order. *)
Inductive Effect :=
| PermissionsContains (permissions : list string)
| AddListener (urls : list string)
| BlockingResponse (cancel : bool)
| TabsSendMessage (tabId : Z) (message : FetchMessage)
| RemoveListener
| NativeNew (channel : nat)
| NativeConnect (channel : nat)
| NativeSend (channel : nat) (message : NativeMessage)
| NativeClose (channel : nat).

(** The browser during one call of [WebServerService.fetch]:
    - the answer of [browser.permissions.contains];
    - the responses whose headers the browser hands to an
      [onHeadersReceived] listener registered for a URL, while the
      relayed fetch is pending;
    - the answer of [browser.webRequest.getSecurityInfo];
    - the answer of [browser.tabs.sendMessage]: the relayed response
      ([None] is [undefined]) or a rejection. *)
Record FetchEnv := mkFetchEnv {
  permissions_contains : Completion bool;
  onHeadersReceived    : string -> list OnHeadersReceivedDetails;
  getSecurityInfo      : string -> Completion SecurityInfo;
  tabs_sendMessage     : Z -> FetchMessage -> Completion (option HttpResponse)
}.

(** The surroundings of one flow: the browser at the n-th fetch, the
    native application behind the n-th channel, and whether the timer
    of the n-th [Promise.race] fires before the operation settles. *)
Record Env := mkEnv {
  fetch_env       : nat -> FetchEnv;
  native_connect  : nat -> Completion JsValue;
  native_response : nat -> NativeMessage -> Completion JsValue;
  timer_first     : nat -> bool
}.

(** [models/Browser/Runtime]: the sender of the page's message.
    Modelled from the spec: [shared/utils/sender] is not among the
    sources; the requester identity carries the URL of the page and the
    id of its tab, and [getSenderUrl] and [getSenderTabId] read them. *)
Record MessageSender := mkSender {
  getSenderUrl   : string;
  getSenderTabId : Z
}.

(* ================================================================== *)
(** * State and the monad of the embedding *)
(* ================================================================== *)

(** The fields of a [WebServerService] object. *)
Record WebServerService := mkService {
  fingerprints : list Fingerprint;
  senderTabId  : Z;
  senderOrigin : string;
  corsOrigin   : option string
}.

(** The state of a flow: the [WebServerService] object (if constructed),
    the current native channel (the variable [nativeAppService]), the
    effects so far and the counters that index the environment. *)
Record State := mkState {
  webServerService : option WebServerService;
  nativeAppService : option nat;
  trace    : list Effect;
  fetches  : nat;
  channels : nat;
  races    : nat
}.

Definition initial_state : State := mkState None None [] 0 0 0.

Definition set_webServerService (s : option WebServerService) (st : State) : State :=
  mkState s (nativeAppService st) (trace st) (fetches st) (channels st) (races st).
Definition set_nativeAppService (c : option nat) (st : State) : State :=
  mkState (webServerService st) c (trace st) (fetches st) (channels st) (races st).
Definition set_trace (t : list Effect) (st : State) : State :=
  mkState (webServerService st) (nativeAppService st) t (fetches st) (channels st) (races st).
Definition set_fetches (n : nat) (st : State) : State :=
  mkState (webServerService st) (nativeAppService st) (trace st) n (channels st) (races st).
Definition set_channels (n : nat) (st : State) : State :=
  mkState (webServerService st) (nativeAppService st) (trace st) (fetches st) n (races st).
Definition set_races (n : nat) (st : State) : State :=
  mkState (webServerService st) (nativeAppService st) (trace st) (fetches st) (channels st) n.

Definition M (A : Type) : Type := State -> Completion A * State.

Definition ret {A : Type} (a : A) : M A := fun st => (Return a, st).
Definition throw {A : Type} (e : JsError) : M A := fun st => (Throw e, st).
Definition lift {A : Type} (c : Completion A) : M A := fun st => (c, st).

Definition bind {A B : Type} (m : M A) (k : A -> M B) : M B :=
  fun st =>
    match m st with
    | (Return a, st') => k a st'
    | (Throw e, st') => (Throw e, st')
    end.

Notation "x <- m ;; k" := (bind m (fun x => k))
  (at level 61, m at next level, right associativity).
Notation "m ;;; k" := (bind m (fun _ => k))
  (at level 61, right associativity).

(** [try { m } catch (error) { h error }] *)
Definition try_catch {A : Type} (m : M A) (h : JsError -> M A) : M A :=
  fun st =>
    match m st with
    | (Return a, st') => (Return a, st')
    | (Throw e, st') => h e st'
    end.

(** [try { m } finally { f }] *)
Definition try_finally {A : Type} (m : M A) (f : M unit) : M A :=
  fun st =>
    let (r, st') := m st in
    match f st' with
    | (Return _, st'') => (r, st'')
    | (Throw e, st'') => (Throw e, st'')
    end.

Definition emit (e : Effect) : M unit :=
  fun st => (Return tt, set_trace (trace st ++ [e]) st).

Definition when (b : bool) (m : M unit) : M unit := if b then m else ret tt.

(** [this], inside a method of the [WebServerService] object. *)
Definition get_this : M WebServerService :=
  fun st =>
    match webServerService st with
    | Some this => (Return this, st)
    | None => (Throw (new_Error TypeError None), st)
    end.

Definition set_this (this : WebServerService) : M unit :=
  fun st => (Return tt, set_webServerService (Some this) st).

(* ================================================================== *)
(** * [background/services/WebServerService.ts] *)
(* ================================================================== *)

(** [models/Action] of the library: the actions named in the sources. *)
Inductive Action := AUTHENTICATE | SIGN | SIGN_SUCCESS | SIGN_FAILURE.

(** [constructor(sender)] *)
Definition new_WebServerService (sender : MessageSender) : Completion WebServerService :=
  match Url.new_URL (getSenderUrl sender) None with
  | None => Throw (new_Error TypeError None)
  | Some u => Return (mkService [] (getSenderTabId sender) (Url.origin u) None)
  end.

(** [hasCertificateChanged()] *)
Definition hasCertificateChanged (this : WebServerService) : bool :=
  negb (forallb
          (fun fingerprint =>
             match fingerprints this with
             | first :: _ => String.eqb (sha256 first) (sha256 fingerprint)
             | [] => true
             end)
          (fingerprints this)).

Definition originProps (action : Action) : option string :=
  match action with
  | AUTHENTICATE => Some "authUrlOrigin"
  | SIGN => Some "signUrlOrigin"
  | _ => None
  end.

(** The value of the first [Access-Control-Allow-Origin] header. *)
Definition accessControlAllowOrigin_of (details : OnHeadersReceivedDetails)
  : option string :=
  match responseHeaders details with
  | Some hs =>
      match find (fun header =>
                    String.eqb (toLocaleLowerCase (header_name header))
                               "access-control-allow-origin") hs with
      | Some header => header_value header
      | None => None
      end
  | None => None
  end.

(** [this.senderOrigin !== accessControlAllowOrigin] *)
Definition strict_neq (s : string) (o : option string) : bool :=
  match o with
  | Some s' => negb (String.eqb s s')
  | None => true
  end.

(** [onHeadersReceivedListener] of [fetch], called by the browser with
    the headers of a response.  It may assign [fetchError], whose value
    before the call is the argument and after the call the result.  The
    inspection of [securityInfo] is disabled in the source (it is inside
    a comment), so nothing is read from it.  Where the listener ends
    without a return value the browser is given no blocking response and
    goes on with the request; this is recorded as [BlockingResponse false]. *)
Definition onHeadersReceivedListener (B : FetchEnv) (fetchError : option JsError)
    (details : OnHeadersReceivedDetails) : M (option JsError) :=
  securityInfo <- lift (getSecurityInfo B (requestId details)) ;;
  this <- get_this ;;
  let accessControlAllowOrigin := accessControlAllowOrigin_of details in
  if truthy_string (corsOrigin this)
     && strict_neq (senderOrigin this) accessControlAllowOrigin
  then
    emit (BlockingResponse true) ;;;
    ret (Some (new_Error OriginMismatchError
                 (Some ("website origin " ++ senderOrigin this
                        ++ " does not match Access-Control-Allow-Origin: "
                        ++ string_or_undefined accessControlAllowOrigin)%string)))
  else
    emit (BlockingResponse false) ;;;
    ret fetchError.

(** The browser calling the listener for each response it saw; a
    rejected listener promise assigns nothing and does not reach
    [fetch]. *)
Fixpoint dispatch (B : FetchEnv) (events : list OnHeadersReceivedDetails)
    (fetchError : option JsError) : M (option JsError) :=
  match events with
  | [] => ret fetchError
  | details :: rest =>
      fetchError' <- try_catch (onHeadersReceivedListener B fetchError details)
                               (fun _ => ret fetchError) ;;
      dispatch B rest fetchError'
  end.

Definition empty_init : RequestInit := mkRequestInit None None None None None.

(** [{...init, mode, credentials}] *)
Definition with_mode (init : option RequestInit) (mode credentials : string)
  : RequestInit :=
  let i := match init with Some i => i | None => empty_init end in
  mkRequestInit (init_method i) (init_headers i) (init_body i)
                (Some mode) (Some credentials).

(** The message [fetch] sends to the content script of the page. *)
Definition fetch_message (this : WebServerService) (fetchUrl : string)
    (init : option RequestInit) : FetchMessage :=
  mkFetchMessage "fetch" fetchUrl
    (if truthy_string (corsOrigin this)
     then with_mode init "cors" "include"
     else with_mode init "same-origin" "same-origin").

(** The result of [fetch]: the relayed response and [certificateInfo]. *)
Record FetchResult := mkFetchResult {
  certificateInfo : option CertificateInfo;
  relayed         : HttpResponse
}.

(** [Object.assign(fetchError, { response })] *)
Definition assign_response (e : JsError) (response : HttpResponse) : JsError :=
  mkError (err_class e) (err_message e) (Some response).

(** [fetch(fetchUrl, init)], in browser [B]. *)
Definition fetch (B : FetchEnv) (fetchUrl : string) (init : option RequestInit)
  : M FetchResult :=
  this <- get_this ;;
  let fetchError : option JsError := None in
  fetchUrl <- lift (coerceOrigin (or_else (corsOrigin this) (senderOrigin this)) fetchUrl) ;;
  if negb (startsWith (toLocaleLowerCase fetchUrl) "https://") then
    throw (new_Error ProtocolInsecureError (Some ("HTTPS required for " ++ fetchUrl)%string))
  else
    hasWebRequestPermission <-
      try_catch
        (emit (PermissionsContains ["webRequest"; "webRequestBlocking"]) ;;;
         lift (permissions_contains B))
        (fun _ => ret false) ;;
    let certificateInfo : option CertificateInfo := None in
    when hasWebRequestPermission (emit (AddListener [fetchUrl])) ;;;
    try_finally
      (let message := fetch_message this fetchUrl init in
       emit (TabsSendMessage (senderTabId this) message) ;;;
       fetchError <- (if hasWebRequestPermission
                      then dispatch B (onHeadersReceived B fetchUrl) fetchError
                      else ret fetchError) ;;
       response <- lift (tabs_sendMessage B (senderTabId this) message) ;;
       when hasWebRequestPermission (emit RemoveListener) ;;;
       match response with
       | None => throw (new_Error TypeError None)
       | Some response =>
           let result := mkFetchResult certificateInfo response in
           let fetchError :=
             if negb (ok response) then
               Some (assign_response
                       (match fetchError with
                        | Some e => e
                        | None => new_Error ServerRejectedError None
                        end)
                       response)
             else fetchError in
           match fetchError with
           | Some e => throw e
           | None => ret result
           end
       end)
      (when hasWebRequestPermission (emit RemoveListener)).

(** [enableCors(action, corsConfigUrl)], in browser [B]. *)
Definition enableCors (B : FetchEnv) (action : Action) (corsConfigUrl : string)
  : M unit :=
  match originProps action with
  | None => throw (new_Error Error (Some "invalid action"))
  | Some prop =>
      this <- get_this ;;
      configUrl <- lift (coerceOrigin (senderOrigin this) corsConfigUrl) ;;
      response <- fetch B configUrl None ;;
      let corsConfig := body (relayed response) in
      corsOrigin <- lift (get corsConfig prop) ;;
      if negb (truthy (optional_length corsOrigin)) then
        throw (new_Error MissingParameterError
                 (Some (prop ++ " required in CORS configuration")%string))
      else
        match Url.new_URL (js_String corsOrigin) None with
        | None =>
            throw (new_Error Error
                     (Some ("invalid origin in CORS configuration "
                            ++ String dquote (js_String corsOrigin)
                            ++ String dquote EmptyString)%string))
        | Some u =>
            this <- get_this ;;
            set_this (mkService (fingerprints this) (senderTabId this)
                                (senderOrigin this) (Some (Url.origin u)))
        end
  end.

(** The error thrown by [coerceOrigin]. *)
Definition origin_mismatch (trustedOrigin href : string) : JsError :=
  new_Error OriginMismatchError
    (Some ("expected origin " ++ trustedOrigin ++ " for URL " ++ href ++ ", "
           ++ "see https://github.com/web-eid/web-eid.js#cors for secure CORS setup instructions")%string).

(** The completion of [fetch] once the relayed fetch has settled with
    [response], the hook having recorded [hookError]: lines 218 to 261. *)
Definition settle (hookError : option JsError) (response : option HttpResponse)
  : Completion FetchResult :=
  match response with
  | None => Throw (new_Error TypeError None)
  | Some response =>
      match (if negb (ok response)
             then Some (assign_response
                          (match hookError with
                           | Some e => e
                           | None => new_Error ServerRejectedError None
                           end) response)
             else hookError) with
      | Some e => Throw e
      | None => Return (mkFetchResult None response)
      end
  end.

(** ** What the listener leaves in [fetchError]

    The same assignments as [onHeadersReceivedListener] and [dispatch],
    as a function of the object and of the responses seen. *)

Definition listener_assigns (B : FetchEnv) (this : WebServerService)
    (fetchError : option JsError) (details : OnHeadersReceivedDetails)
  : option JsError :=
  match getSecurityInfo B (requestId details) with
  | Throw _ => fetchError
  | Return _ =>
      if truthy_string (corsOrigin this)
         && strict_neq (senderOrigin this) (accessControlAllowOrigin_of details)
      then Some (new_Error OriginMismatchError
                   (Some ("website origin " ++ senderOrigin this
                          ++ " does not match Access-Control-Allow-Origin: "
                          ++ string_or_undefined (accessControlAllowOrigin_of details))%string))
      else fetchError
  end.

(** Whether the listener is installed. *)
Definition has_permission (B : FetchEnv) : bool :=
  match permissions_contains B with
  | Return b => b
  | Throw _ => false
  end.

(** The error recorded by the response-inspection hook during a fetch
    of [fetchUrl], if any. *)
Definition hook_error (B : FetchEnv) (this : WebServerService) (fetchUrl : string)
  : option JsError :=
  if has_permission B
  then fold_left (listener_assigns B this) (onHeadersReceived B fetchUrl) None
  else None.

(** The browser [B], reporting the security info [g] wherever it
    reports one. *)
Definition with_securityInfo (B : FetchEnv) (g : string -> SecurityInfo) : FetchEnv :=
  mkFetchEnv (permissions_contains B) (onHeadersReceived B)
    (fun id => match getSecurityInfo B id with
               | Return _ => Return (g id)
               | Throw e => Throw e
               end)
    (tabs_sendMessage B).

(** A session of one [WebServerService] object: the method calls made
    on it, each in its browser. *)
Inductive Call :=
| CallFetch (B : FetchEnv) (fetchUrl : string) (init : option RequestInit)
| CallEnableCors (B : FetchEnv) (action : Action) (corsConfigUrl : string).

Definition run_call (c : Call) (st : State) : State :=
  match c with
  | CallFetch B fetchUrl init => snd (fetch B fetchUrl init st)
  | CallEnableCors B action corsConfigUrl => snd (enableCors B action corsConfigUrl st)
  end.

Definition run_session (calls : list Call) (st : State) : State :=
  fold_left (fun st c => run_call c st) calls st.

(* ================================================================== *)
(** * The native application channel and the timers

    Modelled from the spec: [NativeAppService] and
    [shared/utils/timing] are not among the sources.  A
    [NativeAppChannel] offers [connect() -> status],
    [send(request) -> response] and [close()]; [throwAfterTimeout]
    rejects with the given error once the timeout has elapsed. *)
(* ================================================================== *)

(** [nativeAppService = new NativeAppService()] *)
Definition new_NativeAppService : M unit :=
  fun st =>
    let id := channels st in
    (Return tt,
     set_nativeAppService (Some id)
       (set_channels (S id) (set_trace (trace st ++ [NativeNew id]) st))).

(** A method call on the object in [nativeAppService]. *)
Definition on_channel {A : Type} (f : nat -> M A) : M A :=
  fun st =>
    match nativeAppService st with
    | Some id => f id st
    | None => (Throw (new_Error TypeError None), st)
    end.

(** [nativeAppService.connect()] *)
Definition connect (E : Env) : M JsValue :=
  on_channel (fun id => emit (NativeConnect id) ;;; lift (native_connect E id)).

(** [nativeAppService.send(message)] *)
Definition send (E : Env) (message : NativeMessage) : M JsValue :=
  on_channel (fun id => emit (NativeSend id message) ;;; lift (native_response E id message)).

(** [nativeAppService?.close()] *)
Definition close : M unit :=
  fun st =>
    match nativeAppService st with
    | Some id => emit (NativeClose id) st
    | None => (Return tt, st)
    end.

(** [Promise.race([op, throwAfterTimeout(timeout, error)])].  The
    operation is started; the environment tells whether the timer fires
    before the operation settles.  The operation that loses the race is
    not cancelled.  Its effects are recorded here at once, before the
    timer's error is thrown; in the browser it stays pending while the
    flow goes on, so that of a flow in which a timer has fired first the
    trace tells what the flow itself does (its channels, its [close()],
    its returned value), not when the pending operation does its
    part. *)
Definition race {A : Type} (E : Env) (op : M A) (timeout : Z) (error : JsError) : M A :=
  fun st =>
    let n := races st in
    let (r, st') := op (set_races (S n) st) in
    if timer_first E n then (Throw error, st') else (r, st').

(** The n-th call of a [WebServerService] method that fetches. *)
Definition in_browser {A : Type} (E : Env) (method : FetchEnv -> M A) : M A :=
  fun st =>
    let n := fetches st in
    method (fetch_env E n) (set_fetches (S n) st).

(** The number of [close()] calls on channel [id] in a trace. *)
Fixpoint closes (id : nat) (t : list Effect) : nat :=
  match t with
  | [] => 0
  | NativeClose c :: r => (if c =? id then 1 else 0) + closes id r
  | _ :: r => closes id r
  end.

Definition is_close (e : Effect) : bool :=
  match e with
  | NativeClose _ => true
  | _ => false
  end.

(* ================================================================== *)
(** * [background/actions/sign.ts] *)
(* ================================================================== *)

Section Sign.

(** [serializeError] of the library ([utils/errorSerializer]). *)
Variable Serialized : Type.
Variable serializeError : JsError -> Serialized.

(** The object returned by [sign]: [{ action: SIGN_SUCCESS, response }]
    or [{ action: SIGN_FAILURE, error }]. *)
Inductive SignResult :=
| SignSuccess (response : HttpResponse)
| SignFailure (error : Serialized).

Definition action_of (r : SignResult) : Action :=
  match r with
  | SignSuccess _ => SIGN_SUCCESS
  | SignFailure _ => SIGN_FAILURE
  end.

(** The arguments of [sign]. *)
Record SignArgs := mkSignArgs {
  postPrepareSigningUrl  : string;
  postFinalizeSigningUrl : string;
  getCorsConfigUrl       : option string;
  sign_headers           : list (string * string);
  userInteractionTimeout : Z;
  serverRequestTimeout   : Z;
  sender                 : MessageSender;
  lang                   : option string
}.

(** [...(lang ? { lang } : {})] *)
Definition lang_props (lang : option string) : list (string * JsValue) :=
  match lang with
  | Some l => if truthy_string lang then [("lang", JStr l)] else []
  | None => []
  end.

(** [(new URL(url)).origin] *)
Definition origin_of (url : string) : Completion string :=
  match Url.new_URL url None with
  | Some u => Return (Url.origin u)
  | None => Throw (new_Error TypeError None)
  end.

Definition json_post (headers : list (string * string)) (v : JsValue) : RequestInit :=
  mkRequestInit (Some "POST")
    (Some (obj_set "Content-Type" "application/json" headers))
    (Some (JSON_stringify v)) None None.

(** What the flow holds before the finalize request. *)
Record Signed := mkSigned {
  prepareDocumentResult : FetchResult;
  signature             : JsValue
}.

(** Lines 50 to 149: from the construction of the services to the
    signature of the native application. *)
Definition sign_until_signature (E : Env) (a : SignArgs) : M Signed :=
  service <- lift (new_WebServerService (sender a)) ;;
  set_this service ;;;
  new_NativeAppService ;;;
  match getCorsConfigUrl a with
  | Some corsConfigUrl =>
      when (truthy_string (getCorsConfigUrl a))
           (in_browser E (fun B => enableCors B SIGN corsConfigUrl))
  | None => ret tt
  end ;;;
  nativeAppStatus <- connect E ;;
  origin <- lift (origin_of (postPrepareSigningUrl a)) ;;
  certificateResponse <-
    race E
      (send E (mkNativeMessage "get-signing-certificate"
                 (("origin", JStr origin) :: lang_props (lang a))))
      (userInteractionTimeout a) (new_Error UserTimeoutError None) ;;
  error <- lift (get certificateResponse "error") ;;
  if truthy error then throw (new_Error Error (Some (js_String error)))
  else
  certificate <- lift (get certificateResponse "certificate") ;;
  if negb (truthy certificate) then
    throw (new_Error Error (Some "Missing signing certificate"))
  else
  algos <- lift (get certificateResponse "supported-signature-algos") ;;
  supportedSignatureAlgorithms <-
    lift (js_map algos
            (fun algorithmSet =>
               match get algorithmSet "crypto-algo" with
               | Throw e => Throw e
               | Return crypto =>
                   match get algorithmSet "hash-algo" with
                   | Throw e => Throw e
                   | Return hash =>
                       match get algorithmSet "padding-algo" with
                       | Throw e => Throw e
                       | Return padding =>
                           Return (JObj [("crypto", crypto); ("hash", hash);
                                         ("padding", padding)])
                       end
                   end
               end)) ;;
  prepareDocumentResult <-
    race E
      (in_browser E (fun B =>
         fetch B (postPrepareSigningUrl a)
           (Some (json_post (sign_headers a)
                    (JObj [("certificate", certificate);
                           ("supportedSignatureAlgorithms",
                            supportedSignatureAlgorithms)])))))
      (serverRequestTimeout a)
      (new_Error ServerTimeoutError
         (Some ("server failed to respond in time - POST "
                ++ postPrepareSigningUrl a)%string)) ;;
  new_NativeAppService ;;;
  nativeAppStatus <- connect E ;;
  docHash <- lift (get (body (relayed prepareDocumentResult)) "hash") ;;
  hashAlgo <- lift (get (body (relayed prepareDocumentResult)) "algorithm") ;;
  origin <- lift (origin_of (getSenderUrl (sender a))) ;;
  signatureResponse <-
    race E
      (send E (mkNativeMessage "sign"
                 ([("doc-hash", docHash); ("hash-algo", hashAlgo);
                   ("origin", JStr origin); ("user-eid-cert", certificate)]
                  ++ lang_props (lang a))))
      (userInteractionTimeout a) (new_Error UserTimeoutError None) ;;
  error <- lift (get signatureResponse "error") ;;
  if truthy error then throw (new_Error Error (Some (js_String error)))
  else
  signature <- lift (get signatureResponse "signature") ;;
  if negb (truthy signature) then
    throw (new_Error Error (Some "Missing sign signature"))
  else
  ret (mkSigned prepareDocumentResult signature).

(** The options of the finalize request: a POST of
    [{ ...prepareDocumentResult.body, signature }]. *)
Definition finalize_init (a : SignArgs) (s : Signed) : RequestInit :=
  json_post (sign_headers a)
    (JObj (obj_set "signature" (signature s)
             (spread (body (relayed (prepareDocumentResult s)))))).

(** Lines 151 to 170: the finalize request. *)
Definition finalize (E : Env) (a : SignArgs) (s : Signed) : M FetchResult :=
  race E
    (in_browser E (fun B =>
       fetch B (postFinalizeSigningUrl a) (Some (finalize_init a s))))
    (serverRequestTimeout a)
    (new_Error ServerTimeoutError
       (Some ("server failed to respond in time - POST "
              ++ postFinalizeSigningUrl a)%string)).

(** The [try] block. *)
Definition sign_try (E : Env) (a : SignArgs) : M SignResult :=
  signed <- sign_until_signature E a ;;
  signatureVerifyResponse <- finalize E a signed ;;
  ret (SignSuccess (relayed signatureVerifyResponse)).

(** [sign(...)] *)
Definition sign (E : Env) (a : SignArgs) : M SignResult :=
  try_finally
    (try_catch (sign_try E a)
               (fun error => ret (SignFailure (serializeError error))))
    close.

End Sign.

Arguments SignSuccess {Serialized} response.
Arguments SignFailure {Serialized} error.
Arguments sign {Serialized} serializeError E a.

(* ================================================================== *)
(** * [shared/utils/headersToObject.ts] *)
(* ================================================================== *)

(** [acc[name] = value] on an object created by [{}]: the own property
    [name] is added or replaced.  The name [__proto__] is the exception:
    the assignment reaches the accessor inherited from
    [Object.prototype], whose setter ignores a value that is neither an
    object nor [null], so a string or [undefined] leaves the object as
    it is. *)
Definition assign (name : string) (value : option string)
    (acc : list (string * option string)) : list (string * option string) :=
  if String.eqb name "__proto__" then acc else obj_set name value acc.

(** [reducer(acc, curr)]: [curr] is one element of
    [[...headers.entries()]], an array of strings; [curr[0]] and
    [curr[1]] are [undefined] where the array is too short. *)
Definition reducer (acc : list (string * option string)) (curr : list string)
  : list (string * option string) :=
  match nth_error curr 0 with
  | Some name => assign name (nth_error curr 1) acc
  | None => acc
  end.

(** [headersToObject(headers)], on the entries that [headers.entries()]
    yields.  The result is the list of the own properties of
    [headersMap]; the order of the list is the order of creation, which
    is the order of enumeration for names that are not array indices. *)
Definition headersToObject (headers : list (list string))
  : list (string * option string) :=
  fold_left reducer headers [].

(* ================================================================== *)
(** * [coerceOrigin] on any URL class

    The [URL] class as a parameter: a type of URLs, the constructor
    [new URL(url, base)] ([None] where it throws its [TypeError]) and the
    getters [origin] and [href], about which nothing is assumed.
    [coerceOrigin] above is this function at the model [Url]. *)
(* ================================================================== *)

Module AnyUrl.
Section Class.

Variable URL : Type.
Variable new_URL : string -> option string -> option URL.
Variable origin href : URL -> string.

Definition coerceOrigin (trustedOrigin url : string) : Completion string :=
  match new_URL url (Some trustedOrigin) with
  | None => Throw (new_Error TypeError None)
  | Some urlWithTrustedBase =>
      if negb (String.eqb trustedOrigin (origin urlWithTrustedBase)) then
        Throw (new_Error OriginMismatchError
                 (Some ("expected origin " ++ trustedOrigin ++ " for URL "
                        ++ href urlWithTrustedBase ++ ", "
                        ++ "see https://github.com/web-eid/web-eid.js#cors for secure CORS setup instructions")%string))
      else Return (href urlWithTrustedBase)
  end.

(** The property of the class that the URL Standard aims at with its
    serializer: the serialization of a URL parses to that URL again.  As
    far as [coerceOrigin] can tell: for a URL [u] of origin [base] that
    the constructor gave against [base], [new URL(u.href, base)] is a
    URL of the same origin and the same href. *)
Definition reparses : Prop :=
  forall base url u,
    new_URL url (Some base) = Some u -> origin u = base ->
    exists u', new_URL (href u) (Some base) = Some u'
               /\ origin u' = base /\ href u' = href u.

End Class.
End AnyUrl.

Arguments AnyUrl.coerceOrigin {URL} new_URL origin href trustedOrigin url.
Arguments AnyUrl.reparses {URL} new_URL origin href.

(* ================================================================== *)
(** * Predicates on computations and states, for the proofs *)
(* ================================================================== *)

(** [m] keeps the state property [P]. *)
Definition preserves {A : Type} (P : State -> Prop) (m : M A) : Prop :=
  forall st, P st -> P (snd (m st)).

(** [m] and [m'] run alike from every state. *)
Definition same {A : Type} (m m' : M A) : Prop := forall st, m st = m' st.

(** The [WebServerService] object is [w]. *)
Definition service_is (w : option WebServerService) (st : State) : Prop :=
  webServerService st = w.

(** [fetchError] is null or an [OriginMismatchError]; it is an
    [OriginMismatchError]. *)
Definition none_or_mismatch (fetchError : option JsError) : Prop :=
  match fetchError with
  | Some e => err_class e = OriginMismatchError
  | None => True
  end.

Definition is_mismatch (fetchError : option JsError) : Prop :=
  match fetchError with
  | Some e => err_class e = OriginMismatchError
  | None => False
  end.

(** No [close()] so far, and the variable [nativeAppService] holds the
    channel created last. *)
Definition channel_inv (st : State) : Prop :=
  forallb (fun e => negb (is_close e)) (trace st) = true
  /\ match nativeAppService st with
     | Some id => channels st = S id
     | None => channels st = 0
     end.


(* ================================================================== *)
(** * The listener registry, the messages and the channels, for the proofs *)
(* ================================================================== *)

(** Whether a listener added to [webRequest.onHeadersReceived] is
    installed, after one more effect and after the effects [t]. *)
Definition hook_step (installed : bool) (e : Effect) : bool :=
  match e with
  | AddListener _ => true
  | RemoveListener => false
  | _ => installed
  end.

Definition hook_after (installed : bool) (t : list Effect) : bool :=
  fold_left hook_step t installed.

Definition hook_installed (t : list Effect) : bool := hook_after false t.

(** The effect is a message to the content script. *)
Definition is_message (e : Effect) : bool :=
  match e with
  | TabsSendMessage _ _ => true
  | _ => false
  end.

(** The answers of the listener to the browser, for one response. *)
Definition listener_answers (B : FetchEnv) (this : WebServerService)
    (details : OnHeadersReceivedDetails) : list Effect :=
  match getSecurityInfo B (requestId details) with
  | Throw _ => []
  | Return _ =>
      [BlockingResponse
         (truthy_string (corsOrigin this)
          && strict_neq (senderOrigin this) (accessControlAllowOrigin_of details))]
  end.

(** No listener is installed. *)
Definition hook_free (st : State) : Prop := hook_installed (trace st) = false.

(** The variable [nativeAppService] holds [c], and [n] channels have
    been created. *)
Definition native_is (c : option nat) (n : nat) (st : State) : Prop :=
  nativeAppService st = c /\ channels st = n.

(* ================================================================== *)
(** * Concrete pages, browsers and native applications *)
(* ================================================================== *)

Module Sample.

Definition page : MessageSender := mkSender "https://page.example/app" 7.

(** The object [new WebServerService(page)] and the state holding it. *)
Definition service : WebServerService := mkService [] 7 "https://page.example" None.

(** The same object after CORS has been enabled for [https://cors.example]. *)
Definition cors_service : WebServerService :=
  mkService [] 7 "https://page.example" (Some "https://cors.example").

(** An object whose page was loaded over plain HTTP. *)
Definition http_service : WebServerService := mkService [] 7 "http://page.example" None.

Definition state_of (this : WebServerService) : State :=
  set_webServerService (Some this) initial_state.

Definition response (ok : bool) (status : Z) (statusText url : string) (body : JsValue)
  : HttpResponse :=
  mkHttpResponse ok false status statusText "basic" url body
    [("content-type", "application/json")].

Definition document : HttpResponse :=
  response true 200 "OK" "https://cors.example/document"
    (JObj [("title", JStr "contract")]).

Definition page_document : HttpResponse :=
  response true 200 "OK" "https://page.example/document"
    (JObj [("title", JStr "contract")]).

(** The CORS configuration document of the page's server. *)
Definition cors_config : HttpResponse :=
  response true 200 "OK" "https://page.example/cors.json"
    (JObj [("authUrlOrigin", JStr "https://cors.example");
           ("signUrlOrigin", JStr "https://cors.example/sign")]).

Definition certificate_a : CertificateInfo := mkCertificateInfo (mkFingerprint "1a" "aa").
Definition certificate_b : CertificateInfo := mkCertificateInfo (mkFingerprint "1b" "bb").

Definition no_securityInfo : string -> Completion SecurityInfo :=
  fun _ => Throw (new_Error (OtherError "Error") None).

(** A browser without the webRequest permission that relays [r]. *)
Definition plain_browser (r : HttpResponse) : FetchEnv :=
  mkFetchEnv (Return false) (fun _ => []) no_securityInfo
    (fun _ _ => Return (Some r)).

(** A browser with the webRequest permission: the hook is handed one
    response with headers [hs] on a secure connection with certificate
    [c], and the content script relays [r]. *)
Definition inspecting_browser (hs : list HttpHeader) (c : CertificateInfo)
    (r : HttpResponse) : FetchEnv :=
  mkFetchEnv (Return true)
    (fun _ => [mkDetails "1" (Some hs)])
    (fun _ => Return (mkSecurityInfo "secure" [c]))
    (fun _ _ => Return (Some r)).

Definition foreign_allow_origin : list HttpHeader :=
  [mkHttpHeader "Content-Type" (Some "application/json");
   mkHttpHeader "Access-Control-Allow-Origin" (Some "https://other.example")].

(** ** A signing flow *)

Definition args : SignArgs :=
  mkSignArgs "https://page.example/sign/prepare" "https://page.example/sign/finalize"
    None [("X-CSRF-Token", "t0k3n")] 120000 20000 page None.

Definition prepared : HttpResponse :=
  response true 200 "OK" "https://page.example/sign/prepare"
    (JObj [("hash", JStr "aGFzaA=="); ("algorithm", JStr "SHA-384")]).

Definition finalized : HttpResponse :=
  response true 200 "OK" "https://page.example/sign/finalize"
    (JObj [("result", JStr "signed")]).

Definition rejected : HttpResponse :=
  response false 400 "Bad Request" "https://page.example/sign/finalize"
    (JObj [("message", JStr "invalid signature")]).

Definition native_app (id : nat) (m : NativeMessage) : Completion JsValue :=
  if String.eqb (command m) "get-signing-certificate" then
    Return (JObj [("certificate", JStr "MIIEBDCCA2ag");
                  ("supported-signature-algos",
                   JArr [JObj [("crypto-algo", JStr "ECC");
                               ("hash-algo", JStr "SHA-384");
                               ("padding-algo", JStr "NONE")]])])
  else Return (JObj [("signature", JStr "c2lnbmF0dXJl")]).

(** The server accepts the prepare request and answers the finalize
    request with [last]; the timer numbered [late] fires first, if any. *)
Definition flow (last : HttpResponse) (late : option nat) : Env :=
  mkEnv (fun n => match n with
                  | 0 => plain_browser prepared
                  | _ => plain_browser last
                  end)
        (fun _ => Return (JObj [("version", JStr "2.0.0")]))
        native_app
        (fun n => match late with
                  | Some k => n =? k
                  | None => false
                  end).

(** A stand-in for [serializeError]: the error itself. *)
Definition serialize (e : JsError) : JsError := e.

End Sample.

(* ================================================================== *)
(** * Facts about the [URL] model *)
(* ================================================================== *)

Module UrlFacts.
Import Url.

Lemma chars_eqb_eq a b : chars_eqb a b = true <-> a = b.
Proof. unfold chars_eqb. destruct (list_eq_dec ascii_dec a b); split; congruence. Qed.

(** Facts about single characters are settled by running through the
    256 bytes. *)
Ltac by_bytes c :=
  destruct c as [[] [] [] [] [] [] [] []]; vm_compute;
  repeat split; intros; congruence.

Lemma url_char_kept c :
  url_char c = true ->
  is_c0_control_or_space c = false /\ is_tab_or_newline c = false.
Proof. by_bytes c. Qed.

Lemma domain_char_facts c :
  domain_char c = true ->
  url_char c = true /\ is_authority_end c = false /\ is_slash c = false
  /\ Ascii.eqb ":" c = false /\ Ascii.eqb "@" c = false.
Proof. by_bytes c. Qed.

Lemma digit_facts c :
  is_ascii_digit c = true ->
  url_char c = true /\ is_authority_end c = false
  /\ Ascii.eqb ":" c = false /\ Ascii.eqb "@" c = false.
Proof. by_bytes c. Qed.

Lemma path_set_facts c :
  path_set c = false -> url_char c = true /\ is_path_end c = false.
Proof. by_bytes c. Qed.

Lemma query_set_facts c :
  special_query_set c = false -> url_char c = true /\ Ascii.eqb "#" c = false.
Proof. by_bytes c. Qed.

Lemma fragment_set_facts c :
  fragment_set c = false -> url_char c = true.
Proof. by_bytes c. Qed.

Lemma to_lower_idem c : to_lower (to_lower c) = to_lower c.
Proof. by_bytes c. Qed.

Lemma encoded_byte_path c :
  forallb (fun x => negb (path_set x) && negb (is_slash x)) (percent_encode_byte c) = true.
Proof. by_bytes c. Qed.

Lemma encoded_byte_query c :
  forallb (fun x => negb (special_query_set x)) (percent_encode_byte c) = true.
Proof. by_bytes c. Qed.

Lemma encoded_byte_fragment c :
  forallb (fun x => negb (fragment_set x)) (percent_encode_byte c) = true.
Proof. by_bytes c. Qed.


(** ** Lists of characters *)

Lemma forallb_rev (p : ascii -> bool) s : forallb p s = true -> forallb p (rev s) = true.
Proof.
  rewrite !forallb_forall. intros H c Hc. apply H. now apply in_rev.
Qed.

Lemma drop_while_none p s :
  forallb (fun c => negb (p c)) s = true -> drop_while p s = s.
Proof.
  destruct s as [| c r]; simpl; [reflexivity |].
  intros H. apply andb_true_iff in H. destruct H as [H _].
  apply negb_true_iff in H. now rewrite H.
Qed.

Lemma drop_while_head p c r : p c = false -> drop_while p (c :: r) = c :: r.
Proof. simpl. now intros ->. Qed.

Lemma filter_all (p : ascii -> bool) s : forallb p s = true -> filter p s = s.
Proof.
  induction s as [| c r IH]; simpl; [reflexivity |].
  intros H. apply andb_true_iff in H. destruct H as [Hc Hr].
  rewrite Hc. f_equal. auto.
Qed.

Lemma break_app p a r :
  forallb (fun c => negb (p c)) a = true -> starts_at p r ->
  break p (a ++ r) = (a, r).
Proof.
  induction a as [| c a IH]; simpl; intros Ha Hr.
  - destruct r as [| c r]; simpl in *; [reflexivity | now rewrite Hr].
  - apply andb_true_iff in Ha. destruct Ha as [Hc Ha].
    apply negb_true_iff in Hc. rewrite Hc, IH; auto.
Qed.

Lemma split_on_nonempty p s : split_on p s <> [].
Proof.
  destruct s as [| c r]; simpl; [discriminate |].
  destruct (p c); [discriminate |]. destruct (split_on p r); discriminate.
Qed.

Lemma split_on_nosep p s :
  Forall (fun seg => forallb (fun c => negb (p c)) seg = true) (split_on p s).
Proof.
  induction s as [| c r IH]; simpl.
  - repeat constructor.
  - destruct (p c) eqn:E.
    + constructor; [reflexivity | assumption].
    + destruct (split_on p r) as [| seg segs].
      * repeat constructor. simpl. now rewrite E.
      * inversion IH; subst. constructor; [| assumption].
        simpl. now rewrite E.
Qed.

Lemma split_on_app p a r :
  forallb (fun c => negb (p c)) a = true ->
  split_on p (a ++ r) =
  match split_on p r with
  | seg :: segs => (a ++ seg) :: segs
  | [] => [a]
  end.
Proof.
  induction a as [| c a IH]; simpl; intros Ha.
  - destruct (split_on p r) eqn:E; [now apply split_on_nonempty in E | reflexivity].
  - apply andb_true_iff in Ha. destruct Ha as [Hc Ha].
    apply negb_true_iff in Hc. rewrite Hc, IH by assumption.
    destruct (split_on p r); reflexivity.
Qed.

Lemma split_on_join p sep segs :
  p sep = true ->
  Forall (fun seg => forallb (fun c => negb (p c)) seg = true) segs ->
  forall a, forallb (fun c => negb (p c)) a = true ->
  split_on p (a ++ flat_map (fun seg => sep :: seg) segs) = a :: segs.
Proof.
  intros Hsep. induction 1 as [| s ss Hs Hss IH]; intros a Ha.
  - simpl. rewrite split_on_app by assumption. simpl. now rewrite app_nil_r.
  - rewrite split_on_app by assumption.
    cbn [flat_map]. cbn [app split_on]. rewrite Hsep.
    rewrite IH by assumption. now rewrite app_nil_r.
Qed.

(** ** Percent-encoding *)

Lemma percent_encode_forall (set Q : ascii -> bool) s :
  (forall c, forallb Q (percent_encode_byte c) = true) ->
  (forall c, In c s -> set c = false -> Q c = true) ->
  forallb Q (percent_encode set s) = true.
Proof.
  intros Hbyte. unfold percent_encode.
  induction s as [| c r IH]; intros Hs; [reflexivity |].
  cbn [flat_map]. rewrite forallb_app. apply andb_true_iff. split.
  - destruct (set c) eqn:E; [apply Hbyte |].
    simpl. rewrite (Hs c) by (simpl; auto). reflexivity.
  - apply IH. intros x Hx. apply Hs. now right.
Qed.

Lemma percent_encode_id (set : ascii -> bool) s :
  forallb (fun c => negb (set c)) s = true -> percent_encode set s = s.
Proof.
  unfold percent_encode. induction s as [| c r IH]; simpl; [reflexivity |].
  intros H. apply andb_true_iff in H. destruct H as [Hc Hr].
  apply negb_true_iff in Hc. rewrite Hc. simpl. f_equal. auto.
Qed.

(** ** The parser produces well-formed URL records *)

Lemma lower_idem s : lower (lower s) = lower s.
Proof.
  unfold lower. rewrite map_map. apply map_ext. apply to_lower_idem.
Qed.

Lemma parse_host_ok raw h :
  raw <> [] -> parse_host raw = Some h -> host_ok h.
Proof.
  unfold parse_host. intros Hne.
  destruct (forallb domain_char (lower raw) && negb (ends_in_number (lower raw))
            && negb (has_punycode_label (lower raw))) eqn:E; [| discriminate].
  intros [= <-]. split.
  - destruct raw; [congruence | discriminate].
  - unfold parse_host. now rewrite lower_idem, E.
Qed.

Lemma host_ok_chars h : host_ok h -> forallb domain_char h = true.
Proof.
  intros [_ H]. unfold parse_host in H.
  destruct (forallb domain_char (lower h)) eqn:E; [| discriminate].
  simpl in H.
  destruct (negb (ends_in_number (lower h)) && negb (has_punycode_label (lower h)));
    [| discriminate].
  injection H as H. now rewrite H in E.
Qed.

Lemma parse_port_ok dp s pt : parse_port dp s = Some pt -> port_ok dp pt.
Proof.
  unfold parse_port. destruct s as [| c r]; [now intros [= <-] |].
  destruct (NilEmpty.uint_of_string _) as [d |]; [| discriminate].
  destruct (65535 <? N.of_uint d)%N eqn:E1; [discriminate |].
  destruct (N.of_uint d =? dp)%N eqn:E2; intros [= <-]; simpl; [exact I |].
  apply N.ltb_ge in E1. apply N.eqb_neq in E2. now split.
Qed.

Lemma Forall_removelast (A : Type) (P : A -> Prop) l :
  Forall P l -> Forall P (removelast l).
Proof.
  induction 1 as [| x l Hx Hl IH]; simpl; [constructor |].
  destruct l; [constructor | now constructor].
Qed.

Lemma clean_encoded s :
  forallb (fun c => negb (is_slash c)) s = true ->
  is_double_dot (percent_encode path_set s) = false ->
  is_single_dot (percent_encode path_set s) = false ->
  clean_segment (percent_encode path_set s) = true.
Proof.
  intros Hs Hd2 Hd1. unfold clean_segment. rewrite Hd1, Hd2.
  rewrite percent_encode_forall with (set := path_set); [reflexivity | |].
  - apply encoded_byte_path.
  - intros c Hc Hset. rewrite forallb_forall in Hs.
    rewrite Hset, (Hs c Hc). reflexivity.
Qed.

Lemma path_steps_ok segs :
  segs <> [] ->
  Forall (fun seg => forallb (fun c => negb (is_slash c)) seg = true) segs ->
  forall p, Forall (fun seg => clean_segment seg = true) p ->
  path_ok (path_steps p segs).
Proof.
  induction segs as [| s segs IH]; [congruence |].
  intros _ Hsegs p Hp. inversion Hsegs as [| ? ? Hs Hrest]; subst.
  destruct segs as [| s2 rest].
  - cbn [path_steps].
    destruct (is_double_dot (percent_encode path_set s)) eqn:D2;
      [| destruct (is_single_dot (percent_encode path_set s)) eqn:D1].
    + split; [now destruct (shorten p) |].
      apply Forall_app. split; [now apply Forall_removelast | now repeat constructor].
    + split; [now destruct p |].
      apply Forall_app. split; [assumption | now repeat constructor].
    + split; [now destruct p |].
      apply Forall_app. split; [assumption |].
      repeat constructor. now apply clean_encoded.
  - change (path_steps p (s :: s2 :: rest))
      with (path_steps
              (if is_double_dot (percent_encode path_set s) then shorten p
               else if is_single_dot (percent_encode path_set s) then p
               else (p ++ [percent_encode path_set s])%list) (s2 :: rest)).
    apply IH; [discriminate | assumption |].
    destruct (is_double_dot (percent_encode path_set s)) eqn:D2;
      [| destruct (is_single_dot (percent_encode path_set s)) eqn:D1].
    + now apply Forall_removelast.
    + assumption.
    + apply Forall_app. split; [assumption |].
      repeat constructor. now apply clean_encoded.
Qed.

Lemma clean_segment_facts seg :
  clean_segment seg = true ->
  forallb (fun c => negb (path_set c)) seg = true
  /\ forallb (fun c => negb (is_slash c)) seg = true
  /\ is_single_dot seg = false /\ is_double_dot seg = false.
Proof.
  unfold clean_segment. intros H.
  apply andb_true_iff in H. destruct H as [H D2].
  apply andb_true_iff in H. destruct H as [H D1].
  apply negb_true_iff in D1, D2. repeat split; try assumption.
  - rewrite forallb_forall in *. intros c Hc. specialize (H c Hc).
    apply andb_true_iff in H. tauto.
  - rewrite forallb_forall in *. intros c Hc. specialize (H c Hc).
    apply andb_true_iff in H. tauto.
Qed.

Lemma path_steps_clean segs :
  segs <> [] ->
  Forall (fun seg => clean_segment seg = true) segs ->
  forall p, path_steps p segs = (p ++ segs)%list.
Proof.
  induction segs as [| s segs IH]; [congruence |].
  intros _ Hsegs p. inversion Hsegs as [| ? ? Hs Hrest]; subst.
  destruct (clean_segment_facts _ Hs) as (Henc & _ & D1 & D2).
  destruct segs as [| s2 rest].
  - cbn [path_steps]. rewrite (percent_encode_id _ _ Henc), D1, D2. reflexivity.
  - change (path_steps p (s :: s2 :: rest))
      with (path_steps
              (if is_double_dot (percent_encode path_set s) then shorten p
               else if is_single_dot (percent_encode path_set s) then p
               else (p ++ [percent_encode path_set s])%list) (s2 :: rest)).
    rewrite (percent_encode_id _ _ Henc), D1, D2.
    rewrite IH by (discriminate || assumption).
    now rewrite <- app_assoc.
Qed.

Lemma parse_fragment_ok s : fragment_ok (parse_fragment s).
Proof.
  destruct s as [| c f]; simpl; [exact I |].
  apply percent_encode_forall with (set := fragment_set).
  - apply encoded_byte_fragment.
  - intros x _ Hx. now rewrite Hx.
Qed.

Lemma parse_query_fragment_ok s :
  query_ok (fst (parse_query_fragment s)) /\ fragment_ok (snd (parse_query_fragment s)).
Proof.
  destruct s as [| c r]; simpl; [split; exact I |].
  destruct (Ascii.eqb c "?").
  - destruct (break (Ascii.eqb "#") r) as [q f]. simpl. split.
    + apply percent_encode_forall with (set := special_query_set).
      * apply encoded_byte_query.
      * intros x _ Hx. now rewrite Hx.
    + apply parse_fragment_ok.
  - simpl. split; [exact I | apply (parse_fragment_ok (c :: r))].
Qed.

Lemma parse_path_onwards_wf sch dp h pt p0 s :
  default_port sch = Some dp -> host_ok h -> port_ok dp pt ->
  Forall (fun seg => clean_segment seg = true) p0 ->
  WF (parse_path_onwards sch h pt p0 s).
Proof.
  intros Hdp Hh Hpt Hp0. unfold parse_path_onwards.
  destruct (break is_path_end s) as [pathstr qf].
  pose proof (parse_query_fragment_ok qf) as [Hq Hf].
  destruct (parse_query_fragment qf) as [q f]. simpl in Hq, Hf.
  exists dp. cbn. repeat split; try assumption; try apply Hh.
  all: apply path_steps_ok;
    [apply split_on_nonempty | apply split_on_nosep | assumption].
Qed.

Lemma parse_authority_wf sch dp s u :
  default_port sch = Some dp -> parse_authority sch dp s = Some u -> WF u.
Proof.
  intros Hdp. unfold parse_authority.
  destruct (break is_authority_end (drop_while is_slash s)) as [auth rest].
  destruct (existsb (Ascii.eqb "@") auth); [discriminate |].
  destruct (break (Ascii.eqb ":") auth) as [hostraw portpart].
  destruct hostraw as [| c hr]; [discriminate |].
  destruct (parse_host (c :: hr)) as [h |] eqn:Hh; [| discriminate].
  destruct (parse_port dp (tl portpart)) as [pt |] eqn:Hpt; [| discriminate].
  intros [= <-]. apply parse_path_onwards_wf with (dp := dp); auto.
  - apply parse_host_ok with (raw := c :: hr); [discriminate | assumption].
  - eapply parse_port_ok; eassumption.
Qed.

Lemma parse_relative_wf b dp s u :
  WF b -> default_port (scheme b) = Some dp ->
  parse_relative b dp s = Some u -> WF u.
Proof.
  intros (dp' & Hdp' & Hh & Hpt & Hp & Hq & Hf) Hdp.
  assert (dp' = dp) by congruence. subst dp'.
  unfold parse_relative. destruct s as [| c r].
  - intros [= <-]. exists dp. cbn. repeat split; try assumption; apply Hh || apply Hp.
  - destruct (is_slash c).
    + destruct r as [| c2 r2].
      * intros [= <-]. apply parse_path_onwards_wf with (dp := dp); auto.
      * destruct (is_slash c2).
        -- now apply parse_authority_wf.
        -- intros [= <-]. apply parse_path_onwards_wf with (dp := dp); auto.
    + destruct (Ascii.eqb c "?").
      * pose proof (parse_query_fragment_ok (c :: r)) as [Hq' Hf'].
        destruct (parse_query_fragment (c :: r)) as [q f]. intros [= <-].
        exists dp. cbn. repeat split; try assumption; apply Hh || apply Hp.
      * destruct (Ascii.eqb c "#").
        -- intros [= <-]. exists dp. cbn.
           repeat split; try assumption; try (apply Hh || apply Hp).
           apply (parse_fragment_ok (c :: r)).
        -- intros [= <-]. apply parse_path_onwards_wf with (dp := dp); auto.
           apply Forall_removelast, Hp.
Qed.

Lemma parse_wf input base u :
  match base with Some b => WF b | None => True end ->
  parse input base = Some u -> WF u.
Proof.
  intros Hb. unfold parse.
  destruct (split_scheme (preprocess input)) as [[sch rest] |].
  - destruct (default_port sch) as [dp |] eqn:Hdp; [| discriminate].
    destruct base as [b |]; [| now apply parse_authority_wf].
    destruct (chars_eqb (scheme b) sch && negb (starts_with $"//" rest)) eqn:E.
    + apply andb_true_iff in E. destruct E as [E _].
      apply chars_eqb_eq in E. subst sch. now apply parse_relative_wf.
    + now apply parse_authority_wf.
  - destruct base as [b |]; [| discriminate].
    destruct (default_port (scheme b)) as [dp |] eqn:Hdp; [| discriminate].
    now apply parse_relative_wf.
Qed.


(** ** Parsing a serialized URL gives the URL back *)

Lemma default_port_cases sch dp :
  default_port sch = Some dp ->
  sch = $"http" \/ sch = $"https" \/ sch = $"ws" \/ sch = $"wss" \/ sch = $"ftp".
Proof.
  unfold default_port.
  repeat match goal with
         | |- context [chars_eqb sch ?l] =>
             let E := fresh "E" in
             destruct (chars_eqb sch l) eqn:E; [apply chars_eqb_eq in E; tauto |]
         end.
  discriminate.
Qed.

Lemma split_scheme_special sch dp rest :
  default_port sch = Some dp -> split_scheme (sch ++ ":"%char :: rest) = Some (sch, rest).
Proof.
  intros H. destruct (default_port_cases _ _ H) as [-> | [-> | [-> | [-> | ->]]]];
    reflexivity.
Qed.

Lemma scheme_url_chars sch dp :
  default_port sch = Some dp -> forallb url_char sch = true.
Proof.
  intros H. destruct (default_port_cases _ _ H) as [-> | [-> | [-> | [-> | ->]]]];
    reflexivity.
Qed.

Lemma forallb_impl (p q : ascii -> bool) s :
  (forall c, p c = true -> q c = true) -> forallb p s = true -> forallb q s = true.
Proof.
  intros H. rewrite !forallb_forall. auto.
Qed.

Lemma existsb_none (p : ascii -> bool) s :
  forallb (fun c => negb (p c)) s = true -> existsb p s = false.
Proof.
  induction s as [| c r IH]; simpl; [reflexivity |].
  intros H. apply andb_true_iff in H. destruct H as [Hc Hr].
  apply negb_true_iff in Hc. rewrite Hc. auto.
Qed.

Lemma uint_digits d : forallb is_ascii_digit $(NilEmpty.string_of_uint d) = true.
Proof. induction d; simpl; auto. Qed.

Lemma port_chars_of_digits n : forallb is_ascii_digit (port_chars_of n) = true.
Proof. apply uint_digits. Qed.

Lemma port_chars_of_nonempty n : port_chars_of n <> [].
Proof.
  unfold port_chars_of.
  assert (N.to_uint n <> Decimal.Nil) as H.
  { destruct n; [discriminate | apply Unsigned.to_uint_nonnil]. }
  destruct (N.to_uint n); [congruence | discriminate ..].
Qed.

Lemma parse_port_chars dp n :
  (n <= 65535)%N -> n <> dp -> parse_port dp (port_chars_of n) = Some (Some n).
Proof.
  intros Hle Hne. unfold parse_port.
  pose proof (port_chars_of_nonempty n) as Hnil.
  destruct (port_chars_of n) as [| c r] eqn:E; [congruence |].
  rewrite <- E. unfold port_chars_of.
  rewrite string_of_list_ascii_of_string, NilEmpty.usu, DecimalN.Unsigned.of_to.
  destruct (N.ltb_spec 65535 n); [lia |].
  destruct (N.eqb_spec n dp); [congruence | reflexivity].
Qed.

Lemma parse_port_roundtrip dp pt :
  port_ok dp pt -> parse_port dp (tl (port_chars pt)) = Some pt.
Proof.
  destruct pt as [n |]; simpl; [| reflexivity].
  intros [Hle Hne]. now apply parse_port_chars.
Qed.

Lemma port_chars_authority pt :
  forallb (fun c => negb (is_authority_end c)) (port_chars pt) = true
  /\ forallb (fun c => negb (Ascii.eqb "@" c)) (port_chars pt) = true
  /\ forallb url_char (port_chars pt) = true
  /\ starts_at (Ascii.eqb ":") (port_chars pt).
Proof.
  destruct pt as [n |]; [| now repeat split].
  pose proof (port_chars_of_digits n) as H.
  cbn [port_chars forallb starts_at].
  repeat split; apply andb_true_iff; (split; [reflexivity |]);
    (eapply forallb_impl; [| exact H]); intros c Hc;
    destruct (digit_facts c Hc) as (E1 & E2 & E3 & E4);
    rewrite ?E1, ?E2, ?E3, ?E4; reflexivity.
Qed.

Lemma host_chars_authority h :
  forallb domain_char h = true ->
  forallb (fun c => negb (is_authority_end c)) h = true
  /\ forallb (fun c => negb (Ascii.eqb "@" c)) h = true
  /\ forallb (fun c => negb (Ascii.eqb ":" c)) h = true
  /\ forallb (fun c => negb (is_slash c)) h = true
  /\ forallb url_char h = true.
Proof.
  intros H. repeat split; (eapply forallb_impl; [| exact H]); intros c Hc;
    destruct (domain_char_facts c Hc) as (E1 & E2 & E3 & E4 & E5);
    rewrite ?E1, ?E2, ?E3, ?E4, ?E5; reflexivity.
Qed.

Lemma path_chars_facts p :
  Forall (fun seg => clean_segment seg = true) p ->
  forallb (fun c => negb (is_path_end c)) (path_chars p) = true
  /\ forallb url_char (path_chars p) = true.
Proof.
  induction 1 as [| s ss Hs Hss [IH1 IH2]]; [now split |].
  destruct (clean_segment_facts _ Hs) as (Hset & _).
  cbn [path_chars flat_map]. fold (path_chars ss).
  cbn [app forallb]. rewrite !forallb_app, IH1, IH2.
  split.
  - rewrite andb_true_r. apply andb_true_iff. split; [reflexivity |].
    eapply forallb_impl; [| exact Hset]. intros c Hc.
    apply negb_true_iff in Hc. destruct (path_set_facts c Hc) as [_ ->]. reflexivity.
  - rewrite andb_true_r. apply andb_true_iff. split; [reflexivity |].
    eapply forallb_impl; [| exact Hset]. intros c Hc.
    apply negb_true_iff in Hc. now destruct (path_set_facts c Hc).
Qed.

Lemma query_fragment_roundtrip q f :
  query_ok q -> fragment_ok f ->
  parse_query_fragment (opt_chars "?" q ++ opt_chars "#" f) = (q, f).
Proof.
  intros Hq Hf.
  assert (parse_fragment (opt_chars "#" f) = f) as Hpf.
  { destruct f as [fs |]; simpl; [| reflexivity].
    now rewrite (percent_encode_id _ _ Hf). }
  destruct q as [qs |]; simpl in *.
  - rewrite break_app.
    + now rewrite (percent_encode_id _ _ Hq), Hpf.
    + eapply forallb_impl; [| exact Hq]. intros c Hc.
      apply negb_true_iff in Hc. destruct (query_set_facts c Hc) as [_ ->].
      reflexivity.
    + destruct f; simpl; auto.
  - destruct f as [fs |]; simpl in *; [| reflexivity].
    now rewrite (percent_encode_id _ _ Hf).
Qed.

Lemma parse_path_onwards_roundtrip sch h pt p q f :
  path_ok p -> query_ok q -> fragment_ok f ->
  parse_path_onwards sch h pt []
    (path_start (path_chars p ++ opt_chars "?" q ++ opt_chars "#" f))
  = mkURL sch h pt p q f.
Proof.
  intros [Hne Hp] Hq Hf.
  destruct p as [| s ss]; [congruence |].
  inversion Hp as [| ? ? Hs Hss]; subst.
  destruct (clean_segment_facts _ Hs) as (Hset & Hslash & _).
  destruct (path_chars_facts _ Hss) as [Hend _].
  cbn [path_chars flat_map]. fold (path_chars ss).
  cbn [app path_start]. change (is_slash "/") with true. cbv iota.
  unfold parse_path_onwards. rewrite <- app_assoc, app_assoc.
  rewrite break_app.
  - rewrite query_fragment_roundtrip by assumption.
    unfold path_chars. rewrite split_on_join.
    + now rewrite path_steps_clean by (discriminate || assumption).
    + reflexivity.
    + clear -Hss. induction Hss as [| x l Hx _ IH]; constructor; [| assumption].
      now destruct (clean_segment_facts _ Hx) as (_ & ? & _).
    + assumption.
  - rewrite forallb_app, Hend, andb_true_r.
    eapply forallb_impl; [| exact Hset]. intros c Hc.
    apply negb_true_iff in Hc. destruct (path_set_facts c Hc) as [_ ->]. reflexivity.
  - destruct q; [reflexivity |]. destruct f; reflexivity.
Qed.

Lemma parse_authority_roundtrip sch dp h pt tail :
  host_ok h -> port_ok dp pt ->
  tail <> [] -> starts_at is_authority_end tail ->
  parse_authority sch dp ("/"%char :: "/"%char :: h ++ port_chars pt ++ tail)
  = Some (parse_path_onwards sch h pt [] (path_start tail)).
Proof.
  intros Hh Hpt Hne Htail.
  pose proof (host_ok_chars _ Hh) as Hdom.
  destruct (host_chars_authority _ Hdom) as (Hh1 & Hh2 & Hh3 & Hh4 & _).
  destruct (port_chars_authority pt) as (Hp1 & Hp2 & _ & Hp4).
  destruct Hh as [Hhne Hparse].
  unfold parse_authority. cbn [drop_while]. change (is_slash "/") with true. cbv iota.
  assert (drop_while is_slash (h ++ port_chars pt ++ tail) = h ++ port_chars pt ++ tail)
    as ->.
  { destruct h as [| c hr]; [congruence |]. cbn [app forallb] in *.
    apply andb_true_iff in Hh4. destruct Hh4 as [Hc _].
    apply negb_true_iff in Hc. now apply drop_while_head. }
  rewrite app_assoc, break_app; [| now rewrite forallb_app, Hh1, Hp1 | assumption].
  rewrite existsb_none by now rewrite forallb_app, Hh2, Hp2.
  rewrite break_app by assumption.
  destruct h as [| c hr]; [congruence |].
  now rewrite Hparse, parse_port_roundtrip.
Qed.

Lemma href_url_chars u : WF u -> forallb url_char (href_chars u) = true.
Proof.
  intros (dp & Hdp & Hh & Hpt & [_ Hp] & Hq & Hf).
  destruct (host_chars_authority _ (host_ok_chars _ Hh)) as (_ & _ & _ & _ & Hh5).
  destruct (port_chars_authority (port u)) as (_ & _ & Hpc & _).
  destruct (path_chars_facts _ Hp) as [_ Hpath].
  unfold href_chars, origin_chars.
  rewrite !forallb_app, (scheme_url_chars _ _ Hdp), Hh5, Hpc, Hpath. cbn [andb].
  apply andb_true_iff. split; [reflexivity |].
  apply andb_true_iff. split.
  - destruct (query u) as [q |]; [| reflexivity]. cbn [opt_chars forallb].
    apply andb_true_iff. split; [reflexivity |].
    eapply forallb_impl; [| exact Hq]. intros c Hc.
    apply negb_true_iff in Hc. now destruct (query_set_facts c Hc).
  - destruct (fragment u) as [f |]; [| reflexivity]. cbn [opt_chars forallb].
    apply andb_true_iff. split; [reflexivity |].
    eapply forallb_impl; [| exact Hf]. intros c Hc.
    apply negb_true_iff in Hc. now apply fragment_set_facts.
Qed.

Lemma preprocess_url_chars s : forallb url_char s = true -> preprocess s = s.
Proof.
  intros H. unfold preprocess, trim.
  assert (forallb (fun c => negb (is_c0_control_or_space c)) s = true) as H1.
  { eapply forallb_impl; [| exact H]. intros c Hc.
    destruct (url_char_kept c Hc) as [-> _]. reflexivity. }
  rewrite (drop_while_none _ _ H1).
  rewrite (drop_while_none _ _ (forallb_rev _ _ H1)), rev_involutive.
  apply filter_all. eapply forallb_impl; [| exact H]. intros c Hc.
  destruct (url_char_kept c Hc) as [_ ->]. reflexivity.
Qed.

(** The basic URL parser, run on the serialization of a URL record it
    produced, gives that record back, whatever the base. *)
Theorem parse_href u base : WF u -> parse (href_chars u) base = Some u.
Proof.
  intros Hwf. pose proof Hwf as (dp & Hdp & Hh & Hpt & Hp & Hq & Hf).
  unfold parse. rewrite (preprocess_url_chars _ (href_url_chars _ Hwf)).
  unfold href_chars, origin_chars. rewrite <- !app_assoc.
  cbn [list_ascii_of_string app].
  rewrite (split_scheme_special _ _ _ Hdp), Hdp.
  assert (parse_authority (scheme u) dp
            ("/"%char :: "/"%char :: host u ++ port_chars (port u)
               ++ path_chars (path u) ++ opt_chars "?" (query u)
               ++ opt_chars "#" (fragment u)) = Some u) as Hauth.
  { rewrite parse_authority_roundtrip; try assumption.
    - rewrite parse_path_onwards_roundtrip by assumption. now destruct u.
    - destruct Hp as [Hne _]. destruct (path u); [congruence | discriminate].
    - destruct Hp as [Hne _]. destruct (path u); [congruence | reflexivity]. }
  destruct base as [b |]; [| exact Hauth].
  cbn [starts_with]. rewrite !Ascii.eqb_refl. cbn [andb negb].
  rewrite andb_false_r. exact Hauth.
Qed.

(** ** The parser at work *)

Example parse_normalizes :
  option_map href
    (new_URL " HTTPS://A.Example:0443/a/./b/../c d?x y#z" (Some "https://a.example"))
  = Some "https://a.example/a/c%20d?x%20y#z".
Proof. vm_compute. reflexivity. Qed.

Example parse_resolves :
  option_map href
    (new_URL "x/../y/%2E%2e/z?" (Some "https://a.example:8443/p/q/r?s#t"))
  = Some "https://a.example:8443/p/q/z?"
  /\ option_map href (new_URL "//b.example" (Some "https://a.example/p"))
     = Some "https://b.example/"
  /\ option_map href (new_URL "#top" (Some "https://a.example/p?q"))
     = Some "https://a.example/p?q#top".
Proof. vm_compute. repeat split. Qed.

Example parse_fails :
  new_URL "/path" None = None
  /\ new_URL "//" (Some "https://a.example") = None
  /\ new_URL "https://a.example:65536/" None = None
  /\ new_URL "https://a b/" None = None.
Proof. vm_compute. repeat split. Qed.

End UrlFacts.

(* ================================================================== *)
(** * [coerceOrigin] *)
(* ================================================================== *)

Lemma new_URL_wf url base u : Url.new_URL url base = Some u -> Url.WF u.
Proof.
  unfold Url.new_URL. destruct base as [b |].
  - destruct (Url.parse $b None) as [pb |] eqn:Hb; [| discriminate].
    apply UrlFacts.parse_wf. now apply (UrlFacts.parse_wf $b None).
  - now apply UrlFacts.parse_wf.
Qed.

(** [new URL(u.href, base)] is [u] again, for every base that parses. *)
Lemma new_URL_href url base u base' :
  Url.new_URL url base = Some u ->
  match base' with
  | Some b => Url.parse $b None <> None
  | None => True
  end ->
  Url.new_URL (Url.href u) base' = Some u.
Proof.
  intros Hu Hb. apply new_URL_wf in Hu.
  unfold Url.new_URL, Url.href. rewrite list_ascii_of_string_of_list_ascii.
  destruct base' as [b |]; [| now apply UrlFacts.parse_href].
  destruct (Url.parse $b None); [now apply UrlFacts.parse_href | congruence].
Qed.

Lemma coerceOrigin_inv trustedOrigin url r :
  coerceOrigin trustedOrigin url = Return r ->
  exists u, Url.new_URL url (Some trustedOrigin) = Some u
            /\ Url.origin u = trustedOrigin /\ r = Url.href u.
Proof.
  unfold coerceOrigin.
  destruct (Url.new_URL url (Some trustedOrigin)) as [u |] eqn:Hu; [| discriminate].
  destruct (String.eqb_spec trustedOrigin (Url.origin u)) as [E | E]; simpl;
    [| discriminate].
  intros [= <-]. eauto.
Qed.

(** [coerceOrigin] is [AnyUrl.coerceOrigin] at the model, and the model
    has the property [reparses]. *)
Lemma coerceOrigin_at_model :
  coerceOrigin = AnyUrl.coerceOrigin Url.new_URL Url.origin Url.href.
Proof. reflexivity. Qed.


Section AnyUrlFacts.

Variable URL : Type.
Variable new_URL : string -> option string -> option URL.
Variable origin href : URL -> string.


(** The hypothesis is what idempotence takes: a URL class in which
    [coerceOrigin] is idempotent has the property [reparses]. *)
Lemma coerceOrigin_idempotent_reparses :
  (forall trustedOrigin url r,
     AnyUrl.coerceOrigin new_URL origin href trustedOrigin url = Return r ->
     AnyUrl.coerceOrigin new_URL origin href trustedOrigin r = Return r) ->
  AnyUrl.reparses new_URL origin href.
Proof.
  intros Hidem base url u Hu Ho.
  specialize (Hidem base url (href u)). unfold AnyUrl.coerceOrigin in Hidem.
  rewrite Hu, Ho, String.eqb_refl in Hidem. cbn [negb] in Hidem.
  specialize (Hidem eq_refl).
  destruct (new_URL (href u) (Some base)) as [u' |]; [| discriminate].
  destruct (String.eqb_spec base (origin u')) as [Ho' | Ho']; cbn [negb] in Hidem;
    [| discriminate].
  injection Hidem as Hh. exists u'. now repeat split.
Qed.

End AnyUrlFacts.


(** C6, as the code has it.  [coerceOrigin(trustedOrigin, url)] resolves
    [url] against [trustedOrigin]; when the URL constructor yields a URL,
    the result is its [href] if its origin is [trustedOrigin] and an
    [OriginMismatchError] naming [trustedOrigin] and the resolved URL
    otherwise; when the URL constructor throws, its [TypeError] is what
    [coerceOrigin] throws.  The two examples of the design document hold. *)
Theorem coerceOrigin_resolves :
  (forall trustedOrigin url,
     coerceOrigin trustedOrigin url =
     match Url.new_URL url (Some trustedOrigin) with
     | Some resolved =>
         if String.eqb trustedOrigin (Url.origin resolved)
         then Return (Url.href resolved)
         else Throw (origin_mismatch trustedOrigin (Url.href resolved))
     | None => Throw (new_Error TypeError None)
     end)
  /\ coerceOrigin "https://a.example" "/path" = Return "https://a.example/path"
  /\ coerceOrigin "https://a.example" "https://b.example/x"
     = Throw (origin_mismatch "https://a.example" "https://b.example/x").
Proof.
  split; [| split; reflexivity].
  intros trustedOrigin url. unfold coerceOrigin.
  destruct (Url.new_URL url (Some trustedOrigin)) as [u |]; [| reflexivity].
  destruct (String.eqb trustedOrigin (Url.origin u)); reflexivity.
Qed.

(** C6 as stated fails where the URL constructor throws: the error is a
    [TypeError], not an [OriginMismatchError].  ["null"] is the origin
    the platform reports for a page with an opaque origin. *)
Lemma coerceOrigin_unresolvable :
  coerceOrigin "null" "/path" = Throw (new_Error TypeError None)
  /\ coerceOrigin "https://a.example" "https://a.example:99999/x"
     = Throw (new_Error TypeError None).
Proof. split; reflexivity. Qed.

(* ================================================================== *)
(** * State properties kept by a computation *)
(* ================================================================== *)

Section Preserves.
Context (P : State -> Prop).

Lemma preserves_ret A (a : A) : preserves P (ret a).
Proof. now intros st H. Qed.

Lemma preserves_throw A e : preserves P (@throw A e).
Proof. now intros st H. Qed.

Lemma preserves_lift A (c : Completion A) : preserves P (lift c).
Proof. now intros st H. Qed.

Lemma preserves_bind A B (m : M A) (k : A -> M B) :
  preserves P m -> (forall a, preserves P (k a)) -> preserves P (bind m k).
Proof.
  intros Hm Hk st H. unfold bind. specialize (Hm st H).
  destruct (m st) as [[a | e] st']; simpl in *; [now apply Hk | assumption].
Qed.

Lemma preserves_try_catch A (m : M A) h :
  preserves P m -> (forall e, preserves P (h e)) -> preserves P (try_catch m h).
Proof.
  intros Hm Hh st H. unfold try_catch. specialize (Hm st H).
  destruct (m st) as [[a | e] st']; simpl in *; [assumption | now apply Hh].
Qed.

Lemma preserves_try_finally A (m : M A) f :
  preserves P m -> preserves P f -> preserves P (try_finally m f).
Proof.
  intros Hm Hf st H. unfold try_finally. specialize (Hm st H).
  destruct (m st) as [r st']; simpl in *. specialize (Hf st' Hm).
  destruct (f st') as [[[] | e] st'']; simpl in *; assumption.
Qed.

Lemma preserves_when b m : preserves P m -> preserves P (when b m).
Proof. intros Hm. destruct b; [assumption | apply preserves_ret]. Qed.

Lemma preserves_get_this : preserves P get_this.
Proof. intros st H. unfold get_this. now destruct (webServerService st). Qed.
End Preserves.

(** Breaks a goal [preserves P m] down along the structure of [m]. *)
Ltac preserves_step :=
  match goal with
  | |- preserves _ (bind _ _) => apply preserves_bind; [| intros ?]
  | |- preserves _ (try_catch _ _) => apply preserves_try_catch; [| intros ?]
  | |- preserves _ (try_finally _ _) => apply preserves_try_finally
  | |- preserves _ (ret _) => apply preserves_ret
  | |- preserves _ (throw _) => apply preserves_throw
  | |- preserves _ (lift _) => apply preserves_lift
  | |- preserves _ (when _ _) => apply preserves_when
  | |- preserves _ get_this => apply preserves_get_this
  | |- preserves _ (if ?b then _ else _) => destruct b
  | |- preserves _ (match ?x with _ => _ end) => destruct x
  | |- preserves _ (let _ := _ in _) => cbv zeta
  end.

(** ** The [WebServerService] object is not assigned by [fetch] *)

Lemma emit_service w e : preserves (service_is w) (emit e).
Proof. now intros st H. Qed.

Lemma listener_service w B fetchError details :
  preserves (service_is w) (onHeadersReceivedListener B fetchError details).
Proof.
  unfold onHeadersReceivedListener.
  repeat (preserves_step || apply emit_service).
Qed.

Lemma dispatch_service w B events :
  forall fetchError, preserves (service_is w) (dispatch B events fetchError).
Proof.
  induction events as [| d r IH]; intros fetchError; cbn [dispatch].
  - apply preserves_ret.
  - repeat (preserves_step || apply listener_service || apply IH).
Qed.

Lemma fetch_service w B fetchUrl init :
  preserves (service_is w) (fetch B fetchUrl init).
Proof.
  unfold fetch.
  repeat (preserves_step || apply emit_service || apply dispatch_service).
Qed.

(** ** What [fetch] computes *)

Lemma listener_spec B this fetchError details st :
  webServerService st = Some this ->
  exists st',
    try_catch (onHeadersReceivedListener B fetchError details)
              (fun _ => ret fetchError) st
    = (Return (listener_assigns B this fetchError details), st')
    /\ webServerService st' = Some this.
Proof.
  intros Hst.
  unfold try_catch, onHeadersReceivedListener, listener_assigns, bind, lift, get_this.
  destruct (getSecurityInfo B (requestId details)) as [info | e].
  - rewrite Hst.
    destruct (truthy_string (corsOrigin this)
              && strict_neq (senderOrigin this) (accessControlAllowOrigin_of details));
      unfold emit, ret; eexists; (split; [reflexivity | exact Hst]).
  - unfold ret. eexists. split; [reflexivity | exact Hst].
Qed.

Lemma dispatch_spec B this events :
  forall fetchError st,
    webServerService st = Some this ->
    exists st',
      dispatch B events fetchError st
      = (Return (fold_left (listener_assigns B this) events fetchError), st')
      /\ webServerService st' = Some this.
Proof.
  induction events as [| d r IH]; intros fetchError st Hst; cbn [dispatch fold_left].
  - exists st. split; [reflexivity | assumption].
  - destruct (listener_spec B this fetchError d st Hst) as (st1 & E1 & H1).
    unfold bind at 1. rewrite E1. now apply IH.
Qed.

Lemma finally_fst A (m : M A) (f : M unit) st :
  (forall st', exists st'', f st' = (Return tt, st'')) ->
  fst (try_finally m f st) = fst (m st).
Proof.
  intros Hf. unfold try_finally. destruct (m st) as [r st'].
  destruct (Hf st') as (st'' & ->). reflexivity.
Qed.

Lemma when_emit_returns b e st : exists st', when b (emit e) st = (Return tt, st').
Proof. destruct b; eexists; reflexivity. Qed.

Lemma fetch_checked B url init st this fetchUrl :
  webServerService st = Some this ->
  coerceOrigin (or_else (corsOrigin this) (senderOrigin this)) url = Return fetchUrl ->
  startsWith (toLocaleLowerCase fetchUrl) "https://" = true ->
  fst (fetch B url init st) =
  match tabs_sendMessage B (senderTabId this) (fetch_message this fetchUrl init) with
  | Throw e => Throw e
  | Return response => settle (hook_error B this fetchUrl) response
  end.
Proof.
  intros Hst Hco Hhttps.
  unfold fetch. unfold bind at 1. unfold get_this. rewrite Hst.
  unfold bind at 1. unfold lift at 1. rewrite Hco, Hhttps. cbn [negb].
  unfold bind at 1. unfold try_catch at 1. unfold bind at 1. unfold emit at 1.
  unfold lift at 1. unfold hook_error, has_permission.
  set (st0 := set_trace _ st).
  assert (webServerService st0 = Some this) as Hst0 by exact Hst.
  clearbody st0.
  assert (forall a st1,
            webServerService st1 = Some this ->
            fst ((when a (emit (AddListener [fetchUrl]));;;
                  try_finally
                    (emit (TabsSendMessage (senderTabId this)
                             (fetch_message this fetchUrl init));;;
                     fetchError <-
                       (if a then dispatch B (onHeadersReceived B fetchUrl) None
                        else ret None);;
                     response <-
                       lift (tabs_sendMessage B (senderTabId this)
                               (fetch_message this fetchUrl init));;
                     when a (emit RemoveListener);;;
                     match response with
                     | Some response0 =>
                         match
                           (if negb (ok response0)
                            then Some (assign_response
                                         match fetchError with
                                         | Some e => e
                                         | None => new_Error ServerRejectedError None
                                         end response0)
                            else fetchError)
                         with
                         | Some e => throw e
                         | None => ret {| certificateInfo := None; relayed := response0 |}
                         end
                     | None => throw (new_Error TypeError None)
                     end)
                    (when a (emit RemoveListener))) st1)
            = match tabs_sendMessage B (senderTabId this)
                      (fetch_message this fetchUrl init) with
              | Throw e => Throw e
              | Return response =>
                  settle (if a
                          then fold_left (listener_assigns B this)
                                 (onHeadersReceived B fetchUrl) None
                          else None) response
              end) as Hbody.
  { intros a st1 Hst1. unfold bind at 1.
    destruct (when_emit_returns a (AddListener [fetchUrl]) st1) as (st2 & E2).
    assert (webServerService st2 = Some this) as Hst2.
    { destruct a; injection E2 as <-; exact Hst1. }
    rewrite E2. rewrite finally_fst by (intros; apply when_emit_returns).
    unfold bind at 1. unfold emit at 1.
    set (st3 := set_trace _ st2).
    assert (webServerService st3 = Some this) as Hst3 by exact Hst2.
    clearbody st3.
    assert (exists st4,
              (if a then dispatch B (onHeadersReceived B fetchUrl) None else ret None) st3
              = (Return (if a
                         then fold_left (listener_assigns B this)
                                (onHeadersReceived B fetchUrl) None
                         else None), st4)) as (st4 & E4).
    { destruct a.
      - destruct (dispatch_spec B this (onHeadersReceived B fetchUrl) None st3 Hst3)
          as (st4 & E & _). eauto.
      - eexists. reflexivity. }
    unfold bind at 1. rewrite E4.
    unfold bind at 1. unfold lift at 1.
    destruct (tabs_sendMessage B (senderTabId this) (fetch_message this fetchUrl init))
      as [response | e]; [| reflexivity].
    unfold bind at 1.
    destruct (when_emit_returns a RemoveListener st4) as (st5 & ->).
    unfold settle. destruct response as [response |]; [| reflexivity].
    destruct (if negb (ok response) then _ else _); reflexivity. }
  destruct (permissions_contains B) as [a | e]; [now apply Hbody |].
  unfold ret. now apply Hbody.
Qed.

Lemma fetch_insecure B url init st this fetchUrl :
  webServerService st = Some this ->
  coerceOrigin (or_else (corsOrigin this) (senderOrigin this)) url = Return fetchUrl ->
  startsWith (toLocaleLowerCase fetchUrl) "https://" = false ->
  fetch B url init st
  = (Throw (new_Error ProtocolInsecureError
              (Some ("HTTPS required for " ++ fetchUrl)%string)), st).
Proof.
  intros Hst Hco Hhttps.
  unfold fetch. unfold bind at 1. unfold get_this. rewrite Hst.
  unfold bind at 1. unfold lift at 1. rewrite Hco, Hhttps. reflexivity.
Qed.

(** C5. A URL whose coerced form (against [corsOrigin] if set, else
    against [senderOrigin]) does not start with [https://], compared in
    lower case, makes [fetch] throw [ProtocolInsecureError] with the
    state as it was: no browser call has been made, so no request has
    been issued. *)
Theorem fetch_requires_https B url init st this fetchUrl :
  webServerService st = Some this ->
  coerceOrigin (or_else (corsOrigin this) (senderOrigin this)) url = Return fetchUrl ->
  startsWith (toLocaleLowerCase fetchUrl) "https://" = false ->
  fetch B url init st
  = (Throw (new_Error ProtocolInsecureError
              (Some ("HTTPS required for " ++ fetchUrl)%string)), st)
    /\ trace (snd (fetch B url init st)) = trace st.
Proof.
  intros Hst Hco Hhttps.
  rewrite (fetch_insecure B url init st this fetchUrl Hst Hco Hhttps).
  split; reflexivity.
Qed.

(** ** The error recorded by the hook *)

Lemma listener_assigns_keeps B this fetchError details :
  (none_or_mismatch fetchError ->
   none_or_mismatch (listener_assigns B this fetchError details))
  /\ (is_mismatch fetchError ->
      is_mismatch (listener_assigns B this fetchError details)).
Proof.
  unfold listener_assigns.
  destruct (getSecurityInfo B (requestId details)); [| tauto].
  destruct (truthy_string (corsOrigin this) && _); simpl; tauto.
Qed.

Lemma recorded_keeps B this events :
  forall fetchError,
    (none_or_mismatch fetchError ->
     none_or_mismatch (fold_left (listener_assigns B this) events fetchError))
    /\ (is_mismatch fetchError ->
        is_mismatch (fold_left (listener_assigns B this) events fetchError)).
Proof.
  induction events as [| d r IH]; intros fetchError; cbn [fold_left]; [tauto |].
  destruct (listener_assigns_keeps B this fetchError d) as [H1 H2].
  destruct (IH (listener_assigns B this fetchError d)) as [H3 H4].
  split; auto.
Qed.

Lemma recorded_mismatch B this events details :
  In details events ->
  (exists info, getSecurityInfo B (requestId details) = Return info) ->
  truthy_string (corsOrigin this) = true ->
  strict_neq (senderOrigin this) (accessControlAllowOrigin_of details) = true ->
  forall fetchError,
    is_mismatch (fold_left (listener_assigns B this) events fetchError).
Proof.
  intros Hin (info & Hinfo) Hcors Hneq.
  induction events as [| d r IH]; [contradiction |].
  intros fetchError. cbn [fold_left]. destruct Hin as [-> | Hin].
  - apply recorded_keeps. unfold listener_assigns. now rewrite Hinfo, Hcors, Hneq.
  - now apply IH.
Qed.

(** C2, as the code has it.  After CORS has been enabled, when the
    extension holds the webRequest permission, the hook is handed a
    response to the fetched URL whose security info can be read and whose
    [Access-Control-Allow-Origin] header is absent or differs from the
    origin of the page, and the relayed fetch settles with a response,
    then [fetch] throws an [OriginMismatchError], whatever the status of
    that response. *)
Theorem fetch_checks_allow_origin B url init st this fetchUrl details response :
  webServerService st = Some this ->
  coerceOrigin (or_else (corsOrigin this) (senderOrigin this)) url = Return fetchUrl ->
  startsWith (toLocaleLowerCase fetchUrl) "https://" = true ->
  truthy_string (corsOrigin this) = true ->
  has_permission B = true ->
  In details (onHeadersReceived B fetchUrl) ->
  (exists info, getSecurityInfo B (requestId details) = Return info) ->
  strict_neq (senderOrigin this) (accessControlAllowOrigin_of details) = true ->
  tabs_sendMessage B (senderTabId this) (fetch_message this fetchUrl init)
  = Return (Some response) ->
  exists e, fst (fetch B url init st) = Throw e
            /\ err_class e = OriginMismatchError.
Proof.
  intros Hst Hco Hhttps Hcors Hperm Hin Hinfo Hneq Hsend.
  rewrite (fetch_checked B url init st this fetchUrl Hst Hco Hhttps), Hsend.
  unfold hook_error. rewrite Hperm.
  pose proof (recorded_mismatch B this _ details Hin Hinfo Hcors Hneq None) as H.
  destruct (fold_left _ _ None) as [e |]; [| contradiction].
  unfold settle. destruct (ok response); cbn [negb].
  - exists e. now split.
  - exists (assign_response e response). now split.
Qed.

(** C8, as the code has it.  A [fetch] that returns, returns the relayed
    response with [certificateInfo] null, whether or not the TLS
    inspection was available. *)
Theorem fetch_returns_relayed B url init st r st' :
  fetch B url init st = (Return r, st') ->
  certificateInfo r = None
  /\ exists this fetchUrl,
       webServerService st = Some this
       /\ coerceOrigin (or_else (corsOrigin this) (senderOrigin this)) url
          = Return fetchUrl
       /\ tabs_sendMessage B (senderTabId this) (fetch_message this fetchUrl init)
          = Return (Some (relayed r))
       /\ ok (relayed r) = true.
Proof.
  intros H.
  destruct (webServerService st) as [this |] eqn:Hst.
  2:{ unfold fetch, bind, get_this in H. rewrite Hst in H. discriminate. }
  destruct (coerceOrigin (or_else (corsOrigin this) (senderOrigin this)) url)
    as [fetchUrl | e] eqn:Hco.
  2:{ unfold fetch in H. unfold bind at 1 in H. unfold get_this in H.
      rewrite Hst in H. unfold bind at 1 in H. unfold lift at 1 in H.
      rewrite Hco in H. discriminate. }
  destruct (startsWith (toLocaleLowerCase fetchUrl) "https://") eqn:Hhttps.
  2:{ rewrite (fetch_insecure B url init st this fetchUrl Hst Hco Hhttps) in H.
      discriminate. }
  pose proof (fetch_checked B url init st this fetchUrl Hst Hco Hhttps) as E.
  rewrite H in E. cbn [fst] in E.
  destruct (tabs_sendMessage B (senderTabId this) (fetch_message this fetchUrl init))
    as [[response |] | e] eqn:Hsend; try discriminate.
  unfold settle in E. destruct (ok response) eqn:Hok; cbn [negb] in E.
  - destruct (hook_error B this fetchUrl); [discriminate |].
    injection E as ->. cbn. split; [reflexivity |].
    exists this, fetchUrl. repeat split; assumption.
  - discriminate.
Qed.

(** ** The fields of the object across method calls *)

Lemma fetch_keeps_service B url init st :
  webServerService (snd (fetch B url init st)) = webServerService st.
Proof. now apply (fetch_service (webServerService st) B url init st). Qed.

Lemma enableCors_run B action corsConfigUrl st c st' :
  enableCors B action corsConfigUrl st = (c, st') ->
  webServerService st' = webServerService st
  \/ (c = Return tt
      /\ exists this o,
           webServerService st = Some this
           /\ webServerService st'
              = Some (mkService (fingerprints this) (senderTabId this)
                                (senderOrigin this) (Some o))).
Proof.
  unfold enableCors. destruct (originProps action) as [prop |].
  2:{ intros [= <- <-]. now left. }
  unfold bind at 1. unfold get_this at 1.
  destruct (webServerService st) as [this |] eqn:Hst.
  2:{ intros [= <- <-]. now left. }
  unfold bind at 1. unfold lift at 1.
  destruct (coerceOrigin (senderOrigin this) corsConfigUrl) as [configUrl | e].
  2:{ intros [= <- <-]. now left. }
  unfold bind at 1.
  pose proof (fetch_keeps_service B configUrl None st) as Hfetch.
  destruct (fetch B configUrl None st) as [[response | e] st1]; cbn [snd] in Hfetch;
    rewrite Hst in Hfetch.
  2:{ intros [= <- <-]. now left. }
  unfold bind at 1. unfold lift at 1.
  destruct (get (body (relayed response)) prop) as [corsOrigin | e].
  2:{ intros [= <- <-]. now left. }
  destruct (negb (truthy (optional_length corsOrigin))).
  { intros [= <- <-]. now left. }
  destruct (Url.new_URL (js_String corsOrigin) None) as [u |].
  2:{ intros [= <- <-]. now left. }
  unfold bind, get_this, set_this. rewrite Hfetch.
  intros [= <- <-]. right. split; [reflexivity |].
  exists this, (Url.origin u). now split.
Qed.

Lemma enableCors_cases B action corsConfigUrl st :
  webServerService (snd (enableCors B action corsConfigUrl st)) = webServerService st
  \/ (fst (enableCors B action corsConfigUrl st) = Return tt
      /\ exists this o,
           webServerService st = Some this
           /\ webServerService (snd (enableCors B action corsConfigUrl st))
              = Some (mkService (fingerprints this) (senderTabId this)
                                (senderOrigin this) (Some o))).
Proof.
  destruct (enableCors B action corsConfigUrl st) as [c st'] eqn:E.
  exact (enableCors_run B action corsConfigUrl st c st' E).
Qed.

(** C10. [fetch] leaves the [WebServerService] object as it was, whether
    it returns or throws: [senderOrigin], [senderTabId] and [corsOrigin]
    (and [fingerprints]) are unchanged.  [enableCors] is the one method
    that assigns [corsOrigin]: it does so when it returns, and changes
    no other field. *)
Theorem fetch_keeps_origin_state :
  (forall B url init st,
     webServerService (snd (fetch B url init st)) = webServerService st
     /\ option_map senderOrigin (webServerService (snd (fetch B url init st)))
        = option_map senderOrigin (webServerService st)
     /\ option_map senderTabId (webServerService (snd (fetch B url init st)))
        = option_map senderTabId (webServerService st)
     /\ option_map corsOrigin (webServerService (snd (fetch B url init st)))
        = option_map corsOrigin (webServerService st))
  /\ (forall B action url st,
        let st' := snd (enableCors B action url st) in
        option_map senderOrigin (webServerService st')
        = option_map senderOrigin (webServerService st)
        /\ option_map senderTabId (webServerService st')
           = option_map senderTabId (webServerService st)
        /\ (option_map corsOrigin (webServerService st')
            = option_map corsOrigin (webServerService st)
            \/ fst (enableCors B action url st) = Return tt)).
Proof.
  split.
  - intros B url init st. rewrite fetch_keeps_service. repeat split.
  - intros B action url st st'. subst st'.
    destruct (enableCors_cases B action url st) as [-> | (Hr & this & o & Hst & ->)].
    + repeat split. now left.
    + rewrite Hst. repeat split. now right.
Qed.

(** ** Two computations with the same runs *)

Lemma same_refl A (m : M A) : same m m.
Proof. now intros st. Qed.

Lemma same_bind A B (m m' : M A) (k k' : A -> M B) :
  same m m' -> (forall a, same (k a) (k' a)) -> same (bind m k) (bind m' k').
Proof.
  intros Hm Hk st. unfold bind. rewrite Hm.
  destruct (m' st) as [[a | e] st']; [apply Hk | reflexivity].
Qed.

Lemma same_try_catch A (m m' : M A) h h' :
  same m m' -> (forall e, same (h e) (h' e)) -> same (try_catch m h) (try_catch m' h').
Proof.
  intros Hm Hh st. unfold try_catch. rewrite Hm.
  destruct (m' st) as [[a | e] st']; [reflexivity | apply Hh].
Qed.

Lemma same_try_finally A (m m' : M A) f f' :
  same m m' -> same f f' -> same (try_finally m f) (try_finally m' f').
Proof.
  intros Hm Hf st. unfold try_finally. rewrite Hm.
  destruct (m' st) as [r st']. now rewrite Hf.
Qed.

Ltac same_step :=
  first
    [ apply same_refl
    | match goal with
      | |- same (bind _ _) (bind _ _) => apply same_bind; [| intros ?]
      | |- same (try_catch _ _) (try_catch _ _) => apply same_try_catch; [| intros ?]
      | |- same (try_finally _ _) (try_finally _ _) => apply same_try_finally
      | |- same (if ?b then _ else _) (if ?b then _ else _) => destruct b
      | |- same (match ?x with _ => _ end) (match ?x with _ => _ end) => destruct x
      end ].

Lemma listener_ignores_securityInfo B g fetchError details :
  same (onHeadersReceivedListener (with_securityInfo B g) fetchError details)
       (onHeadersReceivedListener B fetchError details).
Proof.
  intros st. unfold onHeadersReceivedListener, bind, lift. cbn [getSecurityInfo with_securityInfo].
  destruct (getSecurityInfo B (requestId details)); reflexivity.
Qed.

Lemma dispatch_ignores_securityInfo B g events :
  forall fetchError,
    same (dispatch (with_securityInfo B g) events fetchError)
         (dispatch B events fetchError).
Proof.
  induction events as [| d r IH]; intros fetchError; cbn [dispatch].
  - apply same_refl.
  - apply same_bind; [| exact IH].
    apply same_try_catch; [apply listener_ignores_securityInfo | intros; apply same_refl].
Qed.

Lemma fetch_ignores_securityInfo B g url init :
  same (fetch (with_securityInfo B g) url init) (fetch B url init).
Proof.
  unfold fetch.
  repeat (same_step || apply dispatch_ignores_securityInfo).
Qed.

(** ** [hasCertificateChanged] *)

Lemma hasCertificateChanged_false this :
  hasCertificateChanged this = false
  <-> (forall f1 f2, In f1 (fingerprints this) -> In f2 (fingerprints this) ->
                     sha256 f1 = sha256 f2).
Proof.
  unfold hasCertificateChanged. rewrite negb_false_iff, forallb_forall.
  destruct (fingerprints this) as [| first rest].
  - split; [intros _ f1 f2 [] | reflexivity].
  - split.
    + intros H f1 f2 H1 H2.
      apply H in H1, H2. apply String.eqb_eq in H1, H2. congruence.
    + intros H f Hf. apply String.eqb_eq. apply H; [now left | assumption].
Qed.

Lemma session_fingerprints calls :
  forall st this,
    webServerService st = Some this -> fingerprints this = [] ->
    exists this', webServerService (run_session calls st) = Some this'
                  /\ fingerprints this' = [].
Proof.
  unfold run_session.
  induction calls as [| c r IH]; intros st this Hst Hfp; cbn [fold_left].
  - eauto.
  - destruct c as [B url init | B action url]; cbn [run_call].
    + apply IH with this; [| assumption]. now rewrite fetch_keeps_service.
    + destruct (enableCors_cases B action url st) as [E | (_ & this1 & o & Hst1 & E)].
      * apply IH with this; [| assumption]. now rewrite E.
      * rewrite Hst in Hst1. injection Hst1 as <-.
        eapply IH; [exact E | exact Hfp].
Qed.

(** C1, as the code has it.  In every session the recorded fingerprint
    sequence stays empty (the inspection of the TLS state in the hook is
    disabled), so it is pairwise equal and [hasCertificateChanged()] is
    false; [hasCertificateChanged()] is false exactly when the recorded
    fingerprints are pairwise equal; and [fetch] does not depend on the
    security info the hook is given: a call at which a divergent
    fingerprint is observed runs as it would with any other. *)
Theorem fingerprints_stay_empty :
  (forall sender calls,
     match new_WebServerService sender with
     | Return this =>
         exists this',
           webServerService
             (run_session calls (set_webServerService (Some this) initial_state))
           = Some this'
           /\ fingerprints this' = []
           /\ hasCertificateChanged this' = false
     | Throw _ => True
     end)
  /\ (forall this,
        hasCertificateChanged this = false
        <-> (forall f1 f2, In f1 (fingerprints this) -> In f2 (fingerprints this) ->
                           sha256 f1 = sha256 f2))
  /\ (forall B g url init st,
        fetch (with_securityInfo B g) url init st = fetch B url init st).
Proof.
  split; [| split].
  - intros sender calls. unfold new_WebServerService.
    destruct (Url.new_URL (getSenderUrl sender) None) as [u |]; [| exact I].
    destruct (session_fingerprints calls
                (set_webServerService
                   (Some (mkService [] (getSenderTabId sender) (Url.origin u) None))
                   initial_state) _ eq_refl eq_refl) as (this' & H1 & H2).
    exists this'. repeat split; try assumption.
    unfold hasCertificateChanged. now rewrite H2.
  - apply hasCertificateChanged_false.
  - intros B g url init st. apply fetch_ignores_securityInfo.
Qed.

(* ================================================================== *)
(** * The signing flow *)
(* ================================================================== *)

(** ** Channels and their [close()] calls *)

Lemma closes_app id t t' : closes id (t ++ t') = closes id t + closes id t'.
Proof.
  induction t as [| e r IH]; [reflexivity |].
  destruct e; cbn [app closes]; rewrite IH; lia.
Qed.

Lemma closes_none id t :
  forallb (fun e => negb (is_close e)) t = true -> closes id t = 0.
Proof.
  induction t as [| e r IH]; [reflexivity |].
  cbn [forallb]. intros H. apply andb_true_iff in H. destruct H as [He Hr].
  destruct e; cbn [closes]; auto. discriminate.
Qed.

Lemma emit_channel_inv e : is_close e = false -> preserves channel_inv (emit e).
Proof.
  intros He st [Ht Hc]. split; [| exact Hc].
  cbn. rewrite forallb_app, Ht. cbn. now rewrite He.
Qed.

Lemma set_this_channel_inv this : preserves channel_inv (set_this this).
Proof. now intros st H. Qed.

Lemma new_NativeAppService_channel_inv : preserves channel_inv new_NativeAppService.
Proof.
  intros st [Ht _]. split; [| reflexivity].
  cbn. rewrite forallb_app, Ht. reflexivity.
Qed.

Lemma on_channel_channel_inv A (f : nat -> M A) :
  (forall id, preserves channel_inv (f id)) -> preserves channel_inv (on_channel f).
Proof.
  intros Hf st H. unfold on_channel.
  destruct (nativeAppService st); [now apply Hf | assumption].
Qed.

Lemma race_channel_inv A E (op : M A) timeout error :
  preserves channel_inv op -> preserves channel_inv (race E op timeout error).
Proof.
  intros Hop st H. unfold race.
  specialize (Hop (set_races (S (races st)) st) H).
  destruct (op (set_races (S (races st)) st)) as [r st'].
  now destruct (timer_first E (races st)).
Qed.

Lemma in_browser_channel_inv A E (method : FetchEnv -> M A) :
  (forall B, preserves channel_inv (method B)) ->
  preserves channel_inv (in_browser E method).
Proof. intros Hm st H. unfold in_browser. now apply Hm. Qed.

Ltac channel_step :=
  first
    [ preserves_step
    | apply emit_channel_inv; reflexivity
    | apply set_this_channel_inv
    | apply new_NativeAppService_channel_inv
    | apply on_channel_channel_inv; intros ?
    | apply race_channel_inv
    | apply in_browser_channel_inv; intros ? ].

Lemma listener_channel_inv B fetchError details :
  preserves channel_inv (onHeadersReceivedListener B fetchError details).
Proof. unfold onHeadersReceivedListener. repeat channel_step. Qed.

Lemma dispatch_channel_inv B events :
  forall fetchError, preserves channel_inv (dispatch B events fetchError).
Proof.
  induction events as [| d r IH]; intros fetchError; cbn [dispatch].
  - apply preserves_ret.
  - repeat (channel_step || apply listener_channel_inv || apply IH).
Qed.

Lemma fetch_channel_inv B url init : preserves channel_inv (fetch B url init).
Proof. unfold fetch. repeat (channel_step || apply dispatch_channel_inv). Qed.

Lemma enableCors_channel_inv B action url :
  preserves channel_inv (enableCors B action url).
Proof. unfold enableCors. repeat (channel_step || apply fetch_channel_inv). Qed.

Lemma sign_until_signature_channel_inv E a :
  preserves channel_inv (sign_until_signature E a).
Proof.
  unfold sign_until_signature, connect, send.
  repeat (channel_step || apply fetch_channel_inv || apply enableCors_channel_inv).
Qed.

Lemma finalize_channel_inv E a s : preserves channel_inv (finalize E a s).
Proof. unfold finalize. repeat (channel_step || apply fetch_channel_inv). Qed.

Section SignFacts.

Variable Serialized : Type.
Variable serializeError : JsError -> Serialized.

Lemma sign_try_channel_inv E a :
  preserves channel_inv (sign_try Serialized E a).
Proof.
  unfold sign_try.
  repeat (apply sign_until_signature_channel_inv
          || apply finalize_channel_inv || channel_step).
Qed.

Lemma close_returns st : exists st', close st = (Return tt, st').
Proof. unfold close. destruct (nativeAppService st); eexists; reflexivity. Qed.

Lemma sign_try_success E a st r :
  fst (sign_try Serialized E a st) = Return r ->
  exists response, r = SignSuccess response.
Proof.
  unfold sign_try, bind.
  destruct (sign_until_signature E a st) as [[s | e] st1]; [| discriminate].
  destruct (finalize E a s st1) as [[v | e] st2]; [| discriminate].
  cbn. intros [= <-]. eauto.
Qed.

(** C4. Whatever its arguments and whatever its steps do, [sign] returns
    a tagged result and never throws: the success result of the [try]
    block, or, when a step of the block throws an error, the failure
    result holding that error, serialized. *)
Theorem sign_always_returns E a st :
  (exists response,
      fst (sign_try Serialized E a st) = Return (SignSuccess response)
      /\ fst (sign serializeError E a st) = Return (SignSuccess response))
  \/ (exists error,
        fst (sign_try Serialized E a st) = Throw error
        /\ fst (sign serializeError E a st)
           = Return (SignFailure (serializeError error))).
Proof.
  unfold sign. rewrite finally_fst by apply close_returns.
  unfold try_catch.
  destruct (sign_try Serialized E a st) as [[r | e] st1] eqn:Htry.
  - left. destruct (sign_try_success E a st r) as (response & ->).
    + now rewrite Htry.
    + exists response. now split.
  - right. exists e. now split.
Qed.


(** The channels that the flow has replaced are not closed by it. *)
Lemma sign_closes_no_other_channel E a id :
  nativeAppService (snd (sign serializeError E a initial_state)) <> Some id ->
  closes id (trace (snd (sign serializeError E a initial_state))) = 0.
Proof.
  unfold sign, try_finally.
  assert (channel_inv
            (snd (try_catch (sign_try Serialized E a)
                    (fun error => ret (SignFailure (serializeError error)))
                    initial_state))) as Hinv.
  { apply preserves_try_catch.
    - apply sign_try_channel_inv.
    - intros e. apply preserves_ret.
    - split; reflexivity. }
  destruct (try_catch _ _ initial_state) as [r st1]. cbn [snd] in Hinv.
  destruct Hinv as [Ht Hc]. unfold close.
  destruct (nativeAppService st1) as [id1 |] eqn:Hid; cbn; rewrite Hid; intros Hne.
  - rewrite closes_app, (closes_none id _ Ht). cbn.
    destruct (Nat.eqb_spec id1 id); [congruence | reflexivity].
  - now apply closes_none.
Qed.

(** C7. When the relayed fetch settles with a response: an error
    recorded by the response-inspection hook is the error [fetch] throws
    (with the response attached when the response is not ok), also
    though the transfer completed; without such an error, a response
    that is not ok makes [fetch] throw a [ServerRejectedError] carrying
    the response, and a response that is ok is returned.  In the signing
    flow, a finalize request answered with HTTP 400 (not ok), the hook
    having recorded nothing and the timer not firing first, makes [sign]
    return the failure result of that [ServerRejectedError] with the 400
    response. *)
Theorem fetch_settled_outcome :
  (forall B url init st this fetchUrl response,
     webServerService st = Some this ->
     coerceOrigin (or_else (corsOrigin this) (senderOrigin this)) url
     = Return fetchUrl ->
     startsWith (toLocaleLowerCase fetchUrl) "https://" = true ->
     tabs_sendMessage B (senderTabId this) (fetch_message this fetchUrl init)
     = Return (Some response) ->
     fst (fetch B url init st) =
     match hook_error B this fetchUrl with
     | Some e => Throw (if ok response then e else assign_response e response)
     | None =>
         if ok response then Return (mkFetchResult None response)
         else Throw (mkError ServerRejectedError None (Some response))
     end)
  /\ (forall E a signed st this fetchUrl response,
        sign_until_signature E a initial_state = (Return signed, st) ->
        webServerService st = Some this ->
        coerceOrigin (or_else (corsOrigin this) (senderOrigin this))
          (postFinalizeSigningUrl a) = Return fetchUrl ->
        startsWith (toLocaleLowerCase fetchUrl) "https://" = true ->
        tabs_sendMessage (fetch_env E (fetches st)) (senderTabId this)
          (fetch_message this fetchUrl (Some (finalize_init a signed)))
        = Return (Some response) ->
        ok response = false -> status response = 400%Z ->
        hook_error (fetch_env E (fetches st)) this fetchUrl = None ->
        timer_first E (races st) = false ->
        fst (sign serializeError E a initial_state)
        = Return (SignFailure
                    (serializeError
                       (mkError ServerRejectedError None (Some response))))).
Proof.
  split.
  - intros B url init st this fetchUrl response Hst Hco Hhttps Hsend.
    rewrite (fetch_checked B url init st this fetchUrl Hst Hco Hhttps), Hsend.
    unfold settle.
    destruct (hook_error B this fetchUrl) as [e |]; destruct (ok response);
      reflexivity.
  - intros E a signed st this fetchUrl response
           Hpre Hst Hco Hhttps Hsend Hok Hstatus Hhook Htimer.
    unfold sign. rewrite finally_fst by apply close_returns.
    unfold try_catch, sign_try. unfold bind at 1. rewrite Hpre.
    unfold bind at 1. unfold finalize, race, in_browser.
    cbn [fetches races set_races set_fetches].
    pose proof (fetch_checked (fetch_env E (fetches st)) (postFinalizeSigningUrl a)
                  (Some (finalize_init a signed))
                  (set_fetches (S (fetches st)) (set_races (S (races st)) st))
                  this fetchUrl Hst Hco Hhttps) as Hfetch.
    rewrite Hsend in Hfetch. unfold settle in Hfetch.
    rewrite Hok, Hhook in Hfetch. cbn [negb] in Hfetch.
    destruct (fetch _ _ _ _) as [c st2]. cbn [fst] in Hfetch. subst c.
    rewrite Htimer. reflexivity.
Qed.

End SignFacts.

(* ================================================================== *)
(** * The theorems at concrete pages, browsers and flows *)
(* ================================================================== *)

Import Sample.

Lemma fetch_requires_https_witness :
  coerceOrigin "http://page.example" "/x" = Return "http://page.example/x"
  /\ fetch (plain_browser page_document) "/x" None (state_of http_service)
     = (Throw (new_Error ProtocolInsecureError
                 (Some "HTTPS required for http://page.example/x")),
        state_of http_service)
  /\ trace (snd (fetch (plain_browser page_document) "/x" None
                   (state_of http_service))) = [].
Proof.
  split; [vm_compute; reflexivity |].
  apply (fetch_requires_https (plain_browser page_document) "/x" None
           (state_of http_service) http_service "http://page.example/x");
    vm_compute; reflexivity.
Defined.

(** C2 as stated fails without the webRequest permission: the CORS
    negotiation succeeds, the response to the next fetch carries no
    [Access-Control-Allow-Origin] header, and [fetch] returns it. *)
Lemma fetch_unchecked_allow_origin :
  let negotiated :=
    enableCors (plain_browser cors_config) SIGN "/cors.json" (state_of service) in
  fst negotiated = Return tt
  /\ webServerService (snd negotiated) = Some cors_service
  /\ lookup "access-control-allow-origin" (headers document) = None
  /\ fst (fetch (plain_browser document) "/document" None (snd negotiated))
     = Return (mkFetchResult None document).
Proof. vm_compute. repeat split. Qed.

Lemma fetch_checks_allow_origin_witness :
  exists e,
    fst (fetch (inspecting_browser foreign_allow_origin certificate_a document)
           "/document" None (state_of cors_service)) = Throw e
    /\ err_class e = OriginMismatchError.
Proof.
  apply (fetch_checks_allow_origin
           (inspecting_browser foreign_allow_origin certificate_a document)
           "/document" None (state_of cors_service) cors_service
           "https://cors.example/document"
           (mkDetails "1" (Some foreign_allow_origin)) document);
    try (vm_compute; reflexivity).
  - left. reflexivity.
  - exists (mkSecurityInfo "secure" [certificate_a]). reflexivity.
Defined.

(** C8 as stated fails with the TLS inspection available: the hook is
    handed the security info of a secure connection with its
    certificate, and the result of [fetch] has [certificateInfo] null. *)
Lemma fetch_drops_certificate :
  has_permission (inspecting_browser [] certificate_a page_document) = true
  /\ getSecurityInfo (inspecting_browser [] certificate_a page_document) "1"
     = Return (mkSecurityInfo "secure" [certificate_a])
  /\ fst (fetch (inspecting_browser [] certificate_a page_document)
            "/document" None (state_of service))
     = Return (mkFetchResult None page_document).
Proof. vm_compute. repeat split. Qed.

Lemma fetch_returns_relayed_witness :
  certificateInfo (mkFetchResult None page_document) = None
  /\ exists this fetchUrl,
       webServerService (state_of service) = Some this
       /\ coerceOrigin (or_else (corsOrigin this) (senderOrigin this)) "/document"
          = Return fetchUrl
       /\ tabs_sendMessage (inspecting_browser [] certificate_a page_document)
            (senderTabId this) (fetch_message this fetchUrl None)
          = Return (Some (relayed (mkFetchResult None page_document)))
       /\ ok (relayed (mkFetchResult None page_document)) = true.
Proof.
  apply (fetch_returns_relayed (inspecting_browser [] certificate_a page_document)
           "/document" None (state_of service) (mkFetchResult None page_document)
           (snd (fetch (inspecting_browser [] certificate_a page_document)
                   "/document" None (state_of service)))).
  vm_compute. reflexivity.
Defined.

(** C1 as stated fails at a divergent fingerprint: the first call sees
    the certificate with SHA-256 fingerprint [aa], the second one the
    certificate with fingerprint [bb], and the second call returns the
    response with its body instead of throwing [CertificateChangedError]. *)
Lemma fetch_accepts_changed_certificate :
  sha256 (fingerprint certificate_a) <> sha256 (fingerprint certificate_b)
  /\ fst (fetch (inspecting_browser [] certificate_a page_document)
            "/document" None (state_of service))
     = Return (mkFetchResult None page_document)
  /\ fst (fetch (inspecting_browser [] certificate_b page_document)
            "/document" None
            (snd (fetch (inspecting_browser [] certificate_a page_document)
                    "/document" None (state_of service))))
     = Return (mkFetchResult None page_document)
  /\ body page_document = JObj [("title", JStr "contract")].
Proof. vm_compute. repeat split. discriminate. Qed.

Lemma fetch_settled_outcome_witness :
  fst (fetch (plain_browser rejected) "/sign/finalize" None (state_of service))
  = Throw (mkError ServerRejectedError None (Some rejected))
  /\ status rejected = 400%Z
  /\ fst (sign serialize (flow rejected None) args initial_state)
     = Return (SignFailure
                 (serialize (mkError ServerRejectedError None (Some rejected)))).
Proof.
  destruct (fetch_settled_outcome JsError serialize) as [Hfetch Hsign].
  split; [| split; [reflexivity |]].
  - rewrite (Hfetch (plain_browser rejected) "/sign/finalize" None (state_of service)
               service "https://page.example/sign/finalize" rejected);
      vm_compute; reflexivity.
  - let r := eval vm_compute in
         (sign_until_signature (flow rejected None) args initial_state) in
    lazymatch r with
    | (Return ?signed, ?st) =>
        apply (Hsign (flow rejected None) args signed st service
                 "https://page.example/sign/finalize" rejected)
    end; vm_compute; reflexivity.
Defined.

(** C7, where the relayed fetch does not resolve with a response.  The
    hook has recorded an [OriginMismatchError] (the response carries a
    foreign [Access-Control-Allow-Origin] and the listener has cancelled
    it); the relayed fetch is rejected, or resolves with [undefined];
    [fetch] settles with the rejection, or with a [TypeError], and the
    error of the hook is not thrown. *)
Lemma fetch_loses_hook_error :
  let rejection := new_Error (OtherError "Error") (Some "The message port closed") in
  let rejecting :=
    mkFetchEnv (Return true) (fun _ => [mkDetails "1" (Some foreign_allow_origin)])
      (fun _ => Return (mkSecurityInfo "secure" [certificate_a]))
      (fun _ _ => Throw rejection) in
  let silent :=
    mkFetchEnv (Return true) (fun _ => [mkDetails "1" (Some foreign_allow_origin)])
      (fun _ => Return (mkSecurityInfo "secure" [certificate_a]))
      (fun _ _ => Return None) in
  option_map err_class (hook_error rejecting cors_service "https://cors.example/document")
  = Some OriginMismatchError
  /\ fst (fetch rejecting "/document" None (state_of cors_service)) = Throw rejection
  /\ err_class rejection <> OriginMismatchError
  /\ option_map err_class (hook_error silent cors_service "https://cors.example/document")
     = Some OriginMismatchError
  /\ fst (fetch silent "/document" None (state_of cors_service))
     = Throw (new_Error TypeError None).
Proof. vm_compute. repeat split. discriminate. Qed.

(** ** Three runs of the signing flow *)

(** The native application and the server accept everything: the
    result mirrors the finalize response, the second channel is closed
    once and the first one is left open. *)
Example sign_succeeds :
  let run := sign serialize (flow finalized None) args initial_state in
  fst run = Return (SignSuccess finalized)
  /\ nativeAppService (snd run) = Some 1
  /\ closes 1 (trace (snd run)) = 1
  /\ closes 0 (trace (snd run)) = 0.
Proof. vm_compute. repeat split. Qed.

(** The user does not answer the certificate request in time. *)
Example sign_user_timeout :
  let run := sign serialize (flow finalized (Some 0)) args initial_state in
  fst run = Return (SignFailure (serialize (new_Error UserTimeoutError None)))
  /\ nativeAppService (snd run) = Some 0
  /\ closes 0 (trace (snd run)) = 1.
Proof. vm_compute. repeat split. Qed.

(** A prepare URL without scheme: [new URL(postPrepareSigningUrl)]
    throws while the first native message is built. *)
Example sign_relative_url :
  fst (sign serialize (flow finalized None)
         (mkSignArgs "/sign/prepare" "/sign/finalize" None [] 120000 20000 page None)
         initial_state)
  = Return (SignFailure (serialize (new_Error TypeError None))).
Proof. vm_compute. reflexivity. Qed.

(* ================================================================== *)
(** * [headersToObject] *)
(* ================================================================== *)

Lemma lookup_obj_set A k k' (v : A) props :
  lookup k (obj_set k' v props) = if String.eqb k k' then Some v else lookup k props.
Proof.
  induction props as [| [k0 v0] r IH]; cbn [obj_set lookup].
  - reflexivity.
  - destruct (String.eqb_spec k' k0) as [-> | Hne]; cbn [lookup].
    + now destruct (String.eqb k k0).
    + destruct (String.eqb_spec k k0) as [-> | Hne'].
      * destruct (String.eqb_spec k0 k'); [congruence | reflexivity].
      * exact IH.
Qed.

Lemma keys_obj_set A k (v : A) props :
  map fst (obj_set k v props)
  = if existsb (String.eqb k) (map fst props) then map fst props
    else map fst props ++ [k].
Proof.
  induction props as [| [k0 v0] r IH]; cbn [obj_set map fst existsb app].
  - reflexivity.
  - destruct (String.eqb_spec k k0) as [-> | Hne]; cbn [map fst orb].
    + reflexivity.
    + rewrite IH. now destruct (existsb (String.eqb k) (map fst r)).
Qed.

Lemma existsb_eqb_In k l : existsb (String.eqb k) l = true <-> In k l.
Proof.
  rewrite existsb_exists. split.
  - intros (x & Hx & E). apply String.eqb_eq in E. now subst.
  - intros H. exists k. split; [assumption | apply String.eqb_refl].
Qed.

Lemma NoDup_keys_obj_set A k (v : A) props :
  NoDup (map fst props) -> NoDup (map fst (obj_set k v props)).
Proof.
  intros H. rewrite keys_obj_set.
  destruct (existsb (String.eqb k) (map fst props)) eqn:E; [assumption |].
  apply NoDup_app; [assumption | repeat constructor; intros [] | ].
  intros x Hx [<- | []].
  apply existsb_eqb_In in Hx. congruence.
Qed.

Lemma In_keys_obj_set A k k' (v : A) props :
  In k (map fst (obj_set k' v props)) <-> k = k' \/ In k (map fst props).
Proof.
  rewrite keys_obj_set.
  destruct (existsb (String.eqb k') (map fst props)) eqn:E.
  - apply existsb_eqb_In in E. split; [auto | intros [-> | H]; assumption].
  - rewrite in_app_iff. cbn. split.
    + intros [H | [<- | []]]; auto.
    + intros [-> | H]; auto.
Qed.

(** The fold from any accumulator: the value of a key is settled by the
    entries after the last one that names it. *)
Lemma fold_reducer_lookup name headers :
  name = "__proto__"
  \/ Forall (fun curr => nth_error curr 0 <> Some name) headers ->
  forall acc, lookup name (fold_left reducer headers acc) = lookup name acc.
Proof.
  intros H. induction headers as [| curr r IH]; intros acc; cbn [fold_left].
  - reflexivity.
  - rewrite IH.
    + unfold reducer, assign.
      destruct (nth_error curr 0) as [k |] eqn:E; [| reflexivity].
      destruct (String.eqb_spec k "__proto__") as [-> | Hk]; [reflexivity |].
      rewrite lookup_obj_set.
      destruct (String.eqb_spec name k) as [-> | Hne]; [| reflexivity].
      destruct H as [-> | H]; [congruence |].
      inversion H; subst. congruence.
    + destruct H as [-> | H]; [now left | right]. now inversion H.
Qed.

Lemma fold_reducer_keys headers :
  forall acc,
    NoDup (map fst acc) ->
    NoDup (map fst (fold_left reducer headers acc))
    /\ forall k, In k (map fst (fold_left reducer headers acc))
                 <-> In k (map fst acc)
                     \/ (k <> "__proto__"
                         /\ exists curr, In curr headers /\ nth_error curr 0 = Some k).
Proof.
  induction headers as [| curr r IH]; intros acc Hacc; cbn [fold_left].
  - split; [assumption |]. intros k. split; [auto |].
    intros [H | (_ & curr & [] & _)]. assumption.
  - assert (NoDup (map fst (reducer acc curr))) as Hnd.
    { unfold reducer, assign. destruct (nth_error curr 0); [| assumption].
      destruct (String.eqb _ "__proto__"); [assumption |].
      now apply NoDup_keys_obj_set. }
    destruct (IH _ Hnd) as [H1 H2]. split; [assumption |].
    intros k. rewrite H2. unfold reducer, assign.
    destruct (nth_error curr 0) as [k0 |] eqn:E.
    + destruct (String.eqb_spec k0 "__proto__") as [-> | Hk0].
      * split.
        -- intros [H | (Hk & c & Hc & Hc0)]; [now left | right].
           split; [assumption |]. exists c. split; [now right | assumption].
        -- intros [H | (Hk & c & [<- | Hc] & Hc0)]; [now left | congruence |].
           right. eauto.
      * rewrite In_keys_obj_set. split.
        -- intros [[-> | H] | (Hk & c & Hc & Hc0)]; [| now left |].
           ++ right. split; [assumption |]. exists curr. split; [now left | assumption].
           ++ right. split; [assumption |]. exists c. split; [now right | assumption].
        -- intros [H | (Hk & c & [<- | Hc] & Hc0)]; [now left; right | |].
           ++ left. left. congruence.
           ++ right. eauto.
    + split.
      * intros [H | (Hk & c & Hc & Hc0)]; [now left | right].
        split; [assumption |]. exists c. split; [now right | assumption].
      * intros [H | (Hk & c & [<- | Hc] & Hc0)]; [now left | congruence |].
        right. eauto.
Qed.

Lemma lookup_None_keys A name (props : list (string * A)) :
  lookup name props = None <-> ~ In name (map fst props).
Proof.
  induction props as [| [k v] r IH]; cbn [lookup map fst In].
  - tauto.
  - destruct (String.eqb_spec name k) as [-> | Hne].
    + split; [discriminate | intros H; exfalso; auto].
    + rewrite IH. split; [intros H [E | Hin]; [congruence | auto] | auto].
Qed.

(** X1. The last entry of a name gives the value of that name: an entry
    [[name, value, ...]] followed by entries of other names only makes
    [headersToObject] map [name] to [value], whatever came before, for
    every name but [__proto__]. *)
Theorem headersToObject_last_wins before name value more after :
  name <> "__proto__" ->
  Forall (fun curr => nth_error curr 0 <> Some name) after ->
  lookup name (headersToObject (before ++ (name :: value :: more) :: after))
  = Some (Some value).
Proof.
  intros Hname H. unfold headersToObject.
  rewrite fold_left_app. cbn [fold_left].
  rewrite (fold_reducer_lookup name after (or_intror H)).
  unfold reducer, assign. cbn [nth_error].
  destruct (String.eqb_spec name "__proto__"); [congruence |].
  rewrite lookup_obj_set. now rewrite String.eqb_refl.
Qed.

Lemma headersToObject_last_wins_witness :
  lookup "set-cookie"
    (headersToObject
       ([["set-cookie"; "a=1"]; ["content-type"; "text/html"]]
        ++ ["set-cookie"; "b=2"] :: [["etag"; "x"]; []]))
  = Some (Some "b=2").
Proof.
  apply (headersToObject_last_wins
           [["set-cookie"; "a=1"]; ["content-type"; "text/html"]]
           "set-cookie" "b=2" [] [["etag"; "x"]; []]).
  - discriminate.
  - repeat constructor; discriminate.
Defined.

(** X2. The object has one property for each name that heads an entry,
    [__proto__] apart, and no other property: no key occurs twice; a
    name is a key exactly when it is not [__proto__] and some entry
    starts with it; entries without a first element (for which
    [typeof curr[0]] is not ["string"]) add nothing, and a header named
    [__proto__] is left out, since the assignment to that name does not
    create a property. *)
Theorem headersToObject_keys headers :
  NoDup (map fst (headersToObject headers))
  /\ (forall name,
        In name (map fst (headersToObject headers))
        <-> name <> "__proto__"
            /\ exists curr, In curr headers /\ nth_error curr 0 = Some name)
  /\ (forall name,
        lookup name (headersToObject headers) = None
        <-> name = "__proto__"
            \/ Forall (fun curr => nth_error curr 0 <> Some name) headers).
Proof.
  destruct (fold_reducer_keys headers [] (NoDup_nil _)) as [H1 H2].
  split; [exact H1 |]. split.
  - intros name. unfold headersToObject. rewrite H2. cbn. tauto.
  - intros name. split.
    + intros Hnone. apply lookup_None_keys in Hnone.
      destruct (string_dec name "__proto__") as [-> | Hname]; [now left | right].
      apply Forall_forall. intros curr Hin Hcurr. apply Hnone.
      apply H2. right. eauto.
    + intros H. unfold headersToObject. now rewrite fold_reducer_lookup.
Qed.

(* ================================================================== *)
(** * The effects of [fetch] *)
(* ================================================================== *)

Lemma set_trace_same st : set_trace (trace st) st = st.
Proof. now destruct st. Qed.

Lemma set_trace_twice t t' st : set_trace t' (set_trace t st) = set_trace t' st.
Proof. reflexivity. Qed.

Lemma listener_run B this fetchError details st :
  webServerService st = Some this ->
  try_catch (onHeadersReceivedListener B fetchError details)
            (fun _ => ret fetchError) st
  = (Return (listener_assigns B this fetchError details),
     set_trace (trace st ++ listener_answers B this details) st).
Proof.
  intros Hst.
  unfold try_catch, onHeadersReceivedListener, listener_assigns, listener_answers,
    bind, lift, get_this.
  destruct (getSecurityInfo B (requestId details)) as [info | e].
  - rewrite Hst.
    destruct (truthy_string (corsOrigin this)
              && strict_neq (senderOrigin this) (accessControlAllowOrigin_of details));
      reflexivity.
  - unfold ret. now rewrite app_nil_r, set_trace_same.
Qed.

Lemma dispatch_run B this events :
  forall fetchError st,
    webServerService st = Some this ->
    dispatch B events fetchError st
    = (Return (fold_left (listener_assigns B this) events fetchError),
       set_trace (trace st ++ flat_map (listener_answers B this) events) st).
Proof.
  induction events as [| d r IH]; intros fetchError st Hst;
    cbn [dispatch fold_left flat_map].
  - unfold ret. now rewrite app_nil_r, set_trace_same.
  - unfold bind at 1. rewrite (listener_run B this fetchError d st Hst).
    rewrite IH by exact Hst. cbn [trace set_trace].
    now rewrite set_trace_twice, app_assoc.
Qed.

(** One call of [fetch] that passes the two checks on the URL: its
    completion and its effects, in order. *)
Lemma fetch_run B url init st this fetchUrl :
  webServerService st = Some this ->
  coerceOrigin (or_else (corsOrigin this) (senderOrigin this)) url = Return fetchUrl ->
  startsWith (toLocaleLowerCase fetchUrl) "https://" = true ->
  fetch B url init st
  = (match tabs_sendMessage B (senderTabId this) (fetch_message this fetchUrl init) with
     | Throw e => Throw e
     | Return response => settle (hook_error B this fetchUrl) response
     end,
     set_trace
       (trace st
        ++ PermissionsContains ["webRequest"; "webRequestBlocking"]
        :: (if has_permission B then [AddListener [fetchUrl]] else [])
        ++ TabsSendMessage (senderTabId this) (fetch_message this fetchUrl init)
        :: (if has_permission B
            then flat_map (listener_answers B this) (onHeadersReceived B fetchUrl)
            else [])
        ++ match tabs_sendMessage B (senderTabId this)
                   (fetch_message this fetchUrl init) with
           | Return _ => if has_permission B then [RemoveListener] else []
           | Throw _ => []
           end
        ++ (if has_permission B then [RemoveListener] else []))
       st).
Proof.
  intros Hst Hco Hhttps.
  destruct st as [w n t f ch r]. cbn [webServerService] in Hst. subst w.
  unfold fetch. unfold bind at 1. unfold get_this. cbn [webServerService].
  unfold bind at 1. unfold lift at 1. rewrite Hco, Hhttps. cbn [negb].
  unfold bind at 1. unfold try_catch at 1. unfold bind at 1. unfold emit at 1.
  unfold lift at 1. unfold hook_error, has_permission.
  unfold set_trace at 1. cbn [trace webServerService nativeAppService fetches channels races].
  assert (forall a,
            (when a (emit (AddListener [fetchUrl]));;;
             try_finally
               (emit (TabsSendMessage (senderTabId this)
                        (fetch_message this fetchUrl init));;;
                fetchError <-
                  (if a then dispatch B (onHeadersReceived B fetchUrl) None
                   else ret None);;
                response <-
                  lift (tabs_sendMessage B (senderTabId this)
                          (fetch_message this fetchUrl init));;
                when a (emit RemoveListener);;;
                match response with
                | Some response0 =>
                    match
                      (if negb (ok response0)
                       then Some (assign_response
                                    match fetchError with
                                    | Some e => e
                                    | None => new_Error ServerRejectedError None
                                    end response0)
                       else fetchError)
                    with
                    | Some e => throw e
                    | None => ret {| certificateInfo := None; relayed := response0 |}
                    end
                | None => throw (new_Error TypeError None)
                end)
               (when a (emit RemoveListener)))
              (mkState (Some this) n
                 (t ++ [PermissionsContains ["webRequest"; "webRequestBlocking"]])
                 f ch r)
            = (match tabs_sendMessage B (senderTabId this)
                       (fetch_message this fetchUrl init) with
               | Throw e => Throw e
               | Return response =>
                   settle (if a
                           then fold_left (listener_assigns B this)
                                  (onHeadersReceived B fetchUrl) None
                           else None) response
               end,
               mkState (Some this) n
                 (t
                  ++ PermissionsContains ["webRequest"; "webRequestBlocking"]
                  :: (if a then [AddListener [fetchUrl]] else [])
                  ++ TabsSendMessage (senderTabId this)
                       (fetch_message this fetchUrl init)
                  :: (if a
                      then flat_map (listener_answers B this)
                             (onHeadersReceived B fetchUrl)
                      else [])
                  ++ match tabs_sendMessage B (senderTabId this)
                             (fetch_message this fetchUrl init) with
                     | Return _ => if a then [RemoveListener] else []
                     | Throw _ => []
                     end
                  ++ (if a then [RemoveListener] else []))
                 f ch r)) as Hbody.
  { intros a. unfold bind at 1. unfold try_finally.
    destruct a; unfold when.
    - unfold emit at 1. unfold set_trace at 1.
      cbn [trace webServerService nativeAppService fetches channels races].
      unfold bind at 1. unfold emit at 1. unfold set_trace at 1.
      cbn [trace webServerService nativeAppService fetches channels races].
      unfold bind at 1.
      rewrite (dispatch_run B this (onHeadersReceived B fetchUrl) None)
        by reflexivity.
      unfold set_trace at 1.
      cbn [trace webServerService nativeAppService fetches channels races].
      unfold bind at 1. unfold lift at 1.
      destruct (tabs_sendMessage B (senderTabId this) (fetch_message this fetchUrl init))
        as [response | e].
      + unfold bind at 1. unfold emit at 1. unfold set_trace at 1.
        cbn [trace webServerService nativeAppService fetches channels races].
        unfold settle.
        destruct response as [response |].
        * destruct (if negb (ok response) then _ else _);
            unfold throw, ret, emit, set_trace; cbn [trace];
            rewrite <- !app_assoc; reflexivity.
        * unfold throw, emit, set_trace; cbn [trace];
            rewrite <- !app_assoc; reflexivity.
      + unfold emit, set_trace; cbn [trace]. rewrite <- !app_assoc. reflexivity.
    - unfold ret at 1. unfold bind at 1. unfold emit at 1. unfold set_trace at 1.
      cbn [trace webServerService nativeAppService fetches channels races].
      unfold bind at 1. unfold ret at 1. unfold bind at 1. unfold lift at 1.
      destruct (tabs_sendMessage B (senderTabId this) (fetch_message this fetchUrl init))
        as [response | e].
      + unfold bind at 1. unfold ret at 1. unfold settle.
        destruct response as [response |].
        * destruct (if negb (ok response) then _ else _);
            unfold throw, ret; rewrite <- !app_assoc; reflexivity.
        * unfold throw, ret; rewrite <- !app_assoc; reflexivity.
      + unfold ret. rewrite <- !app_assoc. reflexivity. }
  unfold set_trace. cbn [trace webServerService nativeAppService fetches channels races].
  destruct (permissions_contains B) as [a | e]; [apply Hbody |].
  unfold ret. apply Hbody.
Qed.

(** [fetch] either throws at once, the state as it was, or passes the
    two checks on the URL. *)
Lemma fetch_cases B url init st :
  (exists e, fetch B url init st = (Throw e, st))
  \/ (exists this fetchUrl,
        webServerService st = Some this
        /\ coerceOrigin (or_else (corsOrigin this) (senderOrigin this)) url
           = Return fetchUrl
        /\ startsWith (toLocaleLowerCase fetchUrl) "https://" = true).
Proof.
  destruct (webServerService st) as [this |] eqn:Hst.
  - destruct (coerceOrigin (or_else (corsOrigin this) (senderOrigin this)) url)
      as [fetchUrl | e] eqn:Hco.
    + destruct (startsWith (toLocaleLowerCase fetchUrl) "https://") eqn:Hhttps.
      * right. exists this, fetchUrl. now repeat split.
      * left. eexists. now apply (fetch_insecure B url init st this fetchUrl).
    + left. exists e. unfold fetch. unfold bind at 1. unfold get_this. rewrite Hst.
      unfold bind at 1. unfold lift at 1. now rewrite Hco.
  - left. eexists. unfold fetch. unfold bind at 1. unfold get_this. now rewrite Hst.
Qed.

Lemma hook_after_app b t t' : hook_after b (t ++ t') = hook_after (hook_after b t) t'.
Proof. apply fold_left_app. Qed.

Lemma hook_after_cons b e t : hook_after b (e :: t) = hook_after (hook_step b e) t.
Proof. reflexivity. Qed.

Lemma hook_after_answers B this events :
  forall b, hook_after b (flat_map (listener_answers B this) events) = b.
Proof.
  induction events as [| d r IH]; intros b; cbn [flat_map]; [reflexivity |].
  rewrite hook_after_app, IH. unfold listener_answers.
  now destruct (getSecurityInfo B (requestId d)).
Qed.

Lemma fetch_hook_free B url init : preserves hook_free (fetch B url init).
Proof.
  intros st Hfree. unfold hook_free in *.
  destruct (fetch_cases B url init st) as [(e & ->) | (this & fetchUrl & Hst & Hco & Hs)];
    [exact Hfree |].
  rewrite (fetch_run B url init st this fetchUrl Hst Hco Hs). cbn [snd set_trace trace].
  unfold hook_installed in *. rewrite hook_after_app, Hfree.
  destruct (has_permission B).
  - cbn [app]. rewrite !hook_after_cons. cbn [hook_step].
    rewrite hook_after_app, hook_after_answers, hook_after_app. reflexivity.
  - cbn [app]. now destruct (tabs_sendMessage B _ _).
Qed.

Lemma emit_hook_free e :
  (forall b, hook_step b e = b) -> preserves hook_free (emit e).
Proof.
  intros He st H. unfold hook_free, hook_installed in *. cbn [emit snd set_trace trace].
  rewrite hook_after_app, H. cbn. apply He.
Qed.

Lemma set_this_hook_free this : preserves hook_free (set_this this).
Proof. now intros st H. Qed.

Lemma new_NativeAppService_hook_free : preserves hook_free new_NativeAppService.
Proof.
  intros st H. unfold hook_free, hook_installed in *.
  cbn [new_NativeAppService snd set_nativeAppService set_channels set_trace trace].
  now rewrite hook_after_app, H.
Qed.

Lemma on_channel_hook_free A (f : nat -> M A) :
  (forall id, preserves hook_free (f id)) -> preserves hook_free (on_channel f).
Proof.
  intros Hf st H. unfold on_channel.
  destruct (nativeAppService st); [now apply Hf | assumption].
Qed.

Lemma race_hook_free A E (op : M A) timeout error :
  preserves hook_free op -> preserves hook_free (race E op timeout error).
Proof.
  intros Hop st H. unfold race.
  specialize (Hop (set_races (S (races st)) st) H).
  destruct (op (set_races (S (races st)) st)) as [r st'].
  now destruct (timer_first E (races st)).
Qed.

Lemma in_browser_hook_free A E (method : FetchEnv -> M A) :
  (forall B, preserves hook_free (method B)) ->
  preserves hook_free (in_browser E method).
Proof. intros Hm st H. unfold in_browser. now apply Hm. Qed.

Lemma close_hook_free : preserves hook_free close.
Proof.
  intros st H. unfold close. destruct (nativeAppService st); [| assumption].
  now apply emit_hook_free.
Qed.

Ltac hook_free_step :=
  first
    [ preserves_step
    | match goal with
      | |- preserves _ (emit _) => apply emit_hook_free; reflexivity
      | |- preserves _ (set_this _) => apply set_this_hook_free
      | |- preserves _ new_NativeAppService => apply new_NativeAppService_hook_free
      | |- preserves _ (on_channel _) => apply on_channel_hook_free; intros ?
      | |- preserves _ (race _ _ _ _) => apply race_hook_free
      | |- preserves _ (in_browser _ _) => apply in_browser_hook_free; intros ?
      | |- preserves _ close => apply close_hook_free
      | |- preserves _ (fetch _ _ _) => apply fetch_hook_free
      end ].

Lemma enableCors_hook_free B action url : preserves hook_free (enableCors B action url).
Proof. unfold enableCors. repeat hook_free_step. Qed.

(** X7. [fetch] never leaves its listener installed: from a state in
    which no [onHeadersReceived] listener is installed, whatever the
    browser answers and whether [fetch] returns or throws (also when the
    relayed fetch is rejected), none is installed when [fetch] is done;
    and so it is after every session of [fetch] and [enableCors]
    calls. *)
Theorem fetch_releases_listener st :
  hook_installed (trace st) = false ->
  (forall B url init, hook_installed (trace (snd (fetch B url init st))) = false)
  /\ (forall calls, hook_installed (trace (run_session calls st)) = false).
Proof.
  intros Hfree. split.
  - intros B url init. now apply fetch_hook_free.
  - intros calls. revert st Hfree. unfold run_session.
    induction calls as [| c calls IH]; intros st Hfree; cbn [fold_left];
      [exact Hfree |].
    apply IH. destruct c as [B url init | B action url]; cbn [run_call].
    + now apply fetch_hook_free.
    + now apply enableCors_hook_free.
Qed.

(** X8. The messages of [fetch]: a call sends at most one message to the
    content script, and only once the URL has passed both checks; the
    message goes to the tab of the page, names the coerced URL (an
    [https] URL of the trusted origin), and carries the mode and
    credentials that the object fixes: [cors] and [include] when a CORS
    origin is set, [same-origin] otherwise, whatever [init] says. *)
Theorem fetch_messages B url init st :
  exists effects,
    trace (snd (fetch B url init st)) = trace st ++ effects
    /\ length (filter is_message effects) <= 1
    /\ forall tabId message,
         In (TabsSendMessage tabId message) effects ->
         exists this fetchUrl,
           webServerService st = Some this
           /\ coerceOrigin (or_else (corsOrigin this) (senderOrigin this)) url
              = Return fetchUrl
           /\ startsWith (toLocaleLowerCase fetchUrl) "https://" = true
           /\ tabId = senderTabId this
           /\ msg_action message = "fetch"
           /\ msg_fetchUrl message = fetchUrl
           /\ init_mode (msg_init message)
              = Some (if truthy_string (corsOrigin this) then "cors" else "same-origin")
           /\ init_credentials (msg_init message)
              = Some (if truthy_string (corsOrigin this) then "include"
                      else "same-origin")
           /\ init_method (msg_init message)
              = match init with Some i => init_method i | None => None end
           /\ init_headers (msg_init message)
              = match init with Some i => init_headers i | None => None end
           /\ init_body (msg_init message)
              = match init with Some i => init_body i | None => None end.
Proof.
  destruct (fetch_cases B url init st) as [(e & ->) | (this & fetchUrl & Hst & Hco & Hs)].
  - exists []. cbn [snd]. rewrite app_nil_r. split; [reflexivity |].
    split; [cbn; lia | intros ? ? []].
  - rewrite (fetch_run B url init st this fetchUrl Hst Hco Hs). cbn [snd set_trace trace].
    eexists. split; [reflexivity |].
    assert (forall l, filter is_message
                        (flat_map (listener_answers B this) l) = []) as Hanswers.
    { induction l as [| d r IH]; [reflexivity |]. cbn [flat_map].
      rewrite filter_app, IH, app_nil_r. unfold listener_answers.
      now destruct (getSecurityInfo B (requestId d)). }
    assert (forall tabId message l,
              ~ In (TabsSendMessage tabId message)
                  (flat_map (listener_answers B this) l)) as Hnone.
    { intros tabId message l Hin.
      assert (In (TabsSendMessage tabId message)
                (filter is_message (flat_map (listener_answers B this) l))) as H
        by (apply filter_In; now split).
      now rewrite Hanswers in H. }
    split.
    + destruct (has_permission B); cbn [app filter is_message];
        rewrite ?filter_app, ?Hanswers;
        destruct (tabs_sendMessage B _ _); cbn; lia.
    + intros tabId message Hin.
      assert (TabsSendMessage tabId message
              = TabsSendMessage (senderTabId this) (fetch_message this fetchUrl init))
        as Heq.
      { destruct (has_permission B); cbn [app In] in Hin;
          repeat match goal with
                 | H : _ \/ _ |- _ => destruct H as [H | H]
                 | H : In _ (_ ++ _) |- _ => apply in_app_or in H
                 | H : In _ (_ :: _) |- _ => cbn [In] in H
                 | H : In _ [] |- _ => destruct H
                 | H : In _ (flat_map _ _) |- _ => now apply Hnone in H
                 | H : In _ (match ?x with _ => _ end) |- _ => destruct x; cbn in H
                 | H : False |- _ => destruct H
                 | H : _ = TabsSendMessage _ _ |- _ =>
                     first [discriminate H | now rewrite H]
                 end. }
      injection Heq as -> ->. exists this, fetchUrl.
      split; [exact Hst |]. split; [exact Hco |]. split; [exact Hs |].
      unfold fetch_message, with_mode.
      destruct (truthy_string (corsOrigin this)); destruct init;
        repeat split; reflexivity.
Qed.

Lemma fetch_releases_listener_witness :
  let B := mkFetchEnv (Return true)
             (fun _ => [mkDetails "1" (Some Sample.foreign_allow_origin)])
             (fun _ => Return (mkSecurityInfo "secure" [Sample.certificate_a]))
             (fun _ _ => Throw (new_Error (OtherError "Error") (Some "no receiver"))) in
  trace (snd (fetch B "/document" None (Sample.state_of Sample.cors_service)))
  = [PermissionsContains ["webRequest"; "webRequestBlocking"];
     AddListener ["https://cors.example/document"];
     TabsSendMessage 7
       (fetch_message Sample.cors_service "https://cors.example/document" None);
     BlockingResponse true;
     RemoveListener]
  /\ hook_installed
       (trace (snd (fetch B "/document" None (Sample.state_of Sample.cors_service))))
     = false
  /\ hook_installed
       (trace (run_session
                 [CallEnableCors (Sample.plain_browser Sample.cors_config) SIGN
                    "/cors.json";
                  CallFetch B "/document" None]
                 (Sample.state_of Sample.service)))
     = false.
Proof.
  cbv zeta. split; [vm_compute; reflexivity |].
  split.
  - destruct (fetch_releases_listener (Sample.state_of Sample.cors_service))
      as [Hcall _]; [reflexivity |].
    apply Hcall.
  - destruct (fetch_releases_listener (Sample.state_of Sample.service))
      as [_ Hsession]; [reflexivity |].
    apply Hsession.
Defined.

(** X9. A rejection of the relayed fetch is what [fetch] throws, also
    when the response-inspection hook has recorded an error by then; and
    a relayed fetch that resolves with [undefined] makes [fetch] throw
    the [TypeError] of reading a property of [undefined]. *)
Theorem fetch_rejected B url init st this fetchUrl :
  webServerService st = Some this ->
  coerceOrigin (or_else (corsOrigin this) (senderOrigin this)) url = Return fetchUrl ->
  startsWith (toLocaleLowerCase fetchUrl) "https://" = true ->
  (forall e,
     tabs_sendMessage B (senderTabId this) (fetch_message this fetchUrl init) = Throw e ->
     fst (fetch B url init st) = Throw e)
  /\ (tabs_sendMessage B (senderTabId this) (fetch_message this fetchUrl init)
      = Return None ->
      fst (fetch B url init st) = Throw (new_Error TypeError None)).
Proof.
  intros Hst Hco Hs.
  rewrite (fetch_run B url init st this fetchUrl Hst Hco Hs). cbn [fst].
  split; [intros e -> | intros ->]; reflexivity.
Qed.

Lemma fetch_rejected_witness :
  let e := new_Error (OtherError "Error") (Some "no receiver") in
  let B := mkFetchEnv (Return true)
             (fun _ => [mkDetails "1" (Some Sample.foreign_allow_origin)])
             (fun _ => Return (mkSecurityInfo "secure" [Sample.certificate_a]))
             (fun _ _ => Throw e) in
  option_map err_class (hook_error B Sample.cors_service "https://cors.example/document")
  = Some OriginMismatchError
  /\ fst (fetch B "/document" None (Sample.state_of Sample.cors_service)) = Throw e.
Proof.
  cbv zeta. split; [vm_compute; reflexivity |].
  apply (fetch_rejected _ "/document" None (Sample.state_of Sample.cors_service)
           Sample.cors_service "https://cors.example/document");
    vm_compute; reflexivity.
Defined.

Lemma listener_assigns_same_origin B this events :
  truthy_string (corsOrigin this) = false ->
  fold_left (listener_assigns B this) events None = None.
Proof.
  intros Hcors. induction events as [| d r IH]; [reflexivity |].
  cbn [fold_left]. unfold listener_assigns at 2. rewrite Hcors. cbn [andb].
  now destruct (getSecurityInfo B (requestId d)).
Qed.

(** X11. Without a CORS origin the response headers play no part: the
    hook records no error, whatever headers and security info the
    browser hands it and whether or not it is installed, and a call of
    [fetch] whose URL has passed the coercion against the origin of the
    page and the HTTPS check returns the relayed response when it is ok
    and throws [ServerRejectedError] carrying it when it is not. *)
Theorem fetch_same_origin B url init st this fetchUrl response :
  webServerService st = Some this ->
  truthy_string (corsOrigin this) = false ->
  coerceOrigin (senderOrigin this) url = Return fetchUrl ->
  startsWith (toLocaleLowerCase fetchUrl) "https://" = true ->
  tabs_sendMessage B (senderTabId this) (fetch_message this fetchUrl init)
  = Return (Some response) ->
  hook_error B this fetchUrl = None
  /\ init_mode (msg_init (fetch_message this fetchUrl init)) = Some "same-origin"
  /\ fst (fetch B url init st)
     = if ok response then Return (mkFetchResult None response)
       else Throw (mkError ServerRejectedError None (Some response)).
Proof.
  intros Hst Hcors Hco Hs Hsend.
  assert (or_else (corsOrigin this) (senderOrigin this) = senderOrigin this) as Hbase.
  { unfold or_else, truthy_string in *. destruct (corsOrigin this) as [o |];
      [| reflexivity].
    now destruct (String.eqb o EmptyString). }
  assert (hook_error B this fetchUrl = None) as Hhook.
  { unfold hook_error. destruct (has_permission B); [| reflexivity].
    now apply listener_assigns_same_origin. }
  split; [exact Hhook |]. split.
  - unfold fetch_message. now rewrite Hcors.
  - rewrite (fetch_run B url init st this fetchUrl Hst).
    + cbn [fst]. rewrite Hsend, Hhook. unfold settle. now destruct (ok response).
    + now rewrite Hbase.
    + exact Hs.
Qed.

Lemma fetch_same_origin_witness :
  let B := Sample.inspecting_browser Sample.foreign_allow_origin Sample.certificate_a
             Sample.rejected in
  hook_error B Sample.service "https://page.example/sign/finalize" = None
  /\ init_mode (msg_init (fetch_message Sample.service
                            "https://page.example/sign/finalize"
                            (Some (mkRequestInit None None None (Some "no-cors") None))))
     = Some "same-origin"
  /\ fst (fetch B "/sign/finalize"
            (Some (mkRequestInit None None None (Some "no-cors") None))
            (Sample.state_of Sample.service))
     = Throw (mkError ServerRejectedError None (Some Sample.rejected)).
Proof.
  cbv zeta.
  apply (fetch_same_origin
           (Sample.inspecting_browser Sample.foreign_allow_origin Sample.certificate_a
              Sample.rejected)
           "/sign/finalize" (Some (mkRequestInit None None None (Some "no-cors") None))
           (Sample.state_of Sample.service) Sample.service
           "https://page.example/sign/finalize" Sample.rejected);
    vm_compute; reflexivity.
Defined.

(* ================================================================== *)
(** * More on [enableCors] *)
(* ================================================================== *)

(** X12. What a returning [enableCors] has done: the action is
    AUTHENTICATE or SIGN; the configuration URL, coerced against the
    origin of the page, was fetched with [fetch] and answered with an ok
    response; the body of that response holds, under the property of the
    action, a value with a non-zero length that [new URL] accepts; and
    the state is the one [fetch] left, with [corsOrigin] set to the
    origin of that URL, path, query and fragment dropped. *)
Theorem enableCors_sets_origin B action corsConfigUrl st st' :
  enableCors B action corsConfigUrl st = (Return tt, st') ->
  exists prop this configUrl response st1 value u,
    originProps action = Some prop
    /\ webServerService st = Some this
    /\ coerceOrigin (senderOrigin this) corsConfigUrl = Return configUrl
    /\ fetch B configUrl None st = (Return response, st1)
    /\ ok (relayed response) = true
    /\ get (body (relayed response)) prop = Return value
    /\ truthy (optional_length value) = true
    /\ Url.new_URL (js_String value) None = Some u
    /\ st' = set_webServerService
               (Some (mkService (fingerprints this) (senderTabId this)
                                (senderOrigin this) (Some (Url.origin u)))) st1.
Proof.
  unfold enableCors. destruct (originProps action) as [prop |]; [| discriminate].
  unfold bind at 1. unfold get_this at 1.
  destruct (webServerService st) as [this |] eqn:Hst; [| discriminate].
  unfold bind at 1. unfold lift at 1.
  destruct (coerceOrigin (senderOrigin this) corsConfigUrl) as [configUrl | e] eqn:Hco;
    [| discriminate].
  unfold bind at 1.
  pose proof (fetch_keeps_service B configUrl None st) as Hkeeps.
  destruct (fetch B configUrl None st) as [[response | e] st1] eqn:Hfetch;
    [| discriminate].
  cbn [snd] in Hkeeps. rewrite Hst in Hkeeps.
  assert (ok (relayed response) = true) as Hok.
  { destruct (fetch_cases B configUrl None st)
      as [(e & He) | (this' & fetchUrl & Hst' & Hco' & Hs)]; [congruence |].
    rewrite (fetch_run B configUrl None st this' fetchUrl Hst' Hco' Hs) in Hfetch.
    injection Hfetch as Hc _. destruct (tabs_sendMessage B _ _) as [[r |] | e];
      try discriminate.
    unfold settle in Hc. destruct (ok r) eqn:Hr; cbn [negb] in Hc.
    - destruct (hook_error B this' fetchUrl); [discriminate |].
      injection Hc as <-. exact Hr.
    - discriminate. }
  unfold bind at 1. unfold lift at 1.
  destruct (get (body (relayed response)) prop) as [value | e] eqn:Hget;
    [| discriminate].
  destruct (truthy (optional_length value)) eqn:Hlen; cbn [negb]; [| discriminate].
  destruct (Url.new_URL (js_String value) None) as [u |] eqn:Hu; [| discriminate].
  unfold bind, get_this, set_this. rewrite Hkeeps. intros [= <-].
  exists prop, this, configUrl, response, st1, value, u.
  repeat (split; [first [reflexivity | assumption] |]).
  reflexivity.
Qed.

Lemma enableCors_sets_origin_witness :
  exists prop this configUrl response st1 value u,
    originProps SIGN = Some prop
    /\ webServerService (Sample.state_of Sample.service) = Some this
    /\ coerceOrigin (senderOrigin this) "/cors.json" = Return configUrl
    /\ fetch (Sample.plain_browser Sample.cors_config) configUrl None
         (Sample.state_of Sample.service) = (Return response, st1)
    /\ ok (relayed response) = true
    /\ get (body (relayed response)) prop = Return value
    /\ truthy (optional_length value) = true
    /\ Url.new_URL (js_String value) None = Some u
    /\ snd (enableCors (Sample.plain_browser Sample.cors_config) SIGN "/cors.json"
              (Sample.state_of Sample.service))
       = set_webServerService
           (Some (mkService (fingerprints this) (senderTabId this)
                            (senderOrigin this) (Some (Url.origin u)))) st1.
Proof.
  apply (enableCors_sets_origin (Sample.plain_browser Sample.cors_config) SIGN
           "/cors.json" (Sample.state_of Sample.service)).
  vm_compute. reflexivity.
Defined.

(** A second [enableCors]: the configuration URL is coerced against the
    origin of the page, and [fetch] then coerces it against the CORS
    origin.  The URL that the first coercion returns is absolute, so the
    second finds the origin of the page again, which is not the CORS
    origin.  That the URL class gives a returned URL the same origin
    when it is parsed against another base is the hypothesis on the
    platform; nothing else is used of the class. *)
Lemma enableCors_refused B action corsConfigUrl st this o :
  webServerService st = Some this ->
  corsOrigin this = Some o ->
  truthy_string (Some o) = true ->
  o <> senderOrigin this ->
  (forall url configUrl u',
     coerceOrigin (senderOrigin this) url = Return configUrl ->
     Url.new_URL configUrl (Some o) = Some u' ->
     Url.origin u' = senderOrigin this) ->
  exists e, enableCors B action corsConfigUrl st = (Throw e, st).
Proof.
  intros Hst Hcors Htruthy Hne Hplatform.
  unfold enableCors. destruct (originProps action) as [prop |]; [| eexists; reflexivity].
  unfold bind at 1. unfold get_this at 1. rewrite Hst.
  unfold bind at 1. unfold lift at 1.
  destruct (coerceOrigin (senderOrigin this) corsConfigUrl) as [configUrl | e] eqn:Hco;
    [| eexists; reflexivity].
  unfold bind at 1.
  destruct (fetch_cases B configUrl None st)
    as [(e & ->) | (this' & fetchUrl & Hst' & Hco' & _)]; [eexists; reflexivity |].
  exfalso. assert (this' = this) by congruence. subst this'.
  rewrite Hcors in Hco'.
  assert (or_else (Some o) (senderOrigin this) = o) as Hbase.
  { unfold or_else, truthy_string in *. now destruct (String.eqb o EmptyString). }
  rewrite Hbase in Hco'.
  destruct (coerceOrigin_inv _ _ _ Hco') as (u' & Hu' & Ho' & _).
  apply Hne. rewrite <- Ho'. exact (Hplatform corsConfigUrl configUrl u' Hco Hu').
Qed.

(** X13. A CORS origin other than the origin of the page, once set, is
    final, on a platform whose URL class gives a URL that [coerceOrigin]
    returned for the origin of the page that same origin when it is
    parsed against the CORS origin as base.  [enableCors] cannot be run
    again: the call throws with the state as it was, no browser call
    made.  So the object stays as it is through every session of [fetch]
    and [enableCors] calls. *)
Theorem enableCors_only_once st this o :
  webServerService st = Some this ->
  corsOrigin this = Some o ->
  truthy_string (Some o) = true ->
  o <> senderOrigin this ->
  (forall url configUrl u',
     coerceOrigin (senderOrigin this) url = Return configUrl ->
     Url.new_URL configUrl (Some o) = Some u' ->
     Url.origin u' = senderOrigin this) ->
  (forall B action corsConfigUrl,
     exists e, enableCors B action corsConfigUrl st = (Throw e, st))
  /\ (forall calls, webServerService (run_session calls st) = Some this).
Proof.
  intros Hst Hcors Htruthy Hne Hplatform. split.
  - intros B action corsConfigUrl.
    now apply enableCors_refused with (this := this) (o := o).
  - intros calls. revert st Hst. unfold run_session.
    induction calls as [| c calls IH]; intros st Hst; cbn [fold_left]; [exact Hst |].
    apply IH. destruct c as [B url init | B action url]; cbn [run_call].
    + now rewrite fetch_keeps_service.
    + destruct (enableCors_refused B action url st this o Hst Hcors Htruthy Hne
                  Hplatform) as (e & ->).
      exact Hst.
Qed.

Lemma enableCors_only_once_witness :
  (exists e,
     enableCors (Sample.plain_browser Sample.cors_config) SIGN "/cors.json"
       (Sample.state_of Sample.cors_service)
     = (Throw e, Sample.state_of Sample.cors_service))
  /\ webServerService
       (run_session
          [CallFetch (Sample.plain_browser Sample.document) "/document" None;
           CallEnableCors (Sample.plain_browser Sample.cors_config) AUTHENTICATE
             "https://page.example/cors.json"]
          (Sample.state_of Sample.cors_service))
     = Some Sample.cors_service.
Proof.
  destruct (enableCors_only_once (Sample.state_of Sample.cors_service)
              Sample.cors_service "https://cors.example") as [Hcall Hsession].
  - reflexivity.
  - reflexivity.
  - reflexivity.
  - discriminate.
  - intros url configUrl u' Hco Hu'.
    destruct (coerceOrigin_inv _ _ _ Hco) as (u & Hu & Ho & ->).
    rewrite (new_URL_href url (Some (senderOrigin Sample.cors_service)) u
               (Some "https://cors.example") Hu) in Hu'.
    + injection Hu' as <-. exact Ho.
    + vm_compute. discriminate.
  - split; [apply Hcall | apply Hsession].
Defined.

(* ================================================================== *)
(** * More on the signing flow *)
(* ================================================================== *)

Lemma sign_until_signature_hook_free E a :
  preserves hook_free (sign_until_signature E a).
Proof.
  unfold sign_until_signature, connect, send.
  repeat (hook_free_step
          || match goal with
             | |- preserves _ (enableCors _ _ _) => apply enableCors_hook_free
             end).
Qed.

Lemma finalize_hook_free E a s : preserves hook_free (finalize E a s).
Proof. unfold finalize. repeat hook_free_step. Qed.

(** ** Runs that return *)

Lemma bind_Return A B (m : M A) (k : A -> M B) st b st' :
  bind m k st = (Return b, st') ->
  exists a st1, m st = (Return a, st1) /\ k a st1 = (Return b, st').
Proof.
  unfold bind. destruct (m st) as [[a | e] st1]; [eauto | discriminate].
Qed.

Lemma race_Return A E (op : M A) timeout error st a st' :
  race E op timeout error st = (Return a, st') ->
  timer_first E (races st) = false
  /\ op (set_races (S (races st)) st) = (Return a, st').
Proof.
  unfold race. destruct (op (set_races (S (races st)) st)) as [r st1].
  destruct (timer_first E (races st)); [discriminate |].
  intros [= -> ->]. now split.
Qed.

Lemma fetch_Return B url init st r st' :
  fetch B url init st = (Return r, st') ->
  ok (relayed r) = true /\ certificateInfo r = None.
Proof.
  intros Hfetch.
  destruct (fetch_cases B url init st)
    as [(e & He) | (this & fetchUrl & Hst & Hco & Hs)]; [congruence |].
  rewrite (fetch_run B url init st this fetchUrl Hst Hco Hs) in Hfetch.
  injection Hfetch as Hc _.
  destruct (tabs_sendMessage B _ _) as [[response |] | e]; try discriminate.
  unfold settle in Hc. destruct (ok response) eqn:Hok; cbn [negb] in Hc.
  - destruct (hook_error B this fetchUrl); [discriminate |].
    injection Hc as <-. now split.
  - discriminate.
Qed.

Section MoreSignFacts.

Variable Serialized : Type.
Variable serializeError : JsError -> Serialized.

(** X15. A signing flow in which no timer fires first leaves no listener
    installed: from a state in which no [onHeadersReceived] listener is
    installed, when every race of the flow is won by its operation, none
    is installed when [sign] is done, whatever the browser and the
    native application do.  (A request that loses its race is left
    pending by the code, its listener with it.) *)
Theorem sign_releases_listener E a st :
  (forall n, timer_first E n = false) ->
  hook_installed (trace st) = false ->
  hook_installed (trace (snd (sign serializeError E a st))) = false.
Proof.
  intros _. revert st. change (preserves hook_free (sign serializeError E a)).
  unfold sign, sign_try.
  repeat (hook_free_step
          || match goal with
             | |- preserves _ (sign_until_signature _ _) =>
                 apply sign_until_signature_hook_free
             | |- preserves _ (finalize _ _ _) => apply finalize_hook_free
             end).
Qed.

Lemma sign_until_signature_Return E a st signed st1 :
  sign_until_signature E a st = (Return signed, st1) ->
  ok (relayed (prepareDocumentResult signed)) = true
  /\ truthy (signature signed) = true.
Proof.
  unfold sign_until_signature. intros H.
  repeat match type of H with
         | bind _ _ _ = (Return _, _) =>
             let E1 := fresh "Hstep" in
             apply bind_Return in H; destruct H as (? & ? & E1 & H)
         | (if ?b then _ else _) _ = (Return _, _) =>
             let Hb := fresh "Hcond" in destruct b eqn:Hb
         | throw _ _ = (Return _, _) => discriminate H
         end.
  unfold ret in H. injection H as <- <-. cbn [prepareDocumentResult signature].
  split.
  - match goal with
    | Hr : race _ (in_browser _ _) _ _ _ = (Return _, _) |- _ =>
        apply race_Return in Hr; destruct Hr as [_ Hr]; unfold in_browser in Hr;
        now apply fetch_Return in Hr
    end.
  - match goal with
    | Hc : negb (truthy ?s) = false |- truthy ?s = true =>
        now apply negb_false_iff in Hc
    end.
Qed.

(** X16. [sign] reports success only for a flow in which both requests to
    the server were answered with an ok response and the native
    application gave a signature: the response of the success result is
    the relayed response to the finalize request, and it is ok. *)
Theorem sign_success_is_ok E a st response :
  fst (sign serializeError E a st) = Return (SignSuccess response) ->
  exists signed st1 result st2,
    sign_until_signature E a st = (Return signed, st1)
    /\ ok (relayed (prepareDocumentResult signed)) = true
    /\ truthy (signature signed) = true
    /\ timer_first E (races st1) = false
    /\ fetch (fetch_env E (fetches st1)) (postFinalizeSigningUrl a)
         (Some (finalize_init a signed))
         (set_fetches (S (fetches st1)) (set_races (S (races st1)) st1))
       = (Return result, st2)
    /\ response = relayed result
    /\ ok response = true.
Proof.
  unfold sign. rewrite finally_fst by apply close_returns.
  unfold try_catch, sign_try.
  destruct (bind _ _ st) as [[r | e] st3] eqn:Htry; cbn [fst]; [| discriminate].
  intros [= ->].
  apply bind_Return in Htry. destruct Htry as (signed & st1 & Hsigned & Htry).
  apply bind_Return in Htry. destruct Htry as (result & st2 & Hfinal & Htry).
  unfold ret in Htry. injection Htry as <- _.
  destruct (sign_until_signature_Return _ _ _ _ _ Hsigned) as [Hprepared Hsignature].
  unfold finalize in Hfinal. apply race_Return in Hfinal.
  destruct Hfinal as [Htimer Hfetch]. unfold in_browser in Hfetch.
  cbn [fetches set_races] in Hfetch.
  exists signed, st1, result, st2.
  repeat (split; [first [reflexivity | assumption] |]).
  now apply fetch_Return in Hfetch.
Qed.

(** X17. A finalize request that loses the race against its timer makes
    [sign] return the failure result of a [ServerTimeoutError] whose
    message names the finalize URL as it was given, whatever the server
    answers afterwards. *)
Theorem sign_finalize_timeout E a signed st :
  sign_until_signature E a initial_state = (Return signed, st) ->
  timer_first E (races st) = true ->
  fst (sign serializeError E a initial_state)
  = Return (SignFailure
              (serializeError
                 (new_Error ServerTimeoutError
                    (Some ("server failed to respond in time - POST "
                           ++ postFinalizeSigningUrl a)%string)))).
Proof.
  intros Hpre Htimer.
  unfold sign. rewrite finally_fst by apply close_returns.
  unfold try_catch, sign_try. unfold bind at 1. rewrite Hpre.
  unfold bind at 1. unfold finalize, race.
  destruct (in_browser _ _ _) as [c st2]. now rewrite Htimer.
Qed.

(** X18. The prepare URL must be absolute, although [fetch] would resolve
    a relative one against the origin of the page: [sign] reads the
    origin for the native application with [new URL(postPrepareSigningUrl)],
    without a base.  When that throws (the services constructed, no CORS
    configuration asked for, the native application connected), [sign]
    returns the failure result of the [TypeError]; the channel has been
    opened, connected and closed, and nothing has been sent to the
    native application or to the server. *)
Theorem sign_needs_absolute_prepare_url E a service status :
  new_WebServerService (sender a) = Return service ->
  truthy_string (getCorsConfigUrl a) = false ->
  native_connect E 0 = Return status ->
  Url.new_URL (postPrepareSigningUrl a) None = None ->
  sign serializeError E a initial_state
  = (Return (SignFailure (serializeError (new_Error TypeError None))),
     mkState (Some service) (Some 0)
       [NativeNew 0; NativeConnect 0; NativeClose 0] 0 1 0).
Proof.
  intros Hservice Hcors Hconnect Hurl.
  assert (forall st,
            match getCorsConfigUrl a with
            | Some corsConfigUrl =>
                when (truthy_string (getCorsConfigUrl a))
                  (in_browser E (fun B => enableCors B SIGN corsConfigUrl))
            | None => ret tt
            end st = (Return tt, st)) as Hskip.
  { intros st. rewrite Hcors. now destruct (getCorsConfigUrl a). }
  assert (sign_until_signature E a initial_state
          = (Throw (new_Error TypeError None),
             mkState (Some service) (Some 0) [NativeNew 0; NativeConnect 0] 0 1 0))
    as Htry.
  { unfold sign_until_signature.
    unfold bind at 1. unfold lift at 1. rewrite Hservice.
    unfold bind at 1. unfold set_this at 1.
    unfold bind at 1. unfold new_NativeAppService at 1.
    unfold bind at 1. rewrite Hskip.
    unfold bind at 1. unfold connect at 1, on_channel.
    cbn [initial_state set_webServerService set_nativeAppService set_channels
         set_trace webServerService nativeAppService trace fetches channels races app].
    unfold bind at 1. unfold emit at 1. unfold lift at 1. rewrite Hconnect.
    unfold bind at 1. unfold lift at 1. unfold origin_of at 1. rewrite Hurl.
    reflexivity. }
  unfold sign, try_finally, try_catch, sign_try. unfold bind at 1.
  rewrite Htry. reflexivity.
Qed.

End MoreSignFacts.

Lemma sign_releases_listener_witness :
  hook_installed
    (trace (snd (sign Sample.serialize
                   (mkEnv (fun _ => Sample.inspecting_browser Sample.foreign_allow_origin
                                      Sample.certificate_a Sample.prepared)
                      (fun _ => Return (JObj [("version", JStr "2.0.0")]))
                      Sample.native_app (fun _ => false))
                   Sample.args initial_state)))
  = false.
Proof.
  apply (sign_releases_listener JsError Sample.serialize
           (mkEnv (fun _ => Sample.inspecting_browser Sample.foreign_allow_origin
                              Sample.certificate_a Sample.prepared)
              (fun _ => Return (JObj [("version", JStr "2.0.0")]))
              Sample.native_app (fun _ => false))
           Sample.args initial_state).
  - intros n. reflexivity.
  - reflexivity.
Defined.

Lemma sign_success_is_ok_witness :
  exists signed st1 result st2,
    sign_until_signature (Sample.flow Sample.finalized None) Sample.args initial_state
    = (Return signed, st1)
    /\ ok (relayed (prepareDocumentResult signed)) = true
    /\ truthy (signature signed) = true
    /\ timer_first (Sample.flow Sample.finalized None) (races st1) = false
    /\ fetch (fetch_env (Sample.flow Sample.finalized None) (fetches st1))
         (postFinalizeSigningUrl Sample.args)
         (Some (finalize_init Sample.args signed))
         (set_fetches (S (fetches st1)) (set_races (S (races st1)) st1))
       = (Return result, st2)
    /\ Sample.finalized = relayed result
    /\ ok Sample.finalized = true.
Proof.
  apply (sign_success_is_ok JsError Sample.serialize (Sample.flow Sample.finalized None) Sample.args
           initial_state Sample.finalized).
  vm_compute. reflexivity.
Defined.

Lemma sign_needs_absolute_prepare_url_witness :
  sign Sample.serialize (Sample.flow Sample.finalized None)
    (mkSignArgs "/sign/prepare" "/sign/finalize" None [] 120000 20000 Sample.page None)
    initial_state
  = (Return (SignFailure (Sample.serialize (new_Error TypeError None))),
     mkState (Some Sample.service) (Some 0)
       [NativeNew 0; NativeConnect 0; NativeClose 0] 0 1 0).
Proof.
  apply (sign_needs_absolute_prepare_url JsError Sample.serialize
           (Sample.flow Sample.finalized None)
           (mkSignArgs "/sign/prepare" "/sign/finalize" None [] 120000 20000
              Sample.page None)
           Sample.service (JObj [("version", JStr "2.0.0")]));
    vm_compute; reflexivity.
Defined.

Lemma sign_finalize_timeout_witness :
  fst (sign Sample.serialize (Sample.flow Sample.finalized (Some 3)) Sample.args
         initial_state)
  = Return (SignFailure
              (Sample.serialize
                 (new_Error ServerTimeoutError
                    (Some "server failed to respond in time - POST https://page.example/sign/finalize")))).
Proof.
  let r := eval vm_compute in
       (sign_until_signature (Sample.flow Sample.finalized (Some 3)) Sample.args
          initial_state) in
  lazymatch r with
  | (Return ?signed, ?st) =>
      apply (sign_finalize_timeout JsError Sample.serialize
               (Sample.flow Sample.finalized (Some 3)) Sample.args signed st)
  end; vm_compute; reflexivity.
Defined.

(** ** The channels of a flow *)

Lemma emit_native_is c n e : preserves (native_is c n) (emit e).
Proof. now intros st H. Qed.

Lemma set_this_native_is c n this : preserves (native_is c n) (set_this this).
Proof. now intros st H. Qed.

Lemma on_channel_native_is c n A (f : nat -> M A) :
  (forall id, preserves (native_is c n) (f id)) ->
  preserves (native_is c n) (on_channel f).
Proof.
  intros Hf st H. unfold on_channel.
  destruct (nativeAppService st); [now apply Hf | assumption].
Qed.

Lemma race_native_is c n A E (op : M A) timeout error :
  preserves (native_is c n) op -> preserves (native_is c n) (race E op timeout error).
Proof.
  intros Hop st H. unfold race.
  specialize (Hop (set_races (S (races st)) st) H).
  destruct (op (set_races (S (races st)) st)) as [r st'].
  now destruct (timer_first E (races st)).
Qed.

Lemma in_browser_native_is c n A E (method : FetchEnv -> M A) :
  (forall B, preserves (native_is c n) (method B)) ->
  preserves (native_is c n) (in_browser E method).
Proof. intros Hm st H. unfold in_browser. now apply Hm. Qed.

Ltac native_is_step :=
  first
    [ preserves_step
    | match goal with
      | |- preserves _ (emit _) => apply emit_native_is
      | |- preserves _ (set_this _) => apply set_this_native_is
      | |- preserves _ (on_channel _) => apply on_channel_native_is; intros ?
      | |- preserves _ (race _ _ _ _) => apply race_native_is
      | |- preserves _ (in_browser _ _) => apply in_browser_native_is; intros ?
      end ].

Lemma listener_native_is c n B fetchError details :
  preserves (native_is c n) (onHeadersReceivedListener B fetchError details).
Proof. unfold onHeadersReceivedListener. repeat native_is_step. Qed.

Lemma dispatch_native_is c n B events :
  forall fetchError, preserves (native_is c n) (dispatch B events fetchError).
Proof.
  induction events as [| d r IH]; intros fetchError; cbn [dispatch].
  - apply preserves_ret.
  - repeat (native_is_step
            || match goal with
               | |- preserves _ (onHeadersReceivedListener _ _ _) =>
                   apply listener_native_is
               | |- preserves _ (dispatch _ _ _) => apply IH
               end).
Qed.

Lemma fetch_native_is c n B url init : preserves (native_is c n) (fetch B url init).
Proof.
  unfold fetch.
  repeat (native_is_step
          || match goal with
             | |- preserves _ (dispatch _ _ _) => apply dispatch_native_is
             end).
Qed.

Lemma enableCors_native_is c n B action url :
  preserves (native_is c n) (enableCors B action url).
Proof.
  unfold enableCors.
  repeat (native_is_step
          || match goal with
             | |- preserves _ (fetch _ _ _) => apply fetch_native_is
             end).
Qed.

Lemma finalize_native_is c n E a s : preserves (native_is c n) (finalize E a s).
Proof.
  unfold finalize.
  repeat (native_is_step
          || match goal with
             | |- preserves _ (fetch _ _ _) => apply fetch_native_is
             end).
Qed.

(** What a step that returns leaves of [native_is]. *)
Lemma kept_on_Return A (P : State -> Prop) (m : M A) st a st' :
  preserves P m -> m st = (Return a, st') -> P st -> P st'.
Proof. intros Hm Hrun H. specialize (Hm st H). now rewrite Hrun in Hm. Qed.

Lemma new_NativeAppService_Return st a st' :
  new_NativeAppService st = (Return a, st') ->
  native_is (Some (channels st)) (S (channels st)) st'.
Proof. unfold new_NativeAppService. intros [= _ <-]. now split. Qed.

(** A flow that gets to the signature has created two channels and
    holds the second. *)
Lemma sign_until_signature_channels E a st signed st1 :
  sign_until_signature E a st = (Return signed, st1) ->
  native_is (Some (S (channels st))) (S (S (channels st))) st1.
Proof.
  unfold sign_until_signature, connect, send. intros H.
  apply bind_Return in H. destruct H as (service & s1 & H1 & H).
  assert (channels s1 = channels st) as C1.
  { unfold lift in H1. now injection H1 as _ <-. }
  apply bind_Return in H. destruct H as (? & s2 & H2 & H).
  assert (channels s2 = channels st) as C2.
  { unfold set_this in H2. injection H2 as _ <-. exact C1. }
  apply bind_Return in H. destruct H as (? & s3 & H3 & H).
  apply new_NativeAppService_Return in H3. rewrite C2 in H3.
  repeat match type of H with
         | bind new_NativeAppService _ _ = (Return _, _) => fail 1
         | bind ?m _ ?s = (Return _, _) =>
             let Hm := fresh "Hm" in
             let s' := fresh "s" in
             apply bind_Return in H; destruct H as (? & s' & Hm & H);
             apply (kept_on_Return _ (native_is (Some (channels st)) (S (channels st))))
               in Hm;
             [ clear H3; rename Hm into H3
             | repeat (native_is_step
                       || match goal with
                          | |- preserves _ (enableCors _ _ _) =>
                              apply enableCors_native_is
                          | |- preserves _ (fetch _ _ _) => apply fetch_native_is
                          | |- preserves _ (match ?x with _ => _ end) => destruct x
                          end)
             | exact H3 ]
         | (if ?b then _ else _) _ = (Return _, _) => destruct b
         | throw _ _ = (Return _, _) => discriminate H
         end.
  apply bind_Return in H. destruct H as (? & second & H4 & H).
  apply new_NativeAppService_Return in H4.
  destruct H3 as [_ C3]. rewrite C3 in H4. clear C3.
  repeat match type of H with
         | bind ?m _ ?s = (Return _, _) =>
             let Hm := fresh "Hm" in
             let s' := fresh "s" in
             apply bind_Return in H; destruct H as (? & s' & Hm & H);
             apply (kept_on_Return _
                      (native_is (Some (S (channels st))) (S (S (channels st)))))
               in Hm;
             [ clear H4; rename Hm into H4
             | repeat native_is_step
             | exact H4 ]
         | (if ?b then _ else _) _ = (Return _, _) => destruct b
         | throw _ _ = (Return _, _) => discriminate H
         end.
  unfold ret in H. injection H as _ <-. exact H4.
Qed.

Section ChannelFacts.

Variable Serialized : Type.
Variable serializeError : JsError -> Serialized.

(** X19. A flow that succeeds leaves its first channel open: [sign]
    creates two channels, the second in place of the first, and calls
    [close()] once, on the second; the first is never closed. *)
Theorem sign_success_leaves_first_channel E a response :
  fst (sign serializeError E a initial_state) = Return (SignSuccess response) ->
  channels (snd (sign serializeError E a initial_state)) = 2
  /\ nativeAppService (snd (sign serializeError E a initial_state)) = Some 1
  /\ closes 1 (trace (snd (sign serializeError E a initial_state))) = 1
  /\ closes 0 (trace (snd (sign serializeError E a initial_state))) = 0.
Proof.
  unfold sign. rewrite finally_fst by apply close_returns.
  unfold try_finally, try_catch.
  pose proof (sign_try_channel_inv Serialized E a initial_state) as Hinv.
  unfold sign_try in *.
  destruct (bind _ _ initial_state) as [[r | e] st3] eqn:Htry; cbn [fst];
    [| discriminate].
  intros [= ->]. cbn [snd] in Hinv.
  apply bind_Return in Htry. destruct Htry as (signed & st1 & Hsigned & Htry).
  apply bind_Return in Htry. destruct Htry as (result & st2 & Hfinal & Htry).
  unfold ret in Htry. injection Htry as _ <-.
  apply sign_until_signature_channels in Hsigned. cbn [initial_state channels] in Hsigned.
  apply (kept_on_Return _ (native_is (Some 1) 2) _ _ _ _ (finalize_native_is _ _ E a signed))
    in Hfinal; [| exact Hsigned].
  destruct Hfinal as [Hc Hn].
  destruct Hinv as [Ht _]; [split; reflexivity |].
  unfold close. rewrite Hc. cbn [emit snd set_trace trace channels nativeAppService].
  rewrite !closes_app, !(closes_none _ _ Ht). now repeat split.
Qed.

End ChannelFacts.

Lemma sign_success_leaves_first_channel_witness :
  channels (snd (sign Sample.serialize (Sample.flow Sample.finalized None)
                   Sample.args initial_state)) = 2
  /\ nativeAppService (snd (sign Sample.serialize (Sample.flow Sample.finalized None)
                              Sample.args initial_state)) = Some 1
  /\ closes 1 (trace (snd (sign Sample.serialize (Sample.flow Sample.finalized None)
                             Sample.args initial_state))) = 1
  /\ closes 0 (trace (snd (sign Sample.serialize (Sample.flow Sample.finalized None)
                             Sample.args initial_state))) = 0.
Proof.
  apply (sign_success_leaves_first_channel JsError Sample.serialize
           (Sample.flow Sample.finalized None) Sample.args Sample.finalized).
  vm_compute. reflexivity.
Defined.

(** ** What the native application is asked to sign *)

Lemma lift_Return A (c : Completion A) st a st' :
  lift c st = (Return a, st') -> c = Return a /\ st' = st.
Proof. unfold lift. intros [= -> ->]. now split. Qed.

Lemma send_Return E message c st r st' :
  nativeAppService st = Some c ->
  send E message st = (Return r, st') ->
  native_response E c message = Return r.
Proof.
  intros Hc. unfold send, on_channel. rewrite Hc.
  unfold bind, emit, lift. now intros [= -> _].
Qed.

Lemma race_send_Return E message timeout error c n st r st' :
  native_is (Some c) n st ->
  race E (send E message) timeout error st = (Return r, st') ->
  native_response E c message = Return r /\ native_is (Some c) n st'.
Proof.
  intros Hn Hrace. split.
  - apply race_Return in Hrace. destruct Hrace as [_ Hsend].
    apply (send_Return E message c) in Hsend; [assumption | apply Hn].
  - apply (kept_on_Return _ (native_is (Some c) n)) in Hrace; [assumption | | assumption].
    unfold send. repeat native_is_step.
Qed.

(** X20. The data that [sign] passes on, in a flow that gets to the
    signature: the certificate is the one the native application
    answered on the first channel; the hash and the hash algorithm that
    the native application is asked to sign, on the second channel, are
    those in the body of the response to the prepare request, and the
    certificate sent along is that same certificate; the signature is
    the one the native application answered to this request.  The
    origin named in the first request is the origin of the prepare URL,
    the origin named in the second is the origin of the page. *)
Theorem sign_signs_prepared_hash E a signed st :
  sign_until_signature E a initial_state = (Return signed, st) ->
  exists prepareOrigin certificateResponse certificate docHash hashAlgo pageOrigin
         signatureResponse,
    origin_of (postPrepareSigningUrl a) = Return prepareOrigin
    /\ native_response E 0
         (mkNativeMessage "get-signing-certificate"
            (("origin", JStr prepareOrigin) :: lang_props (lang a)))
       = Return certificateResponse
    /\ get certificateResponse "certificate" = Return certificate
    /\ truthy certificate = true
    /\ get (body (relayed (prepareDocumentResult signed))) "hash" = Return docHash
    /\ get (body (relayed (prepareDocumentResult signed))) "algorithm" = Return hashAlgo
    /\ origin_of (getSenderUrl (sender a)) = Return pageOrigin
    /\ native_response E 1
         (mkNativeMessage "sign"
            ([("doc-hash", docHash); ("hash-algo", hashAlgo);
              ("origin", JStr pageOrigin); ("user-eid-cert", certificate)]
             ++ lang_props (lang a)))
       = Return signatureResponse
    /\ get signatureResponse "signature" = Return (signature signed).
Proof.
  unfold sign_until_signature. intros H.
  apply bind_Return in H. destruct H as (service & s1 & H1 & H).
  apply lift_Return in H1. destruct H1 as [_ ->].
  apply bind_Return in H. destruct H as (? & s2 & H2 & H).
  unfold set_this in H2. injection H2 as _ <-.
  apply bind_Return in H. destruct H as (? & s3 & H3 & H).
  apply new_NativeAppService_Return in H3. cbn [channels set_webServerService initial_state] in H3.
  apply bind_Return in H. destruct H as (? & s4 & H4 & H).
  apply (kept_on_Return _ (native_is (Some 0) 1)) in H4; [| | exact H3].
  2:{ destruct (getCorsConfigUrl a); [| apply preserves_ret].
      repeat (native_is_step
              || match goal with
                 | |- preserves _ (enableCors _ _ _) => apply enableCors_native_is
                 end). }
  apply bind_Return in H. destruct H as (? & s5 & H5 & H).
  apply (kept_on_Return _ (native_is (Some 0) 1)) in H5; [| | exact H4].
  2:{ unfold connect. repeat native_is_step. }
  apply bind_Return in H. destruct H as (prepareOrigin & s6 & H6 & H).
  apply lift_Return in H6. destruct H6 as [Horigin ->].
  apply bind_Return in H. destruct H as (certificateResponse & s7 & H7 & H).
  apply (race_send_Return _ _ _ _ 0 1) in H7; [| exact H5].
  destruct H7 as [Hcertificate H7].
  apply bind_Return in H. destruct H as (error & s8 & H8 & H).
  apply lift_Return in H8. destruct H8 as [_ ->].
  destruct (truthy error); [discriminate H |].
  apply bind_Return in H. destruct H as (certificate & s9 & H9 & H).
  apply lift_Return in H9. destruct H9 as [Hget ->].
  destruct (truthy certificate) eqn:Htruthy; cbn [negb] in H; [| discriminate H].
  apply bind_Return in H. destruct H as (algos & s10 & H10 & H).
  apply lift_Return in H10. destruct H10 as [_ ->].
  apply bind_Return in H. destruct H as (supported & s11 & H11 & H).
  apply lift_Return in H11. destruct H11 as [_ ->].
  apply bind_Return in H. destruct H as (prepared & s12 & H12 & H).
  apply bind_Return in H. destruct H as (? & s13 & H13 & H).
  apply new_NativeAppService_Return in H13.
  apply (kept_on_Return _ (native_is (Some 0) 1)) in H12; [| | exact H7].
  2:{ repeat (native_is_step
              || match goal with
                 | |- preserves _ (fetch _ _ _) => apply fetch_native_is
                 end). }
  destruct H12 as [_ H12]. rewrite H12 in H13.
  apply bind_Return in H. destruct H as (? & s14 & H14 & H).
  apply (kept_on_Return _ (native_is (Some 1) 2)) in H14; [| | exact H13].
  2:{ unfold connect. repeat native_is_step. }
  apply bind_Return in H. destruct H as (docHash & s15 & H15 & H).
  apply lift_Return in H15. destruct H15 as [Hhash ->].
  apply bind_Return in H. destruct H as (hashAlgo & s16 & H16 & H).
  apply lift_Return in H16. destruct H16 as [Halgo ->].
  apply bind_Return in H. destruct H as (pageOrigin & s17 & H17 & H).
  apply lift_Return in H17. destruct H17 as [Hpage ->].
  apply bind_Return in H. destruct H as (signatureResponse & s18 & H18 & H).
  apply (race_send_Return _ _ _ _ 1 2) in H18; [| exact H14].
  destruct H18 as [Hsignature _].
  apply bind_Return in H. destruct H as (error' & s19 & H19 & H).
  apply lift_Return in H19. destruct H19 as [_ ->].
  destruct (truthy error'); [discriminate H |].
  apply bind_Return in H. destruct H as (sig & s20 & H20 & H).
  apply lift_Return in H20. destruct H20 as [Hsig ->].
  destruct (negb (truthy sig)); [discriminate H |].
  unfold ret in H. injection H as <- _. cbn [prepareDocumentResult signature].
  exists prepareOrigin, certificateResponse, certificate, docHash, hashAlgo, pageOrigin,
    signatureResponse.
  now repeat split.
Qed.

Lemma sign_signs_prepared_hash_witness :
  exists prepareOrigin certificateResponse certificate docHash hashAlgo pageOrigin
         signatureResponse,
    origin_of (postPrepareSigningUrl Sample.args) = Return prepareOrigin
    /\ native_response (Sample.flow Sample.finalized None) 0
         (mkNativeMessage "get-signing-certificate"
            (("origin", JStr prepareOrigin) :: lang_props (lang Sample.args)))
       = Return certificateResponse
    /\ get certificateResponse "certificate" = Return certificate
    /\ truthy certificate = true
    /\ get (body Sample.prepared) "hash" = Return docHash
    /\ get (body Sample.prepared) "algorithm" = Return hashAlgo
    /\ origin_of (getSenderUrl (sender Sample.args)) = Return pageOrigin
    /\ native_response (Sample.flow Sample.finalized None) 1
         (mkNativeMessage "sign"
            ([("doc-hash", docHash); ("hash-algo", hashAlgo);
              ("origin", JStr pageOrigin); ("user-eid-cert", certificate)]
             ++ lang_props (lang Sample.args)))
       = Return signatureResponse
    /\ get signatureResponse "signature" = Return (JStr "c2lnbmF0dXJl").
Proof.
  let r := eval vm_compute in
       (sign_until_signature (Sample.flow Sample.finalized None) Sample.args
          initial_state) in
  lazymatch r with
  | (Return ?signed, ?st) =>
      apply (sign_signs_prepared_hash (Sample.flow Sample.finalized None) Sample.args
               signed st)
  end.
  vm_compute. reflexivity.
Defined.

(** ** The permission query and the answers of the hook *)

(** X21. A failure of the permission query is swallowed: when
    [browser.permissions.contains] rejects, [fetch] runs as it does in a
    browser that answers [false], with no listener installed and the
    response headers unchecked. *)
Theorem fetch_swallows_permission_error B url init st e :
  permissions_contains B = Throw e ->
  fetch B url init st
  = fetch (mkFetchEnv (Return false) (onHeadersReceived B) (getSecurityInfo B)
             (tabs_sendMessage B))
      url init st.
Proof.
  intros Hperm. revert st.
  change (same (fetch B url init)
            (fetch (mkFetchEnv (Return false) (onHeadersReceived B)
                      (getSecurityInfo B) (tabs_sendMessage B)) url init)).
  unfold fetch.
  apply same_bind; [apply same_refl | intros this].
  apply same_bind; [apply same_refl | intros fetchUrl].
  destruct (negb (startsWith (toLocaleLowerCase fetchUrl) "https://"));
    [apply same_refl |].
  intros st. unfold bind at 1. unfold try_catch at 1. unfold bind at 1.
  unfold emit at 1. unfold lift at 1. rewrite Hperm. unfold ret at 1.
  symmetry. unfold bind at 1. unfold try_catch at 1. unfold bind at 1.
  unfold emit at 1. unfold lift at 1. cbn [permissions_contains].
  cbv iota. reflexivity.
Qed.

Lemma fetch_swallows_permission_error_witness :
  let B := mkFetchEnv (Throw (new_Error (OtherError "Error") (Some "no permissions API")))
             (fun _ => [mkDetails "1" (Some Sample.foreign_allow_origin)])
             (fun _ => Return (mkSecurityInfo "secure" [Sample.certificate_a]))
             (fun _ _ => Return (Some Sample.document)) in
  fetch B "/document" None (Sample.state_of Sample.cors_service)
  = fetch (mkFetchEnv (Return false) (onHeadersReceived B) (getSecurityInfo B)
             (tabs_sendMessage B))
      "/document" None (Sample.state_of Sample.cors_service)
  /\ fetch B "/document" None (Sample.state_of Sample.cors_service)
     = (Return (mkFetchResult None Sample.document),
        set_trace
          [PermissionsContains ["webRequest"; "webRequestBlocking"];
           TabsSendMessage 7
             (fetch_message Sample.cors_service "https://cors.example/document" None)]
          (Sample.state_of Sample.cors_service)).
Proof.
  cbv zeta. split; [| vm_compute; reflexivity].
  apply (fetch_swallows_permission_error _ "/document" None
           (Sample.state_of Sample.cors_service)
           (new_Error (OtherError "Error") (Some "no permissions API"))).
  reflexivity.
Defined.

Lemma recorded_iff_cancelled B this events :
  forall fetchError,
    fold_left (listener_assigns B this) events fetchError <> None
    <-> fetchError <> None
        \/ In (BlockingResponse true) (flat_map (listener_answers B this) events).
Proof.
  induction events as [| d r IH]; intros fetchError; cbn [fold_left flat_map].
  - cbn [In]. tauto.
  - rewrite IH, in_app_iff.
    generalize (flat_map (listener_answers B this) r). intros rest.
    unfold listener_assigns, listener_answers.
    destruct (getSecurityInfo B (requestId d)) as [info | e]; cbn [In].
    + destruct (truthy_string (corsOrigin this)
                && strict_neq (senderOrigin this) (accessControlAllowOrigin_of d)).
      * split; [intros _; right; left; now left | intros _; left; discriminate].
      * split.
        -- intros [H | H]; [now left | right; now right].
        -- intros [H | [[H | []] | H]]; [now left | discriminate | now right].
    + tauto.
Qed.

(** X22. The hook cancels what it rejects, and [fetch] fails for what
    the hook cancelled: among the effects of a call of [fetch] that has
    passed the checks on the URL, the listener has answered a response
    with [cancel: true] exactly when it has recorded an error; and then
    [fetch] throws an [OriginMismatchError] once the relayed fetch has
    settled with a response, whatever the response. *)
Theorem fetch_fails_iff_cancelled B url init st this fetchUrl :
  webServerService st = Some this ->
  coerceOrigin (or_else (corsOrigin this) (senderOrigin this)) url = Return fetchUrl ->
  startsWith (toLocaleLowerCase fetchUrl) "https://" = true ->
  exists effects,
    trace (snd (fetch B url init st)) = trace st ++ effects
    /\ (In (BlockingResponse true) effects <-> hook_error B this fetchUrl <> None)
    /\ (In (BlockingResponse true) effects ->
        forall response,
          tabs_sendMessage B (senderTabId this) (fetch_message this fetchUrl init)
          = Return (Some response) ->
          exists error,
            fst (fetch B url init st) = Throw error
            /\ err_class error = OriginMismatchError).
Proof.
  intros Hst Hco Hs.
  rewrite (fetch_run B url init st this fetchUrl Hst Hco Hs). cbn [fst snd set_trace trace].
  eexists. split; [reflexivity |].
  assert (In (BlockingResponse true)
            (PermissionsContains ["webRequest"; "webRequestBlocking"]
             :: (if has_permission B then [AddListener [fetchUrl]] else []) ++
                TabsSendMessage (senderTabId this) (fetch_message this fetchUrl init)
                :: (if has_permission B
                    then flat_map (listener_answers B this) (onHeadersReceived B fetchUrl)
                    else []) ++
                   match tabs_sendMessage B (senderTabId this)
                           (fetch_message this fetchUrl init) with
                   | Return _ => if has_permission B then [RemoveListener] else []
                   | Throw _ => []
                   end ++ (if has_permission B then [RemoveListener] else []))
          <-> hook_error B this fetchUrl <> None) as Hiff.
  { unfold hook_error. destruct (has_permission B).
    - rewrite (recorded_iff_cancelled B this (onHeadersReceived B fetchUrl) None).
      cbn [app In]. rewrite !in_app_iff.
      destruct (tabs_sendMessage B _ _); cbn [In]; split;
        intros H; repeat (destruct H as [H | H]); try discriminate; try tauto.
    - cbn [app In]. destruct (tabs_sendMessage B _ _); cbn [app In]; split;
        intros H; repeat (destruct H as [H | H]); try discriminate; try tauto. }
  split; [exact Hiff |].
  intros Hin response ->. apply Hiff in Hin.
  assert (is_mismatch (hook_error B this fetchUrl)) as Hmis.
  { unfold hook_error in *. destruct (has_permission B); [| congruence].
    pose proof (recorded_keeps B this (onHeadersReceived B fetchUrl) None) as [Hk _].
    specialize (Hk I).
    destruct (fold_left _ _ None); [exact Hk | congruence]. }
  unfold settle. destruct (hook_error B this fetchUrl) as [e |]; [| destruct Hmis].
  cbn in Hmis. destruct (ok response); cbn [negb]; eexists; split;
    try reflexivity; exact Hmis.
Qed.

Lemma fetch_fails_iff_cancelled_witness :
  exists effects,
    trace (snd (fetch (Sample.inspecting_browser Sample.foreign_allow_origin
                         Sample.certificate_a Sample.document)
                  "/document" None (Sample.state_of Sample.cors_service)))
    = trace (Sample.state_of Sample.cors_service) ++ effects
    /\ (In (BlockingResponse true) effects
        <-> hook_error (Sample.inspecting_browser Sample.foreign_allow_origin
                          Sample.certificate_a Sample.document)
              Sample.cors_service "https://cors.example/document" <> None)
    /\ (In (BlockingResponse true) effects ->
        forall response,
          tabs_sendMessage (Sample.inspecting_browser Sample.foreign_allow_origin
                              Sample.certificate_a Sample.document)
            (senderTabId Sample.cors_service)
            (fetch_message Sample.cors_service "https://cors.example/document" None)
          = Return (Some response) ->
          exists error,
            fst (fetch (Sample.inspecting_browser Sample.foreign_allow_origin
                          Sample.certificate_a Sample.document)
                   "/document" None (Sample.state_of Sample.cors_service))
            = Throw error
            /\ err_class error = OriginMismatchError).
Proof.
  apply (fetch_fails_iff_cancelled
           (Sample.inspecting_browser Sample.foreign_allow_origin
              Sample.certificate_a Sample.document)
           "/document" None (Sample.state_of Sample.cors_service) Sample.cors_service
           "https://cors.example/document");
    vm_compute; reflexivity.
Defined.
